(** * orix: Miller vectors, local grids and SO(3) sampling

    A shallow embedding of [orix/vector/miller.py],
    [orix/gridding/grid_generators.py] and [orix/sampling/SO3_sampling.py].

    Arrays of index triples are lists of rows.  The index arithmetic of
    [miller.py] is written once over an interface of scalar operations
    ([Num]) and run on two instances: binary64 floats, which is what NumPy
    computes with, and exact rationals.  The trigonometric code of the
    sampler is written over the real numbers. *)

From Stdlib Require Import ZArith QArith Qround Qabs Floats Reals Lra Lia Bool.
From Stdlib Require Import Ascii String.
From stdpp Require Import base option list strings pretty gmap.

Set Default Proof Using "Type".

(** ** Scalars *)

(** The operations NumPy applies to array elements in [miller.py]. *)
Class Num (A : Type) := {
  of_Z : Z → A;               (* an integer used as a scalar *)
  add : A → A → A;
  sub : A → A → A;
  mul : A → A → A;
  div : A → A → A;
  opp : A → A;
  absv : A → A;               (* np.abs *)
  leb : A → A → bool;         (* <= *)
  ltb : A → A → bool;         (* < *)
  eqb : A → A → bool;         (* == *)
  rint : A → A;               (* np.round(x): nearest integer, ties to even *)
  to_int : A → Z              (* x.astype(int): truncation toward zero *)
}.

(** Nearest integer of a rational, ties to the even neighbour. *)
Definition Qround_half_even (q : Q) : Z :=
  let f := Qfloor q in
  match Qcompare (q - inject_Z f) (1 # 2) with
  | Lt => f
  | Gt => (f + 1)%Z
  | Eq => if Z.even f then f else (f + 1)%Z
  end.

Definition Qtruncate (q : Q) : Z :=
  if Qle_bool 0 q then Qfloor q else Qceiling q.

#[export] Instance NumQ : Num Q := {|
  of_Z := inject_Z;
  add := Qplus; sub := Qminus; mul := Qmult; div := Qdiv;
  opp := Qopp; absv := Qabs;
  leb := Qle_bool;
  ltb := λ x y, negb (Qle_bool y x);
  eqb := Qeq_bool;
  rint := λ x, inject_Z (Qround_half_even x);
  to_int := Qtruncate
|}.

(** *** Binary64 *)

Definition float_of_Z (z : Z) : float :=
  match z with
  | Z0 => PrimFloat.zero
  | Zpos p => PrimFloat.of_uint63 (Uint63.of_Z (Zpos p))
  | Zneg p => PrimFloat.opp (PrimFloat.of_uint63 (Uint63.of_Z (Zpos p)))
  end.

(** The exact rational value of a finite float. *)
Definition Q_of_float (x : float) : Q :=
  match Prim2SF x with
  | S754_finite s m e =>
      let n := if s then Zneg m else Zpos m in
      match e with
      | Z0 => inject_Z n
      | Zpos k => inject_Z (n * 2 ^ Zpos k)
      | Zneg k => Qmake n (2 ^ k)
      end
  | _ => 0
  end.

(** [np.round] on a float: a float with a non-negative exponent is an
    integer already; otherwise its magnitude is below 2^52 and the nearest
    integer is representable. *)
Definition float_rint (x : float) : float :=
  match Prim2SF x with
  | S754_finite _ _ (Zneg _) => float_of_Z (Qround_half_even (Q_of_float x))
  | _ => x
  end.

Definition float_to_int (x : float) : Z := Qtruncate (Q_of_float x).

#[export] Instance NumFloat : Num float := {|
  of_Z := float_of_Z;
  add := PrimFloat.add; sub := PrimFloat.sub;
  mul := PrimFloat.mul; div := PrimFloat.div;
  opp := PrimFloat.opp; absv := PrimFloat.abs;
  leb := PrimFloat.leb; ltb := PrimFloat.ltb; eqb := PrimFloat.eqb;
  rint := float_rint;
  to_int := float_to_int
|}.

Section Scalars.
Context {A : Type} `{Num A}.

(** The decimal literal [m]e[e].  On floats the quotient (product) of two
    exactly representable numbers is correctly rounded, as the literal is. *)
Definition dec (m e : Z) : A :=
  match e with
  | Z0 => of_Z m
  | Zpos k => mul (of_Z m) (of_Z (10 ^ Zpos k))
  | Zneg k => div (of_Z m) (of_Z (10 ^ Zpos k))
  end.
End Scalars.

(** ** Strings *)

(** [str.lower] on ASCII letters. *)
Definition lower_ascii (c : ascii) : ascii :=
  let n := nat_of_ascii c in
  if (65 <=? n)%nat && (n <=? 90)%nat then ascii_of_nat (n + 32) else c.

Fixpoint lower (s : string) : string :=
  match s with
  | EmptyString => EmptyString
  | String c r => String (lower_ascii c) (lower r)
  end.

(** ** Index conversions ([miller.py], lines 613-681) *)

(** A row of a three-column array, a row of a four-column array, and a
    3x3 matrix as its three rows. *)
Definition vec3 (A : Type) : Type := A * A * A.
Definition vec4 (A : Type) : Type := A * A * A * A.
Definition mat33 (A : Type) : Type := vec3 A * vec3 A * vec3 A.

Section IndexConversions.
Context {A : Type} `{Num A}.
Abbreviation V3 := (vec3 A).
Abbreviation V4 := (vec4 A).

Definition hkl2hkil_row (hkl : V3) : V4 :=
  let '(h, k, l) := hkl in (h, k, opp (add h k), l).

Definition hkil2hkl_row (hkil : V4) : V3 :=
  let '(h, k, _, l) := hkil in (h, k, l).

Definition _hkl2hkil (hkl : list V3) : list V4 := hkl2hkil_row <$> hkl.
Definition _hkil2hkl (hkil : list V4) : list V3 := hkil2hkl_row <$> hkil.

(** [convention is not None and convention.lower() == "mtex"] *)
Definition is_mtex (convention : option string) : bool :=
  match convention with
  | Some c => bool_decide (lower c = "mtex")
  | None => false
  end.

Definition scale4 (f : A → A) (x : V4) : V4 :=
  let '(a, b, c, d) := x in (f a, f b, f c, f d).
Definition scale3 (f : A → A) (x : V3) : V3 :=
  let '(a, b, c) := x in (f a, f b, f c).

Definition uvw2UVTW_row (convention : option string) (uvw : V3) : V4 :=
  let '(u, v, w) := uvw in
  let UVTW := (div (sub (mul (of_Z 2) u) v) (of_Z 3),
               div (sub (mul (of_Z 2) v) u) (of_Z 3),
               div (opp (add u v)) (of_Z 3),
               w) in
  if is_mtex convention then scale4 (λ x, mul x (of_Z 3)) UVTW else UVTW.

Definition UVTW2uvw_row (convention : option string) (UVTW : V4) : V3 :=
  let '(U, V, _, W) := UVTW in
  let uvw := (add (mul (of_Z 2) U) V,
              add U (mul (of_Z 2) V),
              W) in
  if is_mtex convention then scale3 (λ x, div x (of_Z 3)) uvw else uvw.

Definition _uvw2UVTW (uvw : list V3) (convention : option string) : list V4 :=
  uvw2UVTW_row convention <$> uvw.
Definition _UVTW2uvw (UVTW : list V4) (convention : option string) : list V3 :=
  UVTW2uvw_row convention <$> UVTW.

(** [np.sum(x[..., :3], axis=-1)] of one row: left to right from 0. *)
Definition sum_first3 (x : V4) : A :=
  let '(a, b, c, _) := x in add (add a b) c.

(** [np.allclose(s, 0, atol=1e-4)] with the default [rtol]: every entry
    has [|s - 0| <= atol + rtol * |0|]. *)
Definition atol : A := dec 1 (-4).
Definition close_to_zero (s : A) : bool :=
  leb (absv (sub s (of_Z 0)))
      (add atol (mul (dec 1 (-5)) (absv (of_Z 0)))).
Definition allclose0 (s : list A) : bool := forallb close_to_zero s.
End IndexConversions.

(** ** Errors and the object store *)

(** The exceptions the modelled code raises. *)
Inductive error : Type :=
| ValueError (msg : string)
| KeyError (key : string)
| AttributeError (attr : string)
| IndexError
| ShapeError.

Inductive result (X : Type) : Type :=
| Ok (x : X)
| Raise (e : error).
Arguments Ok {X} x.
Arguments Raise {X} e.

Definition is_ok {X} (r : result X) : bool :=
  match r with Ok _ => true | Raise _ => false end.

Definition rbind {X Y} (r : result X) (f : X → result Y) : result Y :=
  match r with Ok x => f x | Raise e => Raise e end.

Notation "x <-? r ;; k" := (rbind r (λ x, k))
  (at level 200, r at level 99, k at level 200, only parsing).

(** Apply a partial function to every element, left to right; the first
    exception ends the traversal. *)
Fixpoint mapR {X Y} (f : X → result Y) (l : list X) : result (list Y) :=
  match l with
  | [] => Ok []
  | x :: r => y <-? f x ;; ys <-? mapR f r ;; Ok (y :: ys)
  end.

(** A [for] loop over a list of indices that carries a state. *)
Fixpoint for_each {S I} (body : S → I → result S) (l : list I) (st : S) : result S :=
  match l with
  | [] => Ok st
  | i :: r => st' <-? body st i ;; for_each body r st'
  end.

Definition from_opt {X} (e : error) (o : option X) : result X :=
  match o with Some x => Ok x | None => Raise e end.

(** The messages of [miller.py]. *)
Definition msg_no_phase : string :=
  "A phase with a crystal lattice and symmetry must be passed to create direct  or reciprocal lattice vector(s)".
Definition msg_no_coords : string :=
  "Either `uvw` (direct), `UVTW` (direct), `hkl` (reciprocal), `hkil` (reciprocal), or `xyz` (assumes direct) coordinates must be passed".
Definition msg_formats : string :=
  "Available coordinate formats are ['xyz', 'uvw', 'UVTW', 'hkl', 'hkil']".
Definition msg_hkil : string :=
  "The Miller-Bravais indices convention h + k + i = 0 is not satisfied".
Definition msg_UVTW : string :=
  "The Miller-Bravais indices convention U + V + T = 0 is not satisfied".
Definition msg_multiplicity : string :=
  "`unique` must be True when `return_multiplicity` is True".
Definition msg_index : string :=
  "`unique` must be True when `return_index` is True".

(** *** One-dimensional NumPy indexing *)

Inductive key : Type :=
| KInt (i : Z)                        (* a[i] *)
| KSlice (start stop : option Z)      (* a[start:stop] *)
| KMask (mask : list bool)            (* a[boolean array] *)
| KFancy (indices : list Z).          (* a[integer array] *)

Section Indexing.
Context {X : Type}.

(** An index in [-n, n) as a position; anything else is out of bounds. *)
Definition norm_index (n : nat) (i : Z) : option nat :=
  if bool_decide (0 ≤ i < Z.of_nat n)%Z then Some (Z.to_nat i)
  else if bool_decide (- Z.of_nat n ≤ i < 0)%Z then Some (Z.to_nat (Z.of_nat n + i))
  else None.

(** A slice bound clipped to [0, n]. *)
Definition clip_bound (n : nat) (i : Z) : nat :=
  if bool_decide (i < 0)%Z then Z.to_nat (Z.max 0 (Z.of_nat n + i))
  else Nat.min n (Z.to_nat i).

Definition slice_bounds (n : nat) (start stop : option Z) : nat * nat :=
  (from_option (clip_bound n) 0%nat start, from_option (clip_bound n) n stop).

Definition take_at (a : list X) (i : Z) : result X :=
  from_opt IndexError (norm_index (length a) i ≫= λ j, a !! j).

Definition take_all (a : list X) (ixs : list Z) : result (list X) :=
  mapR (take_at a) ixs.

Fixpoint mask_select (a : list X) (mask : list bool) : list X :=
  match a, mask with
  | x :: a', b :: m' => if b then x :: mask_select a' m' else mask_select a' m'
  | _, _ => []
  end.

Definition getitem (a : list X) (k : key) : result (list X) :=
  match k with
  | KInt i => x <-? take_at a i ;; Ok [x]
  | KSlice start stop =>
      let '(lo, hi) := slice_bounds (length a) start stop in
      Ok (take (hi - lo) (drop lo a))
  | KMask m =>
      if bool_decide (length m = length a) then Ok (mask_select a m)
      else Raise IndexError
  | KFancy ixs => take_all a ixs
  end.

(** [a[lo:hi] = x] with a scalar on the right: the slice is clipped. *)
Definition fill_slice (a : list X) (lo hi : nat) (x : X) : list X :=
  imap (λ j y, if bool_decide (lo ≤ j < hi)%nat then x else y) a.
End Indexing.

(** ** Lattice and structure matrices ([miller.py], lines 593-611, 741-756) *)

(** What the code reads of a [diffpy.structure.Lattice]: the cell lengths
    ([abcABG()[:3]]), cosines and sine of the cell angles, and the volume. *)
Record Lattice (A : Type) : Type := {
  lattice_a : A; lattice_b : A; lattice_c : A;
  lattice_ca : A; lattice_cb : A; lattice_cg : A;
  lattice_sg : A;
  lattice_volume : A
}.
Arguments lattice_a {A}. Arguments lattice_b {A}. Arguments lattice_c {A}.
Arguments lattice_ca {A}. Arguments lattice_cb {A}. Arguments lattice_cg {A}.
Arguments lattice_sg {A}. Arguments lattice_volume {A}.

(** The library code [miller.py] calls whose source is not among the
    modelled files: the [Vector3d] base class, the action of a symmetry
    operation, and the NumPy routines that are more than elementwise
    arithmetic. *)
Class External (A : Type) := {
  Op : Type;                                   (* a symmetry operation *)
  act : Op → vec3 A → vec3 A;                  (* its action on a vector *)
  Vector3d_unique : list (vec3 A) → list (vec3 A) * list Z;
                                               (* unique entries, their indices *)
  Vector3d_unit : list (vec3 A) → list (vec3 A);
  Vector3d_cross : list (vec3 A) → list (vec3 A) → result (list (vec3 A));
  linalg_inv : mat33 A → mat33 A;              (* np.linalg.inv *)
  np_lexsort : list (vec3 A) → list Z;         (* np.lexsort(a.T) *)
  np_unique_index : list (list (vec3 A)) → list Z
                          (* np.unique(.., return_index=True, axis=0)[1] *)
}.

Section StructureMatrices.
Context {A : Type} `{Num A} `{External A}.
Abbreviation V3 := (vec3 A).
Abbreviation M33 := (mat33 A).

Definition dot3 (x y : V3) : A :=
  let '(x1, x2, x3) := x in
  let '(y1, y2, y3) := y in
  add (add (mul x1 y1) (mul x2 y2)) (mul x3 y3).

Definition transpose (m : M33) : M33 :=
  let '((m11, m12, m13), (m21, m22, m23), (m31, m32, m33)) := m in
  ((m11, m21, m31), (m12, m22, m32), (m13, m23, m33)).

(** [m.dot(v)] *)
Definition mat_vec (m : M33) (v : V3) : V3 :=
  let '(r1, r2, r3) := m in (dot3 r1 v, dot3 r2 v, dot3 r3 v).

(** [v.dot(m)] *)
Definition vec_mat (v : V3) (m : M33) : V3 := mat_vec (transpose m) v.

Definition _direct_structure_matrix (lattice : Lattice A) : M33 :=
  let a := lattice_a lattice in
  let b := lattice_b lattice in
  let c := lattice_c lattice in
  let ca := lattice_ca lattice in
  let cb := lattice_cb lattice in
  let cg := lattice_cg lattice in
  let sg := lattice_sg lattice in
  ((a, mul b cg, mul c cb),
   (of_Z 0, mul b sg, div (mul (opp c) (sub (mul cb cg) ca)) sg),
   (of_Z 0, of_Z 0, div (lattice_volume lattice) (mul (mul a b) sg))).

Definition _reciprocal_structure_matrix (lattice : Lattice A) : M33 :=
  transpose (linalg_inv (_direct_structure_matrix lattice)).

Definition _uvw2xyz (uvw : list V3) (lattice : Lattice A) : list V3 :=
  let dsm := _direct_structure_matrix lattice in mat_vec dsm <$> uvw.

Definition _xyz2uvw (xyz : list V3) (lattice : Lattice A) : list V3 :=
  let rsm := _reciprocal_structure_matrix lattice in (λ v, vec_mat v rsm) <$> xyz.

Definition _hkl2xyz (hkl : list V3) (lattice : Lattice A) : list V3 :=
  let rsm := _reciprocal_structure_matrix lattice in mat_vec rsm <$> hkl.

Definition _xyz2hkl (xyz : list V3) (lattice : Lattice A) : list V3 :=
  let dsm := _direct_structure_matrix lattice in (λ v, vec_mat v dsm) <$> xyz.

(** [_check_hkil], [_check_UVTW] *)
Definition _check_hkil (hkil : list (vec4 A)) : result unit :=
  if negb (allclose0 (sum_first3 <$> hkil)) then Raise (ValueError msg_hkil)
  else Ok tt.

Definition _check_UVTW (UVTW : list (vec4 A)) : result unit :=
  if negb (allclose0 (sum_first3 <$> UVTW)) then Raise (ValueError msg_UVTW)
  else Ok tt.
End StructureMatrices.

(** ** The Miller class ([miller.py], lines 32-590) *)

Section MillerClass.
Context {A : Type} `{Num A} `{External A}.
Abbreviation V3 := (vec3 A).
Abbreviation V4 := (vec4 A).

(** What [Miller] reads of a phase: [phase.point_group], the symmetry
    operations in their order, and [phase.structure.lattice]. *)
Record Phase : Type := {
  point_group : list Op;
  structure_lattice : Lattice A
}.

(** A [Miller] instance.  [data] refers to the NumPy array of Cartesian
    coordinates, a one-dimensional batch of vectors, held in the store. *)
Record Miller : Type := {
  data : nat;
  phase : option Phase;
  coordinate_format : string
}.

(** The store of arrays, and computations that read it, allocate in it
    and may raise. *)
Abbreviation heap := (gmap nat (list V3)).
Definition M (X : Type) : Type := heap → result (X * heap).

Definition ret {X} (x : X) : M X := λ h, Ok (x, h).
Definition raise {X} (e : error) : M X := λ _, Raise e.
Definition bind {X Y} (m : M X) (f : X → M Y) : M Y :=
  λ h, match m h with
       | Ok (x, h') => f x h'
       | Raise e => Raise e
       end.
Definition lift {X} (r : result X) : M X :=
  λ h, match r with Ok x => Ok (x, h) | Raise e => Raise e end.
Definition read (l : nat) : M (list V3) := λ h, Ok (h !!! l, h).
Definition alloc (a : list V3) : M nat :=
  λ h, let l := fresh (dom h) in Ok (l, <[l := a]> h).

Notation "x <- m ;; k" := (bind m (λ x, k))
  (at level 200, m at level 99, k at level 200, only parsing).

Definition formats : list string := ["xyz"; "uvw"; "UVTW"; "hkl"; "hkil"].

Definition get_lattice (phase : option Phase) : M (Lattice A) :=
  match phase with
  | Some p => ret (structure_lattice p)
  | None => raise (AttributeError "structure")
  end.

Definition get_point_group (phase : option Phase) : M (list Op) :=
  match phase with
  | Some p => ret (point_group p)
  | None => raise (AttributeError "point_group")
  end.

(** [Miller.__init__].  [xyz] is an array already in the store
    ([np.asarray] does not copy it); the index arguments are values. *)
Definition Miller_init
    (xyz : option nat) (uvw : option (list V3)) (UVTW : option (list V4))
    (hkl : option (list V3)) (hkil : option (list V4))
    (phase : option Phase) (coordinate_format : option string) : M Miller :=
  if bool_decide (xyz = None) && bool_decide (phase = None :> option Phase)
  then raise (ValueError msg_no_phase)
  else
    r <-
      match xyz, uvw, UVTW, hkl, hkil with
      | Some l, _, _, _, _ => ret (l, "xyz")
      | None, Some uvw, _, _, _ =>
          lattice <- get_lattice phase;;
          l <- alloc (_uvw2xyz uvw lattice);;
          ret (l, "uvw")
      | None, None, Some UVTW, _, _ =>
          _ <- lift (_check_UVTW UVTW);;
          let uvw := _UVTW2uvw UVTW None in
          lattice <- get_lattice phase;;
          l <- alloc (_uvw2xyz uvw lattice);;
          ret (l, "UVTW")
      | None, None, None, Some hkl, _ =>
          lattice <- get_lattice phase;;
          l <- alloc (_hkl2xyz hkl lattice);;
          ret (l, "hkl")
      | None, None, None, None, Some hkil =>
          _ <- lift (_check_hkil hkil);;
          let hkl := _hkil2hkl hkil in
          lattice <- get_lattice phase;;
          l <- alloc (_hkl2xyz hkl lattice);;
          ret (l, "hkil")
      | None, None, None, None, None => raise (ValueError msg_no_coords)
      end;;
    let '(xyz, in_coords) := r in
    let coordinate_format := default in_coords coordinate_format in
    if bool_decide (coordinate_format ∈ formats)
    then ret {| data := xyz; phase := phase;
                coordinate_format := coordinate_format |}
    else raise (ValueError msg_formats).

(** [self.__class__(xyz=.., phase=self.phase,
    coordinate_format=self.coordinate_format)] *)
Definition rewrap (self : Miller) (xyz : nat) (fmt : string) : M Miller :=
  Miller_init (Some xyz) None None None None (phase self) (Some fmt).

(** [Miller.__getitem__] *)
Definition Miller_getitem (self : Miller) (k : key) : M Miller :=
  a <- read (data self);;
  b <- lift (getitem a k);;
  l <- alloc b;;
  rewrap self l (coordinate_format self).

(** [Miller.unit] *)
Definition Miller_unit (self : Miller) : M Miller :=
  a <- read (data self);;
  l <- alloc (Vector3d_unit a);;
  rewrap self l (coordinate_format self).

(** [Miller.cross]: the arguments of the constructor call are evaluated
    left to right, the base-class product before the format lookup. *)
Definition new_fmt : gmap string string :=
  {[ "hkl" := "uvw"; "uvw" := "hkl"; "hkil" := "UVTW"; "UVTW" := "hkil" ]}.

Definition Miller_cross (self other : Miller) : M Miller :=
  a <- read (data self);;
  b <- read (data other);;
  c <- lift (Vector3d_cross a b);;
  l <- alloc c;;
  match new_fmt !! coordinate_format self with
  | Some fmt => rewrap self l fmt
  | None => raise (KeyError (coordinate_format self))
  end.

(** *** [Miller.symmetrise] *)

(** [operations.outer(self)]: one row per operation, one column per vector. *)
Definition outer (operations : list Op) (v : list V3) : list (list V3) :=
  (λ g, act g <$> v) <$> operations.

(** [v2[:, i]] *)
Definition column (v2 : list (list V3)) (i : nat) : result (list V3) :=
  mapR (λ row : list V3, from_opt IndexError (row !! i)) v2.

Definition zero3 : V3 := (of_Z 0, of_Z 0, of_Z 0).

(** The arrays the loop of [symmetrise] writes, and its counter. *)
Record sym_state : Type := {
  st_v3 : list (list V3);
  st_multiplicity : list Z;
  st_idx : list Z;
  st_l_accum : nat
}.

(** [row[:l] = vi] with [l = vi.size]: the slice is clipped to the row,
    and the right-hand side must have its length, or a single vector. *)
Definition assign_prefix (row vi : list V3) : result (list V3) :=
  let l := length vi in
  if bool_decide (l ≤ length row)%nat then Ok (vi ++ drop l row)
  else if bool_decide (l = 1)%nat then Ok row
  else Raise ShapeError.

(** The body of [for i in range(n_v)]. *)
Definition symmetrise_step (v2 : list (list V3)) (st : sym_state) (i : nat)
    : result sym_state :=
  col <-? column v2 i ;;
  let vi := (Vector3d_unique col).1 in
  let l := length vi in
  row <-? from_opt IndexError (st_v3 st !! i) ;;
  row' <-? assign_prefix row vi ;;
  _ <-? from_opt IndexError (st_multiplicity st !! i) ;;
  Ok {| st_v3 := <[i := row']> (st_v3 st);
        st_multiplicity := <[i := Z.of_nat l]> (st_multiplicity st);
        st_idx := fill_slice (st_idx st) (st_l_accum st) (st_l_accum st + l)
                             (Z.of_nat i);
        st_l_accum := st_l_accum st + l |}.

(** [np.sum(np.abs(v), axis=-1) != 0] *)
Definition sum_abs (v : V3) : A :=
  let '(x, y, z) := v in add (add (absv x) (absv y)) (absv z).
Definition non_zero (v : V3) : bool := negb (eqb (sum_abs v) (of_Z 0)).

(** The [if unique:] block: the vectors kept, the multiplicities and the
    indices. *)
Definition symmetrise_unique (operations : list Op) (a : list V3)
    : result (list V3 * list Z * list Z) :=
  let v2 := outer operations a in
  let n_v := length a in
  let size := length operations in
  let st0 := {| st_v3 := replicate n_v (replicate size zero3);
                st_multiplicity := replicate n_v 0%Z;
                st_idx := replicate (n_v * size) (-1)%Z;
                st_l_accum := 0 |} in
  st <-? for_each (symmetrise_step v2) (seq 0 n_v) st0 ;;
  let kept := concat (filter (λ v, non_zero v = true) <$> st_v3 st) in
  Ok (kept, st_multiplicity st, take (length kept) (st_idx st)).

(** The unique symmetrically equivalent vectors of one vector, and the
    row of [v3] that holds them. *)
Definition unique_orbit (operations : list Op) (v : V3) : list V3 :=
  (Vector3d_unique ((λ g, act g v) <$> operations)).1.

Definition padded_orbit (operations : list Op) (v : V3) : list V3 :=
  unique_orbit operations v
  ++ replicate (length operations - length (unique_orbit operations v)) zero3.


(** What [symmetrise] returns, by the two [return_] flags. *)
Inductive sym_result : Type :=
| Sym (m : Miller)
| SymMultiplicity (m : Miller) (multiplicity : list Z)
| SymIndex (m : Miller) (idx : list Z)
| SymMultiplicityIndex (m : Miller) (multiplicity idx : list Z).

Definition sym_miller (r : sym_result) : Miller :=
  match r with
  | Sym m | SymMultiplicity m _ | SymIndex m _ | SymMultiplicityIndex m _ _ => m
  end.

Definition Miller_symmetrise (self : Miller)
    (unique return_multiplicity return_index : bool) : M sym_result :=
  if return_multiplicity && negb unique
  then raise (ValueError msg_multiplicity)
  else if return_index && negb unique
  then raise (ValueError msg_index)
  else
    operations <- get_point_group (phase self);;
    a <- read (data self);;
    r <- (if unique then lift (symmetrise_unique operations a)
          else ret (concat (outer operations a), [], []));;
    let '(v2, multiplicity, idx) := r in
    l <- alloc v2;;
    m <- rewrap self l (coordinate_format self);;
    ret (if return_multiplicity && return_index
         then SymMultiplicityIndex m multiplicity idx
         else if return_multiplicity && negb return_index
         then SymMultiplicity m multiplicity
         else if negb return_multiplicity && return_index
         then SymIndex m idx
         else Sym m).

(** *** [Miller.unique] *)

(** [x.reshape(n, m)] of a flat array of [n * m] vectors. *)
Fixpoint reshape (n m : nat) (x : list V3) : list (list V3) :=
  match n with
  | O => []
  | S n' => take m x :: reshape n' m (drop m x)
  end.

(** [data_sorted[i] = a[order]] for one row. *)
Definition sort_row (size : nat) (a : list V3) : result (list V3) :=
  b <-? take_all a (np_lexsort a) ;;
  if bool_decide (length b = size) then Ok b
  else match b with
       | [x] => Ok (replicate size x)
       | _ => Raise ShapeError
       end.

Inductive unique_result : Type :=
| Unique (m : Miller)
| UniqueIndex (m : Miller) (idx : list Z).

Definition unique_miller (r : unique_result) : Miller :=
  match r with Unique m | UniqueIndex m _ => m end.

(** The [if use_symmetry:] block: the vectors kept and their indices. *)
Definition unique_under_symmetry (operations : list Op) (v : list V3)
    : result (list V3 * list Z) :=
  let n_v := length v in
  let size := length operations in
  let v2 := reshape n_v size (concat (outer operations v)) in
  data_sorted <-? mapR (sort_row size) v2 ;;
  let idx := np_unique_index data_sorted in
  v <-? take_all v (reverse idx) ;;
  Ok (v, idx).

Definition Miller_unique (self : Miller) (use_symmetry return_index : bool)
    : M unique_result :=
  a <- read (data self);;
  let '(v, idx) := Vector3d_unique a in
  r <- (if use_symmetry then
          operations <- get_point_group (phase self);;
          lift (unique_under_symmetry operations v)
        else ret (v, idx));;
  let '(v, idx) := r in
  l <- alloc v;;
  m <- rewrap self l (coordinate_format self);;
  ret (if return_index then UniqueIndex m idx else Unique m).
End MillerClass.

Arguments M : clear implicits.

Notation "x <- m ;; k" := (bind m (λ x, k))
  (at level 200, m at level 99, k at level 200, only parsing).

(** ** An executable instance of the library interface

    Binary64 vectors, with symmetry operations as rotation matrices.  The
    properties below are proved for every instance of [External]; this one
    serves to run the model on examples. *)

Module Sample.
Abbreviation V3 := (vec3 float).

Definition vec_eqb (x y : V3) : bool :=
  let '(x1, x2, x3) := x in
  let '(y1, y2, y3) := y in
  PrimFloat.eqb x1 y1 && PrimFloat.eqb x2 y2 && PrimFloat.eqb x3 y3.

(** [np.isclose(x, 0)] with the default tolerances *)
Definition isclose0 (x : float) : bool :=
  PrimFloat.leb (PrimFloat.abs x) (dec 1 (-8)).

Definition all_close0 (v : V3) : bool :=
  let '(x, y, z) := v in isclose0 x && isclose0 y && isclose0 z.

(** Modelled from the spec: [Vector3d.unique] of the base class, whose
    source is not part of the files modelled here.  Unique entries in the
    order of their first occurrence, zero vectors dropped, and the positions
    of the first occurrences. *)
Fixpoint unique_from (pos : Z) (seen : list V3) (l : list V3)
    : list (V3 * Z) :=
  match l with
  | [] => []
  | v :: r =>
      if all_close0 v || existsb (vec_eqb v) seen
      then unique_from (pos + 1) seen r
      else (v, pos) :: unique_from (pos + 1) (v :: seen) r
  end.

Definition unique (l : list V3) : list V3 * list Z :=
  let u := unique_from 0 [] l in (fst <$> u, snd <$> u).

(** Modelled from the spec: [Vector3d.unit] of the base class, each vector
    divided by its Cartesian norm. *)
Definition norm (v : V3) : float := PrimFloat.sqrt (dot3 v v).

Definition unit (l : list V3) : list V3 :=
  (λ v, scale3 (λ x, PrimFloat.div x (norm v)) v) <$> l.

Definition cross1 (x y : V3) : V3 :=
  let '(x1, x2, x3) := x in
  let '(y1, y2, y3) := y in
  (x2 * y3 - x3 * y2, x3 * y1 - x1 * y3, x1 * y2 - x2 * y1)%float.

(** Modelled from the spec: [Vector3d.cross] of the base class, with
    NumPy's broadcasting of two one-dimensional batches. *)
Definition cross (a b : list V3) : result (list V3) :=
  match a, b with
  | [x], _ => Ok (cross1 x <$> b)
  | _, [y] => Ok ((λ x, cross1 x y) <$> a)
  | _, _ =>
      if bool_decide (length a = length b) then Ok (zip_with cross1 a b)
      else Raise ShapeError
  end.

(** Modelled from the spec: [np.linalg.inv], as the adjugate over the
    determinant. *)
Definition det (m : mat33 float) : float :=
  let '((a, b, c), (d, e, f), (g, h, i)) := m in
  (a * (e * i - f * h) - b * (d * i - f * g) + c * (d * h - e * g))%float.

Definition inv (m : mat33 float) : mat33 float :=
  let '((a, b, c), (d, e, f), (g, h, i)) := m in
  let t := det m in
  (((e * i - f * h) / t, (c * h - b * i) / t, (b * f - c * e) / t),
   ((f * g - d * i) / t, (a * i - c * g) / t, (c * d - a * f) / t),
   ((d * h - e * g) / t, (b * g - a * h) / t, (a * e - b * d) / t))%float.

(** Modelled from the spec: [np.lexsort(a.T)], the positions of the rows
    in lexicographic order with the last coordinate as the primary key. *)
Definition key_ltb (x y : V3) : bool :=
  let '(x1, x2, x3) := x in
  let '(y1, y2, y3) := y in
  PrimFloat.ltb x3 y3
  || PrimFloat.eqb x3 y3
     && (PrimFloat.ltb x2 y2 || PrimFloat.eqb x2 y2 && PrimFloat.ltb x1 y1).

Fixpoint insert_by {X} (lt : X → X → bool) (x : X) (l : list X) : list X :=
  match l with
  | [] => [x]
  | y :: r => if lt x y then x :: l else y :: insert_by lt x r
  end.

Definition sort_by {X} (lt : X → X → bool) (l : list X) : list X :=
  foldr (insert_by lt) [] (reverse l).

Definition lexsort (a : list V3) : list Z :=
  snd <$> sort_by (λ x y, key_ltb x.1 y.1) (zip a (Z.of_nat <$> seq 0 (length a))).

(** Modelled from the spec: the indices of
    [np.unique(rows, return_index=True, axis=0)], the first occurrences of
    the distinct rows, in the order of the rows compared coordinate by
    coordinate. *)
Definition flat (row : list V3) : list float :=
  v ← row; let '(x, y, z) := v in [x; y; z].

Fixpoint list_ltb (x y : list float) : bool :=
  match x, y with
  | a :: x', b :: y' => PrimFloat.ltb a b || PrimFloat.eqb a b && list_ltb x' y'
  | [], _ :: _ => true
  | _, _ => false
  end.

Fixpoint list_eqb (x y : list float) : bool :=
  match x, y with
  | a :: x', b :: y' => PrimFloat.eqb a b && list_eqb x' y'
  | [], [] => true
  | _, _ => false
  end.

Fixpoint first_rows (pos : Z) (seen : list (list float)) (l : list (list float))
    : list (list float * Z) :=
  match l with
  | [] => []
  | r :: rest =>
      if existsb (list_eqb r) seen then first_rows (pos + 1) seen rest
      else (r, pos) :: first_rows (pos + 1) (r :: seen) rest
  end.

Definition unique_index (rows : list (list V3)) : list Z :=
  snd <$> sort_by (λ x y, list_ltb x.1 y.1) (first_rows 0 [] (flat <$> rows)).

#[export] Instance ExternalFloat : External float := {|
  Op := mat33 float;
  act := mat_vec;
  Vector3d_unique := unique;
  Vector3d_unit := unit;
  Vector3d_cross := cross;
  linalg_inv := inv;
  np_lexsort := lexsort;
  np_unique_index := unique_index
|}.

(** The cubic lattice of unit cell length, and the point groups [1],
    [2] (two-fold axis along z) and [4] (four-fold axis along z). *)
Definition cubic : Lattice float :=
  {| lattice_a := 1%float; lattice_b := 1%float; lattice_c := 1%float;
     lattice_ca := 0%float; lattice_cb := 0%float; lattice_cg := 0%float;
     lattice_sg := 1%float; lattice_volume := 1%float |}.

Definition I3 : mat33 float := ((1, 0, 0), (0, 1, 0), (0, 0, 1))%float.
Definition Rz90 : mat33 float := ((0, -1, 0), (1, 0, 0), (0, 0, 1))%float.
Definition Rz180 : mat33 float := ((-1, 0, 0), (0, -1, 0), (0, 0, 1))%float.
Definition Rz270 : mat33 float := ((0, 1, 0), (-1, 0, 0), (0, 0, 1))%float.

Definition PG1 : Phase := {| point_group := [I3]; structure_lattice := cubic |}.
Definition PG2 : Phase := {| point_group := [I3; Rz180]; structure_lattice := cubic |}.
Definition PG4 : Phase :=
  {| point_group := [I3; Rz90; Rz180; Rz270]; structure_lattice := cubic |}.

(** A store with one array, and batches that refer to it. *)
Definition vectors0 : list V3 := [(1, 0, 0); (0, 0, 1); (1, 1, 0)]%float.
Definition store0 : gmap nat (list V3) := {[ 0%nat := vectors0 ]}.
(** Index quartets that do and do not sum to zero. *)
Definition closed_quartet : list (vec4 float) := [(1, 0, -1, 2)%float].
Definition open_quartet : list (vec4 float) := [(1, 0, 0, 2)%float].

Definition batch (fmt : string) : Miller :=
  {| data := 0; phase := Some PG4; coordinate_format := fmt |}.
End Sample.

(** ** Rounding of indices ([miller.py], lines 759-815) *)

Section RoundIndices.
Context {A : Type} `{Num A}.

(** [np.max(np.abs(row))] *)
Definition max_abs (row : list A) : A :=
  match absv <$> row with
  | [] => of_Z 0
  | x :: r => fold_left (λ m y, if ltb m y then y else m) r x
  end.

(** [np.sum(row)] *)
Definition sum_row (row : list A) : A :=
  match row with
  | [] => of_Z 0
  | x :: r => fold_left add r x
  end.

(** [np.argmin]: the position of the first smallest entry. *)
Fixpoint argmin_from (best : A) (best_pos pos : nat) (l : list A) : nat :=
  match l with
  | [] => best_pos
  | x :: r =>
      if ltb x best then argmin_from x pos (S pos) r
      else argmin_from best best_pos (S pos) r
  end.

Definition argmin (l : list A) : nat :=
  match l with
  | [] => 0%nat
  | x :: r => argmin_from x 0%nat 1%nat r
  end.

(** [idx_flat[:, [0, 1, 3]]] for quartets; triples are kept. *)
Definition drop_third (row : list A) : list A :=
  match row with
  | [h; k; _; l] => [h; k; l]
  | _ => row
  end.

(** One entry of [error]: multiplier [m] on one flattened set. *)
Definition rounding_error (scaled_unit : list A) (m : Z) : A :=
  let idx_scaled := (λ x, mul x (of_Z m)) <$> scaled_unit in
  let sq x := mul x x in
  let residue := sum_row ((λ x, sq (sub x (rint x))) <$> idx_scaled) in
  let total := sum_row (sq <$> idx_scaled) in
  mul (dec 1 (-7)) (rint (div (mul (dec 1 7) residue) total)).

Definition round_row (max_index : nat) (row : list A) : list Z :=
  let flat := drop_third row in
  let max_per_set := max_abs flat in
  let multipliers := Z.of_nat <$> seq 1 max_index in
  let scaled_unit := (λ x, div x max_per_set) <$> flat in
  let error := rounding_error scaled_unit <$> multipliers in
  let idx_min_error := argmin error in
  let multiplier := div (of_Z (Z.of_nat idx_min_error + 1)) max_per_set in
  (λ x, to_int (rint (mul multiplier x))) <$> row.

Definition _round_indices (indices : list (list A)) (max_index : nat)
    : list (list Z) :=
  round_row max_index <$> indices.
End RoundIndices.

(** ** SO(3) sampling ([SO3_sampling.py], lines 59-129) *)

(** A quaternion as NumPy stores it, scalar part first. *)
Definition quat : Type := R * R * R * R.

Definition quat_a (q : quat) : R := let '(a, _, _, _) := q in a.

Definition quat_norm (q : quat) : R :=
  let '(a, b, c, d) := q in sqrt (a * a + b * b + c * c + d * d).

#[export] Instance Rlt_decision (x y : R) : Decision (x < y)%R := Rlt_dec x y.
#[export] Instance Rle_decision (x y : R) : Decision (x <= y)%R := Rle_dec x y.

Section Sampling.
Local Open Scope R_scope.

(** [Rotation.unique], of the quaternion module. *)
Variable Rotation_unique : list quat → list quat.

Definition deg2rad (x : R) : R := x * (PI / 180).

(** [int(np.ceil(x))], and [int] (truncation toward zero), of a real
    number.  The step count that binary64 computes from a resolution,
    which can differ from the ceiling of the real quotient by one, is
    [num_steps] below. *)
Definition ceil (x : R) : Z := (- Int_part (- x))%Z.
Definition int (x : R) : Z := if decide (0 <= x) then Int_part x else ceil x.

(** [np.linspace(start, stop, num=num, endpoint=True)] *)
Definition linspace (start stop : R) (num : Z) : result (list R) :=
  if decide (num < 0)%Z then Raise (ValueError "Number of samples must be non-negative")
  else
    let step := (stop - start) / (IZR num - 1) in
    Ok ((λ i : nat, start + INR i * step) <$> seq 0 (Z.to_nat num)).

(** The step counts of the restricted axes. *)
Definition restricted_counts (num_steps : Z) (max_angle : R) : Z * Z :=
  let e_1_min := cos (deg2rad (max_angle / 2)) in
  let u_1_max := 1 - Rsqr e_1_min in
  let u_2_min := asin e_1_min / 2 / PI in
  let num_1 := if decide (1 < int (IZR num_steps * u_1_max))%Z
               then int (IZR num_steps * u_1_max) else 2%Z in
  let num_2 := if decide (1 < int (IZR num_steps * (1 - u_2_min)))%Z
               then int (IZR num_steps * (1 - u_2_min)) else 2%Z in
  (num_1, num_2).

(** The arrays [u_1], [u_2] and [u_3]. *)
Definition sample_axes (resolution : R) (max_angle : option R)
    : result (list R * list R * list R) :=
  let num_steps := ceil (360 / resolution) in
  axes <-?
    match max_angle with
    | None =>
        u_1 <-? linspace 0 1 num_steps ;;
        u_2 <-? linspace 0 1 num_steps ;;
        Ok (u_1, u_2)
    | Some max_angle =>
        let e_1_min := cos (deg2rad (max_angle / 2)) in
        let u_1_max := 1 - Rsqr e_1_min in
        let u_2_min := asin e_1_min / 2 / PI in
        let '(num_1, num_2) := restricted_counts num_steps max_angle in
        u_1 <-? linspace 0 u_1_max num_1 ;;
        u_2 <-? linspace u_2_min 1 num_2 ;;
        Ok (u_1, u_2)
    end ;;
  u_3 <-? linspace 0 1 num_steps ;;
  Ok (axes.1, axes.2, u_3).

(** [np.meshgrid(u_1, u_2, u_3)], each output flattened: the second
    argument varies slowest and the third fastest. *)
Definition meshgrid (u_1 u_2 u_3 : list R) : list (R * R * R) :=
  y ← u_2; x ← u_1; z ← u_3; [(x, y, z)].

(** One row of [q.T]. *)
Definition shoemake (u : R * R * R) : quat :=
  let '(mesh1, mesh2, mesh3) := u in
  let a := sqrt (1 - mesh1) in
  let b := sqrt mesh1 in
  let s_2 := sin (2 * PI * mesh2) in
  let c_2 := cos (2 * PI * mesh2) in
  let s_3 := sin (2 * PI * mesh3) in
  let c_3 := cos (2 * PI * mesh3) in
  (a * s_2, a * c_2, b * s_3, b * c_3).

Definition _three_uniform_samples_method (resolution : R) (max_angle : option R)
    : result (list quat) :=
  axes <-? sample_axes resolution max_angle ;;
  let '(u_1, u_2, u_3) := axes in
  Ok (Rotation_unique (shoemake <$> meshgrid u_1 u_2 u_3)).
End Sampling.

(** ** Local grids ([grid_generators.py], lines 65-93) *)

Section LocalGrid.
Local Open Scope R_scope.

(** [create_equispaced_grid] of [gridding_utils], and the product of two
    rotations. *)
Variable create_equispaced_grid : R → list quat.
Variable Rotation_mul : quat → quat → quat.

(** [np.arccos]: not a number outside of [-1, 1]. *)
Definition np_arccos (x : R) : option R :=
  if decide (-1 <= x) then if decide (x <= 1) then Some (acos x) else None
  else None.

(** [x > y] where [y] may be not a number: then it is false. *)
Definition gt_nan (x : R) (y : option R) : Prop :=
  match y with Some y => y < x | None => False end.

#[local] Instance gt_nan_decision x y : Decision (gt_nan x y).
Proof. destruct y; simpl; apply _. Defined.

Definition get_grid_local (resolution : R) (center : option quat) (grid_width : R)
    : list quat :=
  let q := create_equispaced_grid resolution in
  let grid_cosine := np_arccos (deg2rad (grid_width / 2)) in
  let q := filter (λ x, gt_nan (quat_a x) grid_cosine) q in
  match center with
  | Some center => Rotation_mul center <$> q
  | None => q
  end.

(** The grid as the documentation words it: the sampled rotations whose
    scalar part exceeds the cosine of half the width, recentred. *)
Definition local_grid_documented (resolution : R) (center : option quat)
    (grid_width : R) : list quat :=
  let q := create_equispaced_grid resolution in
  let q := filter (λ x, cos (deg2rad (grid_width / 2)) < quat_a x) q in
  match center with
  | Some center => Rotation_mul center <$> q
  | None => q
  end.
End LocalGrid.

(** ** Index generators ([miller.py], lines 330-381, 684-737) *)

(** The message of [_get_indices_from_highest], without the indices it
    quotes. *)
Definition msg_highest : string :=
  "All indices must be positive with at least one non-zero".
Definition msg_highest_missing : string :=
  "Either highest `hkl` or `uvw` indices must be passed".

(** [np.arange(start, stop)] on integers. *)
Definition arange (start stop : Z) : list Z := seqZ start (stop - start).

(** [itertools.product] of the ranges: the last range varies fastest. *)
Fixpoint product (ranges : list (list Z)) : list (list Z) :=
  match ranges with
  | [] => [[]]
  | r :: rest => x ← r; (λ t, x :: t) <$> product rest
  end.

(** [np.all(row == 0)] *)
Definition all_zero (row : list Z) : bool := forallb (λ x, x =? 0)%Z row.

Definition _get_indices_from_highest (highest_indices : list Z)
    : result (list (list Z)) :=
  if negb (forallb (λ i, 0 <=? i)%Z highest_indices) || all_zero highest_indices
  then Raise (ValueError msg_highest)
  else
    let index_ranges := (λ i, arange (- i) (i + 1)) <$> highest_indices in
    let indices := product index_ranges in
    let indices := filter (λ row, all_zero row = false) indices in
    Ok (reverse indices).

Section MillerMore.
Context {A : Type} `{Num A} `{External A}.
Abbreviation V3 := (vec3 A).
Abbreviation V4 := (vec4 A).

(** A row of an integer array read as a vector; an array whose rows are
    not triples does not fit the 3x3 structure matrices. *)
Definition as_vec3 (row : list Z) : result V3 :=
  match row with
  | [x; y; z] => Ok (of_Z x, of_Z y, of_Z z)
  | _ => Raise ShapeError
  end.

(** The constructor called with the keyword [coordinate_format] bound to
    the integer array [idx], and the phase: it looks at the phase before it
    converts the indices. *)
Definition init_from_indices (fmt : string) (idx : list (list Z))
    (phase : option Phase) : M A Miller :=
  match mapR as_vec3 idx with
  | Ok rows =>
      if bool_decide (fmt = "uvw")
      then Miller_init None (Some rows) None None None phase None
      else Miller_init None None None (Some rows) None phase None
  | Raise e =>
      if bool_decide (phase = None :> option Phase)
      then raise (ValueError msg_no_phase)
      else raise e
  end.

(** [Miller.from_highest_indices] *)
Definition from_highest_indices (phase : option Phase)
    (uvw hkl : option (list Z)) : M A Miller :=
  r <- match uvw, hkl with
       | Some uvw, _ => ret ("uvw", uvw)
       | None, Some hkl => ret ("hkl", hkl)
       | None, None => raise (ValueError msg_highest_missing)
       end;;
  let '(coordinate_format, highest_idx) := r in
  idx <- lift (_get_indices_from_highest highest_idx);;
  m <- init_from_indices coordinate_format idx phase;;
  u <- Miller_unique m false false;;
  ret (unique_miller u).

(** The getters [hkl], [hkil], [uvw] and [UVTW]. *)
Definition Miller_hkl (self : Miller) : M A (list V3) :=
  a <- read (data self);;
  lattice <- get_lattice (phase self);;
  ret (_xyz2hkl a lattice).

Definition Miller_hkil (self : Miller) : M A (list V4) :=
  hkl <- Miller_hkl self;;
  ret (_hkl2hkil hkl).

Definition Miller_uvw (self : Miller) : M A (list V3) :=
  a <- read (data self);;
  lattice <- get_lattice (phase self);;
  ret (_xyz2uvw a lattice).

Definition Miller_UVTW (self : Miller) : M A (list V4) :=
  uvw <- Miller_uvw self;;
  ret (_uvw2UVTW uvw None).

(** [Miller.multiplicity]: the second entry of the pair [symmetrise]
    returns. *)
Definition Miller_multiplicity (self : Miller) : M A (list Z) :=
  r <- Miller_symmetrise self true true false;;
  match r with
  | SymMultiplicity _ multiplicity => ret multiplicity
  | _ => raise IndexError
  end.
End MillerMore.

(** The number of integer points of the box [-h_i .. h_i]. *)
Definition box_size (highest_indices : list Z) : Z :=
  foldr (λ i n, (2 * i + 1) * n)%Z 1%Z highest_indices.

(** Equality of rational quartets, entry by entry. *)
Definition vec4_Qeq (x y : vec4 Q) : Prop :=
  let '(x1, x2, x3, x4) := x in
  let '(y1, y2, y3, y4) := y in
  (x1 == y1 ∧ x2 == y2 ∧ x3 == y3 ∧ x4 == y4)%Q.

Section SymmetriseMore.
Context {A : Type} `{Num A} `{External A}.

(** For each input vector in turn, its position repeated once per unique
    equivalent vector. *)
Definition origin_index (operations : list Op) (a : list (vec3 A)) : list Z :=
  concat (imap (λ j v, replicate (length (unique_orbit operations v)) (Z.of_nat j)) a).
End SymmetriseMore.

(** ** Matrices of rationals *)

(** Equality of rational 3x3 matrices, entry by entry, the
    product of two matrices and the identity matrix: the terms in which
    the defining property of [np.linalg.inv] is stated. *)
Definition mat33_Qeq (m n : mat33 Q) : Prop :=
  let '((m11, m12, m13), (m21, m22, m23), (m31, m32, m33)) := m in
  let '((n11, n12, n13), (n21, n22, n23), (n31, n32, n33)) := n in
  (m11 == n11 ∧ m12 == n12 ∧ m13 == n13
   ∧ m21 == n21 ∧ m22 == n22 ∧ m23 == n23
   ∧ m31 == n31 ∧ m32 == n32 ∧ m33 == n33)%Q.

Definition mat_mul {A : Type} `{Num A} (m n : mat33 A) : mat33 A :=
  let '(c1, c2, c3) := transpose n in
  let '(r1, r2, r3) := m in
  ((dot3 r1 c1, dot3 r1 c2, dot3 r1 c3),
   (dot3 r2 c1, dot3 r2 c2, dot3 r2 c3),
   (dot3 r3 c1, dot3 r3 c2, dot3 r3 c3)).

Definition identity33 : mat33 Q := ((1, 0, 0), (0, 1, 0), (0, 0, 1))%Q.

(** ** A rational instance *)

(** The library routines on exact rationals, for the code whose arithmetic
    is exact there. *)
Module Rational.
Abbreviation V3 := (vec3 Q).

Definition vec_eqb (x y : V3) : bool :=
  let '(x1, x2, x3) := x in
  let '(y1, y2, y3) := y in
  Qeq_bool x1 y1 && Qeq_bool x2 y2 && Qeq_bool x3 y3.

(** Modelled from the spec: [Vector3d.unique] of the base class: unique
    entries in the order of their first occurrence, zero vectors dropped,
    and the positions of the first occurrences. *)
Fixpoint unique_from (pos : Z) (seen : list V3) (l : list V3)
    : list (V3 * Z) :=
  match l with
  | [] => []
  | v :: r =>
      if vec_eqb v (0, 0, 0)%Q || existsb (vec_eqb v) seen
      then unique_from (pos + 1) seen r
      else (v, pos) :: unique_from (pos + 1) (v :: seen) r
  end.

Definition unique (l : list V3) : list V3 * list Z :=
  let u := unique_from 0 [] l in (fst <$> u, snd <$> u).

Definition cross1 (x y : V3) : V3 :=
  let '(x1, x2, x3) := x in
  let '(y1, y2, y3) := y in
  (x2 * y3 - x3 * y2, x3 * y1 - x1 * y3, x1 * y2 - x2 * y1)%Q.

(** Modelled from the spec: [Vector3d.cross] of the base class, with
    NumPy's broadcasting of two one-dimensional batches. *)
Definition cross (a b : list V3) : result (list V3) :=
  match a, b with
  | [x], _ => Ok (cross1 x <$> b)
  | _, [y] => Ok ((λ x, cross1 x y) <$> a)
  | _, _ =>
      if bool_decide (length a = length b) then Ok (zip_with cross1 a b)
      else Raise ShapeError
  end.

(** Modelled from the spec: [np.linalg.inv], as the adjugate over the
    determinant. *)
Definition det (m : mat33 Q) : Q :=
  let '((a, b, c), (d, e, f), (g, h, i)) := m in
  (a * (e * i - f * h) - b * (d * i - f * g) + c * (d * h - e * g))%Q.

Definition inv (m : mat33 Q) : mat33 Q :=
  let '((a, b, c), (d, e, f), (g, h, i)) := m in
  let t := det m in
  (((e * i - f * h) / t, (c * h - b * i) / t, (b * f - c * e) / t),
   ((f * g - d * i) / t, (a * i - c * g) / t, (c * d - a * f) / t),
   ((d * h - e * g) / t, (b * g - a * h) / t, (a * e - b * d) / t))%Q.

Definition Qltb (x y : Q) : bool := negb (Qle_bool y x).

(** Modelled from the spec: [np.lexsort(a.T)], the last coordinate being
    the primary key. *)
Definition key_ltb (x y : V3) : bool :=
  let '(x1, x2, x3) := x in
  let '(y1, y2, y3) := y in
  Qltb x3 y3 || Qeq_bool x3 y3 && (Qltb x2 y2 || Qeq_bool x2 y2 && Qltb x1 y1).

Definition lexsort (a : list V3) : list Z :=
  snd <$> Sample.sort_by (λ x y, key_ltb x.1 y.1)
            (zip a (Z.of_nat <$> seq 0 (length a))).

(** Modelled from the spec: the indices of
    [np.unique(rows, return_index=True, axis=0)]. *)
Definition flat (row : list V3) : list Q :=
  v ← row; let '(x, y, z) := v in [x; y; z].

Fixpoint list_ltb (x y : list Q) : bool :=
  match x, y with
  | a :: x', b :: y' => Qltb a b || Qeq_bool a b && list_ltb x' y'
  | [], _ :: _ => true
  | _, _ => false
  end.

Fixpoint list_eqb (x y : list Q) : bool :=
  match x, y with
  | a :: x', b :: y' => Qeq_bool a b && list_eqb x' y'
  | [], [] => true
  | _, _ => false
  end.

Fixpoint first_rows (pos : Z) (seen : list (list Q)) (l : list (list Q))
    : list (list Q * Z) :=
  match l with
  | [] => []
  | r :: rest =>
      if existsb (list_eqb r) seen then first_rows (pos + 1) seen rest
      else (r, pos) :: first_rows (pos + 1) (r :: seen) rest
  end.

Definition unique_index (rows : list (list V3)) : list Z :=
  snd <$> Sample.sort_by (λ x y, list_ltb x.1 y.1)
            (first_rows 0 [] (flat <$> rows)).

(** [Vector3d.unit] divides by a norm, a square root, which the rationals
    lack: this instance leaves the vectors as they are, and serves the
    code that does not normalise. *)
#[export] Instance ExternalQ : External Q := {|
  Op := mat33 Q;
  act := mat_vec;
  Vector3d_unique := unique;
  Vector3d_unit := λ l, l;
  Vector3d_cross := cross;
  linalg_inv := inv;
  np_lexsort := lexsort;
  np_unique_index := unique_index
|}.

(** A monoclinic lattice with rational parameters: a = 1, b = 2, c = 3,
    cos(gamma) = 3/5, sin(gamma) = 4/5 and volume 24/5; and a phase of
    point group 2 on it. *)
Definition monoclinic : Lattice Q :=
  {| lattice_a := 1%Q; lattice_b := 2%Q; lattice_c := 3%Q;
     lattice_ca := 0%Q; lattice_cb := 0%Q; lattice_cg := (3 # 5)%Q;
     lattice_sg := (4 # 5)%Q; lattice_volume := (24 # 5)%Q |}.

Definition Rz180 : mat33 Q := ((-1, 0, 0), (0, -1, 0), (0, 0, 1))%Q.

Definition phase2 : Phase :=
  {| point_group := [identity33; Rz180]; structure_lattice := monoclinic |}.
(** The reciprocal length of a vector along one reciprocal axis of a
    lattice with alpha = beta = 90 degrees: |h| / (a sin(gamma)),
    |k| / (b sin(gamma)), |l| / c.  On such vectors it is what
    [lattice.rnorm] computes. *)
Definition axial_rnorm (lattice : Lattice Q) (v : V3) : Q :=
  let '(h, k, l) := v in
  (Qabs h / (lattice_a lattice * lattice_sg lattice)
   + Qabs k / (lattice_b lattice * lattice_sg lattice)
   + Qabs l / lattice_c lattice)%Q.

(** The numbers of planes along the three axes of [monoclinic] whose
    spacing exceeds 1/2. *)
Definition axis_counts (i : nat) : nat :=
  match i with 0 => 1 | 1 => 3 | _ => 5 end.
End Rational.

(** ** Highest indices from a smallest spacing ([miller.py], lines 362-381,
    712-737) *)

Section HighestIndices.
Context {A : Type} `{Num A} `{External A}.

(** [lattice.rnorm] of [diffpy.structure]: the length of a reciprocal
    lattice vector. *)
Variable rnorm : Lattice A → vec3 A → A.

(** [hkl] with [x] at position [i] and zero elsewhere. *)
Definition axis_vector (i : nat) (x : A) : vec3 A :=
  match i with
  | 0 => (x, of_Z 0, of_Z 0)
  | 1 => (of_Z 0, x, of_Z 0)
  | _ => (of_Z 0, of_Z 0, x)
  end.

(** [1 / lattice.rnorm(hkl)] *)
Definition spacing (lattice : Lattice A) (i : nat) (x : A) : A :=
  div (of_Z 1) (rnorm lattice (axis_vector i x)).

(** The [while] loop on axis [i], entered with [hkl[i] = x], and the
    assignment to [highest_hkl[i]] after it.  The loop need not end:
    [fuel] bounds the number of its iterations, and the result is [None]
    when they do not suffice. *)
Fixpoint highest_on_axis (fuel : nat) (lattice : Lattice A) (min_dspacing : A)
    (i : nat) (x : A) : option Z :=
  if ltb min_dspacing (spacing lattice i x) then
    match fuel with
    | 0 => None
    | S fuel =>
        highest_on_axis fuel lattice min_dspacing i (add x (of_Z 1))
    end
  else Some (to_int (sub x (of_Z 1))).

(** [_get_highest_hkl] *)
Definition _get_highest_hkl (fuel : nat) (lattice : Lattice A) (min_dspacing : A)
    : option (list Z) :=
  h ← highest_on_axis fuel lattice min_dspacing 0 (of_Z 1);
  k ← highest_on_axis fuel lattice min_dspacing 1 (of_Z 1);
  l ← highest_on_axis fuel lattice min_dspacing 2 (of_Z 1);
  Some [h; k; l].

(** [Miller.from_min_dspacing]; [None] when a loop of [_get_highest_hkl]
    does not end within [fuel] iterations. *)
Definition from_min_dspacing (fuel : nat) (phase : option Phase)
    (min_dspacing : A) : gmap nat (list (vec3 A)) → option (result (Miller * gmap nat (list (vec3 A)))) :=
  λ h,
    match phase with
    | None => Some (Raise (AttributeError "structure"))
    | Some p =>
        highest_hkl ← _get_highest_hkl fuel (structure_lattice p) min_dspacing;
        Some ((hkl <- lift (_get_indices_from_highest highest_hkl);;
               m <- init_from_indices "hkl" hkl phase;;
               u <- Miller_unique m false false;;
               ret (unique_miller u)) h)
    end.
End HighestIndices.

(** ** The samplers with the step count of binary64 ([SO3_sampling.py],
    lines 26-56, 88-129, 132-170) *)

(** [int(np.ceil(360 / resolution))] as binary64 computes it: the quotient
    is rounded to the nearest float before its ceiling is taken.  [None]
    where it raises: [int] refuses an infinite quotient (OverflowError) and
    one that is not a number (ValueError), and the division refuses a
    zero resolution. *)
Definition num_steps (resolution : float) : option Z :=
  let q := (360 / resolution)%float in
  match Prim2SF q with
  | S754_finite _ _ _ | S754_zero _ => Some (Qceiling (Q_of_float q))
  | S754_infinity _ | S754_nan => None
  end.

Section SamplingSteps.
Local Open Scope R_scope.

(** [Rotation.unique] and [Rotation.from_euler] with [convention="bunge"]
    and [direction="crystal2lab"], of the quaternion module.  An angle that
    is not a number is [None]. *)
Variable Rotation_unique : list quat → list quat.
Variable Rotation_from_euler : list (R * option R * R) → list quat.

(** The arrays [u_1], [u_2] and [u_3] of [_three_uniform_samples_method]
    for a step count: [sample_axes] with the count given. *)
Definition sample_axes_steps (num_steps : Z) (max_angle : option R)
    : result (list R * list R * list R) :=
  axes <-?
    match max_angle with
    | None =>
        u_1 <-? linspace 0 1 num_steps ;;
        u_2 <-? linspace 0 1 num_steps ;;
        Ok (u_1, u_2)
    | Some max_angle =>
        let e_1_min := cos (deg2rad (max_angle / 2)) in
        let u_1_max := 1 - Rsqr e_1_min in
        let u_2_min := asin e_1_min / 2 / PI in
        let '(num_1, num_2) := restricted_counts num_steps max_angle in
        u_1 <-? linspace 0 u_1_max num_1 ;;
        u_2 <-? linspace u_2_min 1 num_2 ;;
        Ok (u_1, u_2)
    end ;;
  u_3 <-? linspace 0 1 num_steps ;;
  Ok (axes.1, axes.2, u_3).

(** [_three_uniform_samples_method] from the step count on. *)
Definition _three_uniform_samples_steps (num_steps : Z) (max_angle : option R)
    : result (list quat) :=
  axes <-? sample_axes_steps num_steps max_angle ;;
  let '(u_1, u_2, u_3) := axes in
  Ok (Rotation_unique (shoemake <$> meshgrid u_1 u_2 u_3)).

(** [np.linspace(start, stop, num=num, endpoint=False)] *)
Definition linspace_open (start stop : R) (num : Z) : result (list R) :=
  if decide (num < 0)%Z then Raise (ValueError "Number of samples must be non-negative")
  else
    let step := (stop - start) / IZR num in
    Ok ((λ i : nat, start + INR i * step) <$> seq 0 (Z.to_nat num)).

(** The rows of [np.array(np.meshgrid(alpha, beta, gamma)).T.reshape((-1, 3))]:
    the third angle varies slowest and the second fastest. *)
Definition euler_grid {X} (alpha : list R) (beta : list X) (gamma : list R)
    : list (R * X * R) :=
  g ← gamma; a ← alpha; b ← beta; [(a, b, g)].

(** The number of steps made even. *)
Definition even_steps (num_steps : Z) : Z :=
  if decide (num_steps `mod` 2 = 1)%Z then (num_steps + 1)%Z else num_steps.

(** The rows of Euler angles handed to [Rotation.from_euler]. *)
Definition euler_angles (num_steps : Z) : result (list (R * option R * R)) :=
  let num_steps := even_steps num_steps in
  let half_steps := (num_steps ÷ 2)%Z in
  alpha <-? linspace_open 0 (2 * PI) num_steps ;;
  cosines <-? linspace_open 1 (-1) half_steps ;;
  let beta := np_arccos <$> cosines in
  gamma <-? linspace_open 0 (2 * PI) num_steps ;;
  Ok (euler_grid alpha beta gamma).

(** [_euler_angles_harr_measure] from the step count on. *)
Definition _euler_angles_steps (num_steps : Z) : result (list quat) :=
  q <-? euler_angles num_steps ;;
  Ok (Rotation_unique (Rotation_from_euler q)).

Definition msg_old_method : string :=
  "old_method=True does not support using the max_angle keyword".

(** [uniform_SO3_sample], for a [max_angle] that is a number.  [None]
    where the step count raises. *)
Definition uniform_SO3_sample (resolution : float) (max_angle : option R)
    (old_method : bool) : option (result (list quat)) :=
  if bool_decide (is_Some max_angle) && old_method
  then Some (Raise (ValueError msg_old_method))
  else
    n ← num_steps resolution;
    Some (if old_method then _euler_angles_steps n
          else _three_uniform_samples_steps n max_angle).
End SamplingSteps.

(** ** Column names of an .ang file ([ang.py], lines 130-217) *)

(** [footprint in line]: the footprint occurs in the line. *)
Fixpoint contains (footprint line : string) : bool :=
  String.prefix footprint line
  || match line with
     | EmptyString => false
     | String _ rest => contains footprint rest
     end.

(** The vendor footprints, in the order of the dictionary. *)
Definition vendor_footprint : list (string * string) :=
  [("emsoft", "EMsoft"); ("astar", "ACOM")].

(** The two nested loops over vendors and header lines: a later vendor
    whose footprint is found replaces an earlier one. *)
Definition detect_vendor (header : list string) : string :=
  fold_left
    (λ vendor '(name, footprint),
       if existsb (contains footprint) header then name else vendor)
    vendor_footprint "tsl".

Definition column_names : gmap string (list string) :=
  {[ "unknown" := ["euler1"; "euler2"; "euler3"; "x"; "y";
                   "unknown1"; "unknown2"; "phase_id"];
     "tsl" := ["euler1"; "euler2"; "euler3"; "x"; "y"; "iq"; "ci"; "phase_id";
               "unknown1"; "fit"; "unknown2"; "unknown3"; "unknown4";
               "unknown5"];
     "emsoft" := ["euler1"; "euler2"; "euler3"; "x"; "y"; "iq"; "dp";
                  "phase_id"];
     "astar" := ["euler1"; "euler2"; "euler3"; "x"; "y"; "ind"; "rel";
                 "phase_id"; "relx100"] ]}.

(** [_get_vendor_columns]: the vendor, the column names, and whether the
    warning was issued. *)
Definition _get_vendor_columns (header : list string) (n_cols_file : nat)
    : string * list string * bool :=
  let vendor := detect_vendor header in
  let n_cols_expected := length (column_names !!! vendor) in
  if bool_decide (n_cols_file ≠ n_cols_expected) then
    let n_cols_unknown := length (column_names !!! "unknown") in
    let unknown :=
      if bool_decide (n_cols_unknown < n_cols_file)
      then column_names !!! "unknown"
           ++ ((λ i : nat, "unknown" +:+ pretty (i + 3))
                 <$> seq 0 (n_cols_file - n_cols_unknown))
      else column_names !!! "unknown" in
    ("unknown", unknown, true)
  else (vendor, column_names !!! vendor, false).

(** ** An instance whose [unique] only removes repetitions *)

Module Dedup.
Abbreviation V3 := (vec3 float).

(** Modelled from the spec: [Vector3d.unique] of the base class, whose
    source is not part of the files modelled here, as the description of
    the reduction of an orbit words it: the distinct entries, in the order
    of their first occurrence, and the positions of the first occurrences.
    No entry is dropped. *)
Fixpoint unique_from (pos : Z) (seen : list V3) (l : list V3)
    : list (V3 * Z) :=
  match l with
  | [] => []
  | v :: r =>
      if existsb (Sample.vec_eqb v) seen
      then unique_from (pos + 1) seen r
      else (v, pos) :: unique_from (pos + 1) (v :: seen) r
  end.

Definition unique (l : list V3) : list V3 * list Z :=
  let u := unique_from 0 [] l in (fst <$> u, snd <$> u).

#[export] Instance ExternalDedup : External float := {|
  Op := mat33 float;
  act := mat_vec;
  Vector3d_unique := unique;
  Vector3d_unit := Sample.unit;
  Vector3d_cross := Sample.cross;
  linalg_inv := Sample.inv;
  np_lexsort := Sample.lexsort;
  np_unique_index := Sample.unique_index
|}.

(** The point group of the identity alone on the cubic lattice, and a
    batch of the zero vector and a unit vector. *)
Definition PG1 : Phase :=
  {| point_group := [Sample.I3]; structure_lattice := Sample.cubic |}.
Definition batch : Miller :=
  {| data := 0; phase := Some PG1; coordinate_format := "hkl" |}.
End Dedup.

(** * Properties *)

(** ** Index conversions *)

Section ConversionFacts.
Context {A : Type} `{Num A}.

Lemma hkil2hkl_hkl2hkil_row (hkl : vec3 A) :
  hkil2hkl_row (hkl2hkil_row hkl) = hkl.
Proof. by destruct hkl as [[h k] l]. Qed.

Lemma hkil2hkl_hkl2hkil (hkl : list (vec3 A)) :
  _hkil2hkl (_hkl2hkil hkl) = hkl.
Proof.
  unfold _hkil2hkl, _hkl2hkil.
  induction hkl as [|x r IH]; [done|].
  by rewrite !fmap_cons, hkil2hkl_hkl2hkil_row, IH.
Qed.
End ConversionFacts.

(** Equality of rational rows, entry by entry. *)
Definition vec3_Qeq (x y : vec3 Q) : Prop :=
  let '(x1, x2, x3) := x in
  let '(y1, y2, y3) := y in
  x1 == y1 ∧ x2 == y2 ∧ x3 == y3.

Lemma UVTW2uvw_uvw2UVTW_row_Q (convention : option string) (uvw : vec3 Q) :
  vec3_Qeq (UVTW2uvw_row convention (uvw2UVTW_row convention uvw)) uvw.
Proof.
  destruct uvw as [[u v] w]. unfold UVTW2uvw_row, uvw2UVTW_row.
  destruct (is_mtex convention); simpl; repeat split; field.
Qed.

(** C3, as the code has it in binary64: the direct-lattice round trip of
    the triple [1, 4, 0] returns [1.0000000000000002, 4, 0]. *)
Lemma uvw_roundtrip_binary64_inexact :
  ¬ (_UVTW2uvw (_uvw2UVTW [(1, 4, 0)%float] None) None = [(1, 4, 0)%float]).
Proof.
  intros E.
  apply (f_equal (λ l, match l with
                       | [(x, _, _)] => PrimFloat.eqb x 1
                       | _ => true
                       end)) in E.
  vm_compute in E. discriminate E.
Qed.

(** C3 (amended): the reciprocal round trip [_hkil2hkl (_hkl2hkil hkl)] is
    [hkl] itself, for every scalar type; the direct round trip
    [_UVTW2uvw (_uvw2UVTW uvw)] equals [uvw] in exact rational arithmetic,
    under either convention. *)
Theorem index_roundtrips :
  (∀ (A : Type) (HA : Num A) (hkl : list (vec3 A)),
      _hkil2hkl (_hkl2hkil hkl) = hkl)
  ∧ (∀ (convention : option string) (uvw : list (vec3 Q)),
      Forall2 vec3_Qeq (_UVTW2uvw (_uvw2UVTW uvw convention) convention) uvw).
Proof.
  split.
  - intros A HA hkl. apply hkil2hkl_hkl2hkil.
  - intros convention uvw. unfold _UVTW2uvw, _uvw2UVTW.
    induction uvw as [|x r IH]; [constructor|].
    rewrite !fmap_cons. constructor; [|exact IH].
    apply UVTW2uvw_uvw2UVTW_row_Q.
Qed.

(** ** Rounding of indices *)

(** The literal [0.33] in binary64. *)
Example dec_033 : @dec float _ 33 (-2) = 0x1.51eb851eb851fp-2%float.
Proof. reflexivity. Qed.

(** C8: rounding the single triple [0.33, 0.33, 0.0] with [max_index = 3]
    gives [1, 1, 0], in binary64 and in exact arithmetic. *)
Theorem round_indices_033 :
  @_round_indices float _ [[dec 33 (-2); dec 33 (-2); of_Z 0]] 3 = [[1; 1; 0]%Z]
  ∧ @_round_indices Q _ [[dec 33 (-2); dec 33 (-2); of_Z 0]] 3 = [[1; 1; 0]%Z].
Proof. split; vm_compute; reflexivity. Qed.

(** ** The Miller class *)

Section MillerFacts.
Context {A : Type} `{Num A} `{External A}.
Implicit Types (self other : Miller) (h : gmap nat (list (vec3 A))).

Lemma new_fmt_lookup (fmt : string) :
  new_fmt !! fmt =
    if bool_decide (fmt = "hkl") then Some "uvw"
    else if bool_decide (fmt = "uvw") then Some "hkl"
    else if bool_decide (fmt = "hkil") then Some "UVTW"
    else if bool_decide (fmt = "UVTW") then Some "hkil"
    else None.
Proof.
  unfold new_fmt.
  repeat case_bool_decide; subst; simplify_map_eq; try done.
Qed.

Lemma rewrap_valid self (xyz : nat) (fmt : string) h :
  fmt ∈ formats →
  rewrap self xyz fmt h =
    Ok ({| data := xyz; phase := phase self; coordinate_format := fmt |}, h).
Proof.
  intros Hfmt. unfold rewrap, Miller_init, bind, ret. simpl.
  by rewrite bool_decide_eq_true_2.
Qed.

Lemma rewrap_invalid self (xyz : nat) (fmt : string) h :
  fmt ∉ formats →
  rewrap self xyz fmt h = Raise (ValueError msg_formats).
Proof.
  intros Hfmt. unfold rewrap, Miller_init, bind, ret. simpl.
  by rewrite bool_decide_eq_false_2.
Qed.

(** The constructor establishes that the format is one of [formats]. *)
Lemma Miller_init_format
    (xyz : option nat) (uvw : option (list (vec3 A))) (UVTW : option (list (vec4 A)))
    (hkl : option (list (vec3 A))) (hkil : option (list (vec4 A)))
    (ph : option Phase) (cf : option string) h (m : Miller) h' :
  Miller_init xyz uvw UVTW hkl hkil ph cf h = Ok (m, h') →
  coordinate_format m ∈ formats.
Proof.
  unfold Miller_init. destruct (_ && _); [done|].
  unfold bind.
  match goal with
  | |- match ?e with Ok _ => _ | Raise _ => _ end = _ → _ =>
      destruct e as [[[l c] h1]|]; [|done]
  end.
  case_bool_decide as Hfmt; [|done].
  unfold ret. by intros [= <- _].
Qed.

Lemma Miller_init_hkil (p : Phase) (cf : option string) h (hkil : list (vec4 A)) :
  Miller_init None None None None (Some hkil) (Some p) cf h =
    if allclose0 (sum_first3 <$> hkil) then
      if bool_decide (default "hkil" cf ∈ formats) then
        Ok ({| data := fresh (dom h); phase := Some p;
               coordinate_format := default "hkil" cf |},
            <[fresh (dom h) := _hkl2xyz (_hkil2hkl hkil) (structure_lattice p)]> h)
      else Raise (ValueError msg_formats)
    else Raise (ValueError msg_hkil).
Proof.
  unfold Miller_init, bind, lift, _check_hkil, get_lattice, alloc, ret, raise.
  simpl. destruct (allclose0 _); simpl; [by case_bool_decide|done].
Qed.

Lemma Miller_init_UVTW (p : Phase) (cf : option string) h (UVTW : list (vec4 A)) :
  Miller_init None None (Some UVTW) None None (Some p) cf h =
    if allclose0 (sum_first3 <$> UVTW) then
      if bool_decide (default "UVTW" cf ∈ formats) then
        Ok ({| data := fresh (dom h); phase := Some p;
               coordinate_format := default "UVTW" cf |},
            <[fresh (dom h) := _uvw2xyz (_UVTW2uvw UVTW None) (structure_lattice p)]> h)
      else Raise (ValueError msg_formats)
    else Raise (ValueError msg_UVTW).
Proof.
  unfold Miller_init, bind, lift, _check_UVTW, get_lattice, alloc, ret, raise.
  simpl. destruct (allclose0 _); simpl; [by case_bool_decide|done].
Qed.

(** [np.allclose] fails exactly when some entry is out of tolerance. *)
Lemma allclose0_false (rows : list (vec4 A)) :
  allclose0 (sum_first3 <$> rows) = false
  ↔ Exists (λ row, close_to_zero (sum_first3 row) = false) rows.
Proof.
  unfold allclose0. induction rows as [|x r IH]; simpl.
  - split; [done|]. by intros ?%Exists_nil.
  - rewrite Exists_cons, <- IH.
    destruct (close_to_zero (sum_first3 x)); simpl; intuition congruence.
Qed.

Lemma allclose0_true (rows : list (vec4 A)) :
  allclose0 (sum_first3 <$> rows) = true
  ↔ Forall (λ row, close_to_zero (sum_first3 row) = true) rows.
Proof.
  unfold allclose0. induction rows as [|x r IH]; simpl.
  - split; [constructor|done].
  - rewrite Forall_cons, <- IH, andb_true_iff. done.
Qed.
End MillerFacts.

(** ** Symmetrically equivalent vectors *)

Section SymmetriseFacts.
Context {A : Type} `{Num A} `{External A}.
Implicit Types (self other : Miller) (h : gmap nat (list (vec3 A))).
Implicit Types (ops : list Op) (a : list (vec3 A)).

Lemma column_outer ops a (i : nat) (x : vec3 A) :
  a !! i = Some x →
  column (outer ops a) i = Ok ((λ g, act g x) <$> ops).
Proof.
  intros Hx. unfold column, outer.
  induction ops as [|g r IH]; [done|].
  rewrite !fmap_cons. simpl.
  rewrite list_lookup_fmap, Hx. simpl. by rewrite IH.
Qed.

(** The loop of [symmetrise] fills [v3] and [multiplicity] row by row. *)
Lemma symmetrise_loop ops a :
  (∀ v, v ∈ a → length (unique_orbit ops v) ≤ length ops) →
  ∀ (k i : nat) (st : sym_state),
    i + k = length a →
    st_v3 st = (padded_orbit ops <$> take i a)
               ++ replicate (length a - i) (replicate (length ops) zero3) →
    st_multiplicity st = ((λ v, Z.of_nat (length (unique_orbit ops v))) <$> take i a)
                         ++ replicate (length a - i) 0%Z →
    ∃ st', for_each (symmetrise_step (outer ops a)) (seq i k) st = Ok st'
           ∧ st_v3 st' = padded_orbit ops <$> a
           ∧ st_multiplicity st' =
               (λ v, Z.of_nat (length (unique_orbit ops v))) <$> a.
Proof.
  intros Hle k. induction k as [|k IH]; intros i st Hik Hv3 Hmult.
  - exists st. split; [done|].
    assert (length a - i = 0) as E by lia.
    rewrite E, take_ge, app_nil_r in Hv3, Hmult by lia. done.
  - destruct (lookup_lt_is_Some_2 a i) as [x Hx]; [lia|].
    assert (length a - i = S (length a - S i)) as E by lia.
    rewrite E in Hv3, Hmult. simpl in Hv3, Hmult.
    assert (length (take i a) = i) as Hlen by (rewrite length_take; lia).
    simpl. unfold symmetrise_step at 1.
    rewrite (column_outer _ _ _ _ Hx). simpl.
    fold (unique_orbit ops x).
    rewrite Hv3, lookup_app_r by (rewrite length_fmap; lia).
    rewrite length_fmap, Hlen, Nat.sub_diag. simpl.
    unfold assign_prefix. rewrite length_replicate.
    rewrite bool_decide_eq_true_2
      by (apply Hle; eapply list_elem_of_lookup_2; exact Hx).
    simpl. rewrite Hmult, lookup_app_r by (rewrite length_fmap; lia).
    rewrite length_fmap, Hlen, Nat.sub_diag. simpl.
    apply IH; simpl; [lia| |].
    + rewrite insert_app_r_alt by (rewrite length_fmap; lia).
      rewrite length_fmap, Hlen, Nat.sub_diag. simpl.
      rewrite (take_S_r _ _ _ Hx), fmap_app, <- app_assoc. simpl.
      by rewrite drop_replicate.
    + rewrite insert_app_r_alt by (rewrite length_fmap; lia).
      rewrite length_fmap, Hlen, Nat.sub_diag. simpl.
      by rewrite (take_S_r _ _ _ Hx), fmap_app, <- app_assoc.
Qed.

Lemma symmetrise_unique_ok ops a :
  (∀ v, v ∈ a → length (unique_orbit ops v) ≤ length ops) →
  ∃ idx,
    symmetrise_unique ops a =
      Ok (concat (filter (λ v, non_zero v = true) <$> (padded_orbit ops <$> a)),
          (λ v, Z.of_nat (length (unique_orbit ops v))) <$> a,
          idx).
Proof.
  intros Hle. unfold symmetrise_unique.
  edestruct (symmetrise_loop ops a Hle (length a) 0) as (st & -> & Hv3 & Hm);
    [done| | |].
  - simpl. by rewrite Nat.sub_0_r.
  - simpl. by rewrite Nat.sub_0_r.
  - simpl. rewrite Hv3, Hm. eauto.
Qed.

Lemma filter_non_zero_padded ops (v : vec3 A) :
  non_zero (zero3 : vec3 A) = false →
  filter (λ w, non_zero w = true) (padded_orbit ops v)
  = filter (λ w, non_zero w = true) (unique_orbit ops v).
Proof.
  intros Hz. unfold padded_orbit. rewrite filter_app.
  generalize (length ops - length (unique_orbit ops v)). intros n.
  assert (filter (λ w : vec3 A, non_zero w = true) (replicate n zero3) = []) as ->.
  { induction n as [|n IH]; [done|]. simpl.
    rewrite filter_cons_False by (rewrite Hz; done). exact IH. }
  by rewrite app_nil_r.
Qed.

(** Whatever the base-class [unique] keeps, the returned batch holds the
    non-zero vectors of the unique orbits, input by input. *)
Lemma symmetrise_unique_kept ops a :
  non_zero (zero3 : vec3 A) = false →
  (∀ v, v ∈ a → length (unique_orbit ops v) ≤ length ops) →
  ∃ idx,
    symmetrise_unique ops a =
      Ok (concat ((λ v, filter (λ w, non_zero w = true) (unique_orbit ops v)) <$> a),
          (λ v, Z.of_nat (length (unique_orbit ops v))) <$> a,
          idx).
Proof.
  intros Hz Hle. destruct (symmetrise_unique_ok ops a Hle) as [idx ->].
  exists idx. do 3 f_equal. rewrite <- list_fmap_compose. f_equal.
  apply list_fmap_ext. intros i v _. simpl. by apply filter_non_zero_padded.
Qed.

Lemma filter_all {X} (P : X → Prop) `{∀ x, Decision (P x)} (l : list X) :
  Forall P l → filter P l = l.
Proof.
  induction 1 as [|x r Hx _ IH]; [done|].
  by rewrite filter_cons_True, IH.
Qed.


(** A store keeps what it held when an array is allocated. *)
Lemma lookup_alloc h (l : nat) (x : list (vec3 A)) :
  is_Some (h !! l) → <[fresh (dom h) := x]> h !! l = h !! l.
Proof.
  intros Hl. apply lookup_insert_ne. intros <-.
  apply elem_of_dom in Hl. by apply is_fresh in Hl.
Qed.

Lemma lookup_total_alloc h (x : list (vec3 A)) :
  <[fresh (dom h) := x]> h !!! fresh (dom h) = x.
Proof. by rewrite lookup_total_insert_eq. Qed.

Lemma Miller_symmetrise_plain self (p : Phase) h :
  phase self = Some p →
  coordinate_format self ∈ formats →
  Miller_symmetrise self false false false h =
    Ok (Sym {| data := fresh (dom h); phase := phase self;
               coordinate_format := coordinate_format self |},
        <[fresh (dom h) := concat (outer (point_group p) (h !!! data self))]> h).
Proof.
  intros Hp Hfmt. unfold Miller_symmetrise, bind, read, get_point_group, alloc, ret.
  rewrite Hp. simpl. rewrite rewrap_valid by done. by rewrite Hp.
Qed.

Lemma Miller_symmetrise_unique self (p : Phase) h (return_multiplicity return_index : bool) :
  phase self = Some p →
  coordinate_format self ∈ formats →
  (∀ v, v ∈ h !!! data self →
        length (unique_orbit (point_group p) v) ≤ length (point_group p)) →
  let a := h !!! data self in
  let kept := concat (filter (λ v, non_zero v = true)
                        <$> (padded_orbit (point_group p) <$> a)) in
  let multiplicity :=
    (λ v, Z.of_nat (length (unique_orbit (point_group p) v))) <$> a in
  let m := {| data := fresh (dom h); phase := phase self;
              coordinate_format := coordinate_format self |} in
  ∃ idx,
    Miller_symmetrise self true return_multiplicity return_index h =
      Ok (if return_multiplicity && return_index
          then SymMultiplicityIndex m multiplicity idx
          else if return_multiplicity && negb return_index
          then SymMultiplicity m multiplicity
          else if negb return_multiplicity && return_index
          then SymIndex m idx
          else Sym m,
          <[fresh (dom h) := kept]> h).
Proof.
  intros Hp Hfmt Hle a kept multiplicity m.
  destruct (symmetrise_unique_ok (point_group p) a Hle) as [idx Hsym].
  exists idx.
  unfold Miller_symmetrise, bind, read, get_point_group, alloc, ret, lift.
  rewrite Hp, !andb_false_r. simpl. fold a. rewrite Hsym. simpl.
  rewrite rewrap_valid by done. subst m. by rewrite Hp.
Qed.

(** C6: with [unique=False], asking for the multiplicity or for the index
    raises the corresponding [ValueError], whatever the batch, its phase
    (even a missing one) and the store, so before any symmetry operation is
    read or applied; with [unique=True] the same requests return. *)
Theorem symmetrise_flag_policy self h :
  (∀ return_multiplicity return_index : bool,
      return_multiplicity = true ∨ return_index = true →
      Miller_symmetrise self false return_multiplicity return_index h =
        Raise (ValueError (if return_multiplicity then msg_multiplicity
                           else msg_index)))
  ∧ (∀ (p : Phase) (return_multiplicity return_index : bool),
      phase self = Some p →
      coordinate_format self ∈ formats →
      Forall (λ v, length (unique_orbit (point_group p) v)
                   ≤ length (point_group p)) (h !!! data self) →
      is_ok (Miller_symmetrise self true return_multiplicity return_index h)
      = true).
Proof.
  split.
  - intros rm ri Hflag. unfold Miller_symmetrise, raise.
    destruct rm, ri; simpl; try done. by destruct Hflag.
  - intros p rm ri Hp Hfmt Hle. rewrite Forall_forall in Hle.
    destruct (Miller_symmetrise_unique self p h rm ri Hp Hfmt Hle) as [idx ->].
    done.
Qed.

(** One pass of the loop succeeds only with a unique orbit that fits its
    row of [v3], and changes no other row. *)
Lemma symmetrise_step_inv ops a (i : nat) (x : vec3 A) (st st' : sym_state) :
  ops ≠ [] → a !! i = Some x →
  (∀ row, st_v3 st !! i = Some row → length row = length ops) →
  symmetrise_step (outer ops a) st i = Ok st' →
  length (unique_orbit ops x) ≤ length ops
  ∧ ∀ j, j ≠ i → st_v3 st' !! j = st_v3 st !! j.
Proof.
  intros Hops Hx Hrow. unfold symmetrise_step.
  rewrite (column_outer _ _ _ _ Hx). simpl. fold (unique_orbit ops x).
  destruct (st_v3 st !! i) as [row|] eqn:Er; [|done]. simpl.
  unfold assign_prefix. rewrite (Hrow row eq_refl).
  case_bool_decide as Hl.
  - simpl. destruct (st_multiplicity st !! i); [|done]. simpl.
    intros [= <-]. simpl. split; [done|].
    intros j Hj. by rewrite list_lookup_insert_ne.
  - case_bool_decide as H1; [|done]. exfalso.
    destruct ops; [done|]. simpl in Hl. lia.
Qed.

Lemma symmetrise_loop_inv ops a :
  ops ≠ [] →
  ∀ (k i : nat) (st st' : sym_state),
    i + k = length a →
    (∀ j row, i ≤ j → st_v3 st !! j = Some row → length row = length ops) →
    for_each (symmetrise_step (outer ops a)) (seq i k) st = Ok st' →
    ∀ j v, i ≤ j → a !! j = Some v → length (unique_orbit ops v) ≤ length ops.
Proof.
  intros Hops k. induction k as [|k IH]; intros i st st' Hik Hrows Hfor j v Hj Hv.
  - apply lookup_lt_Some in Hv. lia.
  - destruct (lookup_lt_is_Some_2 a i) as [x Hx]; [lia|].
    simpl in Hfor.
    destruct (symmetrise_step (outer ops a) st i) as [st1|] eqn:Estep; [|done].
    simpl in Hfor.
    destruct (symmetrise_step_inv ops a i x st st1 Hops Hx) as [Hle Hother];
      [intros row; by apply Hrows|done|].
    destruct (decide (j = i)) as [->|Hne].
    + rewrite Hx in Hv. by injection Hv as <-.
    + assert (S i + k = length a) as Hik' by lia.
      apply (IH (S i) st1 st' Hik') with (j := j); [|done|lia|done].
      intros j' row Hj'. rewrite Hother by lia. apply Hrows. lia.
Qed.

(** The [if unique:] block returns only when every unique orbit fits the
    order of the group. *)
Lemma symmetrise_unique_inv ops a r :
  ops ≠ [] → symmetrise_unique ops a = Ok r →
  ∀ v, v ∈ a → length (unique_orbit ops v) ≤ length ops.
Proof.
  intros Hops. unfold symmetrise_unique. cbv zeta.
  destruct (for_each _ _ _) as [st'|] eqn:Efor; [|done]. intros _ v Hv.
  apply list_elem_of_lookup in Hv as [j Hj].
  eapply (symmetrise_loop_inv ops a Hops (length a) 0); [done| |exact Efor|lia|exact Hj].
  intros j' row _ Hrow. simpl in Hrow.
  apply lookup_replicate in Hrow as [-> _]. by rewrite length_replicate.
Qed.

Lemma Miller_symmetrise_unique_inv self (p : Phase) h
    (return_multiplicity return_index : bool) r :
  phase self = Some p → point_group p ≠ [] →
  Miller_symmetrise self true return_multiplicity return_index h = Ok r →
  ∀ v, v ∈ h !!! data self →
       length (unique_orbit (point_group p) v) ≤ length (point_group p).
Proof.
  intros Hp Hops. unfold Miller_symmetrise.
  rewrite !andb_false_r. unfold bind, get_point_group, read, lift, ret.
  rewrite Hp. simpl.
  destruct (symmetrise_unique _ _) as [r'|] eqn:Eu; [|done]. intros _.
  by eapply symmetrise_unique_inv.
Qed.



(** C9: for a batch in format hkl, uvw, hkil or UVTW whose base-class
    cross product with [other] is defined, [cross] returns a batch of the
    dual format with the same phase, holding that product; for a batch in
    format xyz it raises, a [KeyError] when the product is defined. *)
Theorem cross_dual_format self other h :
  (∀ (c : list (vec3 A)) (dual : string),
      Vector3d_cross (h !!! data self) (h !!! data other) = Ok c →
      (coordinate_format self, dual)
        ∈ [("hkl", "uvw"); ("uvw", "hkl"); ("hkil", "UVTW"); ("UVTW", "hkil")] →
      Miller_cross self other h =
        Ok ({| data := fresh (dom h); phase := phase self;
               coordinate_format := dual |},
            <[fresh (dom h) := c]> h))
  ∧ (coordinate_format self = "xyz" →
     is_ok (Miller_cross self other h) = false
     ∧ (is_ok (Vector3d_cross (h !!! data self) (h !!! data other)) = true →
        Miller_cross self other h = Raise (KeyError "xyz"))).
Proof.
  unfold Miller_cross, bind, read, lift, alloc, raise. split.
  - intros c dual -> Hd. simpl. rewrite new_fmt_lookup.
    rewrite !elem_of_cons, elem_of_nil in Hd.
    destruct Hd as [Hd|[Hd|[Hd|[Hd|[]]]]]; injection Hd as -> ->; simpl;
      by rewrite rewrap_valid by (unfold formats; set_solver).
  - intros ->.
    destruct (Vector3d_cross _ _) as [c|e]; simpl; [|done].
    rewrite new_fmt_lookup. simpl. done.
Qed.

(** C10: indexing with a valid key, [unit], [symmetrise] (with a phase
    and admissible flags) and [unique] return a batch with the phase and
    the coordinate format of the input, in a newly allocated array; the
    array of the input is as before. *)
Theorem methods_keep_phase_and_format self h :
  is_Some (h !! data self) →
  coordinate_format self ∈ formats →
  let kept (m : Miller) h' :=
    phase m = phase self
    ∧ coordinate_format m = coordinate_format self
    ∧ h' !! data self = h !! data self in
  (∀ (k : key) (b : list (vec3 A)),
      getitem (h !!! data self) k = Ok b →
      ∃ m h', Miller_getitem self k h = Ok (m, h') ∧ kept m h'
              ∧ h' !!! data m = b)
  ∧ (∃ m h', Miller_unit self h = Ok (m, h') ∧ kept m h')
  ∧ (∀ (p : Phase) (unique return_multiplicity return_index : bool),
      phase self = Some p →
      (unique = false → return_multiplicity = false ∧ return_index = false) →
      Forall (λ v, length (unique_orbit (point_group p) v)
                   ≤ length (point_group p)) (h !!! data self) →
      ∃ r h', Miller_symmetrise self unique return_multiplicity return_index h
              = Ok (r, h') ∧ kept (sym_miller r) h')
  ∧ (∀ return_index : bool,
      ∃ r h', Miller_unique self false return_index h = Ok (r, h')
              ∧ kept (unique_miller r) h')
  ∧ (∀ (p : Phase) (return_index : bool) (v : list (vec3 A)) (idx : list Z),
      phase self = Some p →
      unique_under_symmetry (point_group p) (Vector3d_unique (h !!! data self)).1
      = Ok (v, idx) →
      ∃ r h', Miller_unique self true return_index h = Ok (r, h')
              ∧ kept (unique_miller r) h').
Proof.
  intros Hwf Hfmt kept. subst kept. simpl.
  split; [|split; [|split; [|split]]].
  - intros k b Hb.
    unfold Miller_getitem, bind, read, lift, alloc. rewrite Hb. simpl.
    rewrite rewrap_valid by done. eexists _, _. split; [done|]. simpl.
    by rewrite lookup_alloc, lookup_total_alloc.
  - unfold Miller_unit, bind, read, alloc. simpl.
    rewrite rewrap_valid by done. eexists _, _. split; [done|]. simpl.
    by rewrite lookup_alloc.
  - intros p unique rm ri Hp Hflags Hle. destruct unique.
    + rewrite Forall_forall in Hle.
      destruct (Miller_symmetrise_unique self p h rm ri Hp Hfmt Hle) as [idx ->].
      eexists _, _. split; [done|].
      rewrite lookup_alloc by done. by destruct rm, ri.
    + destruct Hflags as [-> ->]; [done|].
      rewrite (Miller_symmetrise_plain self p h Hp Hfmt).
      eexists _, _. split; [done|]. simpl. by rewrite lookup_alloc.
  - intros ri. unfold Miller_unique, bind, read, alloc, ret.
    destruct (Vector3d_unique _) as [v idx]. simpl.
    rewrite rewrap_valid by done. eexists _, _. split; [done|].
    rewrite lookup_alloc by done. by destruct ri.
  - intros p ri v idx Hp Hsym.
    unfold Miller_unique, bind, read, alloc, ret, lift, get_point_group.
    rewrite Hp. destruct (Vector3d_unique _) as [v0 idx0]. simpl in *.
    rewrite Hsym. simpl.
    rewrite rewrap_valid by done. eexists _, _. split; [done|].
    rewrite lookup_alloc by done. by destruct ri.
Qed.
End SymmetriseFacts.

Lemma close_to_zero_Q (s : Q) : close_to_zero s = true ↔ (Qabs s <= 1 # 10000)%Q.
Proof.
  change (Qle_bool (Qabs (s - inject_Z 0))
            (@atol Q _ + @dec Q _ 1 (-5) * Qabs (inject_Z 0)) = true
          ↔ (Qabs s <= 1 # 10000)%Q).
  rewrite Qle_bool_iff.
  assert (E1 : (s - inject_Z 0 == s)%Q) by (unfold inject_Z; ring).
  assert (E2 : (@atol Q _ + @dec Q _ 1 (-5) * Qabs (inject_Z 0) == 1 # 10000)%Q)
    by reflexivity.
  by rewrite E1, E2.
Qed.

(** C5: built from [hkil] (or [UVTW]) indices and a phase, a Miller batch
    is refused with the closure error exactly when the sum of the first
    three indices of some row is out of tolerance; otherwise the indices are
    converted to [hkl] ([uvw]), then to Cartesian coordinates, which are
    stored.  On rationals, within tolerance means [|s| <= 1e-4]. *)
Theorem closure_checked_at_construction :
  (∀ (A : Type) (HA : Num A) (HE : External A) (p : Phase)
     (cf : option string) (h : gmap nat (list (vec3 A))) (hkil : list (vec4 A)),
      let r := Miller_init None None None None (Some hkil) (Some p) cf h in
      (r = Raise (ValueError msg_hkil)
       ↔ Exists (λ row, close_to_zero (sum_first3 row) = false) hkil)
      ∧ (Forall (λ row, close_to_zero (sum_first3 row) = true) hkil →
         default "hkil" cf ∈ formats →
         r = Ok ({| data := fresh (dom h); phase := Some p;
                    coordinate_format := default "hkil" cf |},
                 <[fresh (dom h) :=
                     _hkl2xyz (_hkil2hkl hkil) (structure_lattice p)]> h)))
  ∧ (∀ (A : Type) (HA : Num A) (HE : External A) (p : Phase)
       (cf : option string) (h : gmap nat (list (vec3 A))) (UVTW : list (vec4 A)),
      let r := Miller_init None None (Some UVTW) None None (Some p) cf h in
      (r = Raise (ValueError msg_UVTW)
       ↔ Exists (λ row, close_to_zero (sum_first3 row) = false) UVTW)
      ∧ (Forall (λ row, close_to_zero (sum_first3 row) = true) UVTW →
         default "UVTW" cf ∈ formats →
         r = Ok ({| data := fresh (dom h); phase := Some p;
                    coordinate_format := default "UVTW" cf |},
                 <[fresh (dom h) :=
                     _uvw2xyz (_UVTW2uvw UVTW None) (structure_lattice p)]> h)))
  ∧ (∀ s : Q, close_to_zero s = true ↔ (Qabs s <= 1 # 10000)%Q).
Proof.
  split; [|split]; [| |exact close_to_zero_Q].
  - intros A HA HE p cf h hkil r. subst r. rewrite Miller_init_hkil. split.
    + rewrite <- allclose0_false.
      destruct (allclose0 _); [|done].
      split; [|done]. case_bool_decide; intros E; discriminate E.
    + intros Hall Hfmt. apply allclose0_true in Hall.
      by rewrite Hall, bool_decide_eq_true_2.
  - intros A HA HE p cf h UVTW r. subst r. rewrite Miller_init_UVTW. split.
    + rewrite <- allclose0_false.
      destruct (allclose0 _); [|done].
      split; [|done]. case_bool_decide; intros E; discriminate E.
    + intros Hall Hfmt. apply allclose0_true in Hall.
      by rewrite Hall, bool_decide_eq_true_2.
Qed.

(** ** The properties at a sample batch *)

Section Witnesses.
Import Sample.

Lemma store0_lookup : store0 !!! 0%nat = vectors0.
Proof. reflexivity. Defined.

Lemma format_valid (fmt : string) :
  bool_decide (fmt ∈ formats) = true → fmt ∈ formats.
Proof. apply bool_decide_eq_true_1. Defined.

(** [symmetrise] with all three flags on the sample batch under the
    four-fold axis: four, one and four equivalent vectors. *)
Example symmetrise_sample :
  match Miller_symmetrise (batch "hkl") true true true store0 with
  | Ok (SymMultiplicityIndex m multiplicity idx, h') =>
      Some (multiplicity, idx, h' !!! data m)
  | _ => None
  end
  = Some ([4; 1; 4]%Z, [0; 0; 0; 0; 1; 2; 2; 2; 2]%Z,
          [(1, 0, 0); (0, 1, 0); (-1, 0, 0); (0, -1, 0); (0, 0, 1);
           (1, 1, 0); (-1, 1, 0); (-1, -1, 0); (1, -1, 0)]%float).
Proof. vm_compute. reflexivity. Qed.

(** A zero vector in the batch: the sample [unique] drops it, so it has
    multiplicity 0 and adds no vector. *)
Example symmetrise_zero_vector :
  match Miller_symmetrise (batch "hkl") true true true
          {[ 0%nat := [(0, 0, 0); (0, 0, 1)]%float ]} with
  | Ok (SymMultiplicityIndex m multiplicity idx, h') =>
      Some (multiplicity, idx, h' !!! data m)
  | _ => None
  end
  = Some ([0; 1]%Z, [1]%Z, [(0, 0, 1)]%float).
Proof. vm_compute. reflexivity. Qed.

(** Indexing with a negative index, a slice and a mask. *)
Example getitem_sample :
  getitem [10; 20; 30; 40]%Z (KInt (-1)) = Ok [40%Z]
  ∧ getitem [10; 20; 30; 40]%Z (KSlice (Some 1%Z) (Some (-1)%Z)) = Ok [20; 30]%Z
  ∧ getitem [10; 20; 30; 40]%Z (KMask [true; false; false; true]) = Ok [10; 40]%Z
  ∧ getitem [10; 20; 30; 40]%Z (KInt 4) = Raise IndexError.
Proof. repeat split; reflexivity. Qed.


Lemma closure_checked_at_construction_witness :
  is_ok (Miller_init None None None None (Some closed_quartet)
           (Some PG4) None store0) = true
  ∧ Miller_init None None None None (Some open_quartet)
      (Some PG4) None store0 = Raise (ValueError msg_hkil)
  ∧ Miller_init None None (Some open_quartet) None None
      (Some PG4) None store0 = Raise (ValueError msg_UVTW).
Proof.
  destruct closure_checked_at_construction as (Hhkil & HUVTW & _).
  split; [|split].
  - destruct (Hhkil float _ _ PG4 None store0 closed_quartet) as [_ Hok].
    rewrite Hok; [reflexivity| |apply format_valid; reflexivity].
    constructor; [reflexivity|constructor].
  - destruct (Hhkil float _ _ PG4 None store0 open_quartet) as [Hraise _].
    apply Hraise. constructor. reflexivity.
  - destruct (HUVTW float _ _ PG4 None store0 open_quartet) as [Hraise _].
    apply Hraise. constructor. reflexivity.
Defined.

Lemma symmetrise_flag_policy_witness :
  Miller_symmetrise (batch "hkl") false true false store0
    = Raise (ValueError msg_multiplicity)
  ∧ Miller_symmetrise (batch "hkl") false false true store0
    = Raise (ValueError msg_index)
  ∧ is_ok (Miller_symmetrise (batch "hkl") true true true store0) = true.
Proof.
  destruct (symmetrise_flag_policy (batch "hkl") store0) as [Hraise Hok].
  split; [|split].
  - apply (Hraise true false). by left.
  - apply (Hraise false true). by right.
  - apply (Hok PG4 true true); [reflexivity|apply format_valid; reflexivity|].
    change (store0 !!! data (batch "hkl")) with vectors0.
    repeat (constructor; [vm_compute; lia|]). constructor.
Defined.

Lemma cross_dual_format_witness :
  Miller_cross (batch "hkl") (batch "hkl") store0 =
    Ok ({| data := fresh (dom store0); phase := Some PG4;
           coordinate_format := "uvw" |},
        <[fresh (dom store0) := [(0, 0, 0); (0, 0, 0); (0, 0, 0)]%float]> store0)
  ∧ Miller_cross (batch "xyz") (batch "hkl") store0 = Raise (KeyError "xyz").
Proof.
  split.
  - apply (proj1 (cross_dual_format (batch "hkl") (batch "hkl") store0)).
    + reflexivity.
    + constructor.
  - apply (proj2 (cross_dual_format (batch "xyz") (batch "hkl") store0));
      reflexivity.
Defined.

Lemma methods_keep_phase_and_format_witness :
  is_Some (store0 !! data (batch "hkil"))
  ∧ coordinate_format (batch "hkil") ∈ formats
  ∧ ∃ m h', Miller_unit (batch "hkil") store0 = Ok (m, h')
            ∧ phase m = Some PG4 ∧ coordinate_format m = "hkil"
            ∧ h' !! 0%nat = Some vectors0.
Proof.
  assert (is_Some (store0 !! data (batch "hkil"))) as Hwf
    by (exists vectors0; reflexivity).
  assert (coordinate_format (batch "hkil") ∈ formats) as Hfmt
    by (apply format_valid; reflexivity).
  split; [exact Hwf|]. split; [exact Hfmt|].
  destruct (methods_keep_phase_and_format (batch "hkil") store0 Hwf Hfmt)
    as (_ & (m & h' & Hunit & Hphase & Hformat & Hdata) & _).
  exists m, h'. split; [exact Hunit|]. split; [exact Hphase|].
  split; [exact Hformat|exact Hdata].
Defined.
End Witnesses.

Section ZeroVector.
Import Dedup.

End ZeroVector.

(** ** SO(3) sampling *)

Section SamplingFacts.
Local Open Scope R_scope.

(** The squares of the four components add up to 1. *)
Lemma shoemake_sum_of_squares (u1 u2 u3 : R) :
  0 <= u1 <= 1 →
  let '(a, b, c, d) := shoemake (u1, u2, u3) in
  a * a + b * b + c * c + d * d = 1.
Proof.
  intros [H0 H1]. unfold shoemake.
  pose proof (sqrt_sqrt (1 - u1)) as Ha.
  pose proof (sqrt_sqrt u1 H0) as Hb.
  pose proof (sin2_cos2 (2 * PI * u2)) as H2.
  pose proof (sin2_cos2 (2 * PI * u3)) as H3.
  unfold Rsqr in H2, H3.
  set (a := sqrt (1 - u1)) in *. set (b := sqrt u1) in *.
  set (s2 := sin (2 * PI * u2)) in *. set (c2 := cos (2 * PI * u2)) in *.
  set (s3 := sin (2 * PI * u3)) in *. set (c3 := cos (2 * PI * u3)) in *.
  replace (a * s2 * (a * s2) + a * c2 * (a * c2) + b * s3 * (b * s3)
           + b * c3 * (b * c3))
    with (a * a * (s2 * s2 + c2 * c2) + b * b * (s3 * s3 + c3 * c3)) by ring.
  rewrite H2, H3, Ha, Hb by lra. ring.
Qed.

(** C4: for every parameter triple with [0 <= u1 <= 1], the quaternion
    [(sqrt (1-u1) sin 2πu2, sqrt (1-u1) cos 2πu2, sqrt u1 sin 2πu3,
    sqrt u1 cos 2πu3)] the sampler builds has norm 1. *)
Theorem shoemake_unit_norm (u1 u2 u3 : R) :
  0 <= u1 <= 1 → quat_norm (shoemake (u1, u2, u3)) = 1.
Proof.
  intros Hu. pose proof (shoemake_sum_of_squares u1 u2 u3 Hu) as Hsq.
  unfold quat_norm. destruct (shoemake (u1, u2, u3)) as [[[a b] c] d].
  rewrite Hsq. apply sqrt_1.
Qed.

Lemma shoemake_unit_norm_witness :
  0 <= 1 / 2 <= 1 ∧ quat_norm (shoemake (1 / 2, 1 / 4, 3 / 4)) = 1.
Proof.
  assert (0 <= 1 / 2 <= 1) as Hu by lra.
  split; [exact Hu|]. exact (shoemake_unit_norm (1 / 2) (1 / 4) (3 / 4) Hu).
Defined.

(** The points of [np.linspace(0, m, num)] lie between 0 and [m]. *)
Lemma linspace_range (m : R) (num : Z) (u : list R) :
  0 <= m → linspace 0 m num = Ok u → Forall (λ x, 0 <= x <= m) u.
Proof.
  intros Hm. unfold linspace. case_decide as Hnum; [done|].
  intros [= <-]. apply Forall_fmap, Forall_forall.
  intros i [_ Hi]%elem_of_seq. simpl in *.
  rewrite Rplus_0_l, Rminus_0_r.
  destruct (decide (num = 1%Z)) as [->|Hne].
  - assert (i = 0%nat) as -> by lia. simpl. lra.
  - assert (0 <= INR i) as Hi0 by apply pos_INR.
    assert (INR i <= IZR num - 1) as Hi1.
    { rewrite INR_IZR_INZ, <- minus_IZR. apply IZR_le. lia. }
    assert (0 < IZR num - 1) as Hd.
    { rewrite <- minus_IZR. apply IZR_lt. lia. }
    set (d := IZR num - 1) in *. set (x := INR i) in *.
    assert (x * (m / d) = m * (x / d)) as -> by (field; lra).
    assert (0 <= x / d <= 1) as [Hq0 Hq1].
    { split.
      - apply Rmult_le_pos; [lra|]. left. by apply Rinv_0_lt_compat.
      - apply Rmult_le_reg_r with d; [lra|].
        replace (x / d * d) with x by (field; lra). lra. }
    split; [by apply Rmult_le_pos|].
    rewrite <- (Rmult_1_r m) at 2. by apply Rmult_le_compat_l.
Qed.

Lemma elem_of_meshgrid (u_1 u_2 u_3 : list R) (x y z : R) :
  (x, y, z) ∈ meshgrid u_1 u_2 u_3 → x ∈ u_1.
Proof.
  unfold meshgrid.
  intros (y' & Hy & _)%list_elem_of_bind.
  apply list_elem_of_bind in Hy as (x' & Hx & Hx').
  apply list_elem_of_bind in Hx as (z' & Hz & _).
  apply list_elem_of_singleton in Hz. by injection Hz as -> _ _.
Qed.

(** Every quaternion the sampler builds, before duplicates are removed,
    has norm 1. *)
Lemma sampled_quaternions_unit_norm
    (resolution : R) (max_angle : option R) (u_1 u_2 u_3 : list R) :
  sample_axes resolution max_angle = Ok (u_1, u_2, u_3) →
  Forall (λ q, quat_norm q = 1) (shoemake <$> meshgrid u_1 u_2 u_3).
Proof.
  intros Haxes.
  assert (Forall (λ x, 0 <= x <= 1) u_1) as Hu1.
  { unfold sample_axes in Haxes. destruct max_angle as [max_angle|].
    - destruct (restricted_counts _ _) as [num_1 num_2].
      set (c := cos (deg2rad (max_angle / 2))) in *.
      assert (0 <= 1 - Rsqr c <= 1) as [Hlo Hhi].
      { pose proof (COS_bound (deg2rad (max_angle / 2))) as Hc. fold c in Hc.
        unfold Rsqr. split; nra. }
      destruct (linspace 0 (1 - Rsqr c) num_1) as [v_1|] eqn:E1; [|done].
      simpl in Haxes. destruct (linspace _ 1 num_2); [|done].
      simpl in Haxes. destruct (linspace 0 1 _); [|done].
      simpl in Haxes. injection Haxes as <- _ _.
      eapply Forall_impl; [exact (linspace_range _ _ _ Hlo E1)|].
      simpl. intros t Ht. lra.
    - destruct (linspace 0 1 _) as [v_1|] eqn:E1; [|done].
      simpl in Haxes. injection Haxes as <- _ _.
      eapply linspace_range; [|exact E1]. lra. }
  rewrite Forall_forall in Hu1.
  apply Forall_fmap, Forall_forall. intros [[x y] z] Hin.
  change (quat_norm (shoemake (x, y, z)) = 1).
  assert (0 <= x <= 1) as Hx by (apply Hu1; eapply elem_of_meshgrid; exact Hin).
  pose proof (shoemake_sum_of_squares x y z Hx) as Hsq.
  unfold quat_norm. destruct (shoemake (x, y, z)) as [[[a b] c] d].
  rewrite Hsq. apply sqrt_1.
Qed.

Lemma ceil_positive (x : R) : 0 < x → (1 <= ceil x)%Z.
Proof.
  intros Hx. unfold ceil.
  destruct (base_Int_part (- x)) as [Hlo _].
  assert (IZR (Int_part (- x)) < 0) as Hneg by lra.
  apply lt_IZR in Hneg. lia.
Qed.

Lemma linspace_length (start stop : R) (num : Z) :
  (0 <= num)%Z →
  ∃ u, linspace start stop num = Ok u ∧ length u = Z.to_nat num.
Proof.
  intros Hnum. unfold linspace. rewrite decide_False by lia.
  eexists. split; [done|]. by rewrite length_fmap, length_seq.
Qed.

Lemma restricted_counts_ge_2 (num_steps : Z) (max_angle : R) :
  (2 <= (restricted_counts num_steps max_angle).1)%Z
  ∧ (2 <= (restricted_counts num_steps max_angle).2)%Z.
Proof.
  unfold restricted_counts. simpl. split; case_decide; lia.
Qed.

(** C7: with an angle bound, for every resolution > 0, the step counts of
    the [u_1] and [u_2] axes are at least 2: each is
    [int(num_steps * fraction)] when that exceeds 1 and 2 otherwise, and the
    two axes have that many points. *)
Theorem restricted_axes_at_least_two (resolution max_angle : R) :
  0 < resolution →
  let num_steps := ceil (360 / resolution) in
  let num_1 := (restricted_counts num_steps max_angle).1 in
  let num_2 := (restricted_counts num_steps max_angle).2 in
  let u_1_max := 1 - Rsqr (cos (deg2rad (max_angle / 2))) in
  let u_2_min := asin (cos (deg2rad (max_angle / 2))) / 2 / PI in
  (2 <= num_1)%Z ∧ (2 <= num_2)%Z
  ∧ ((int (IZR num_steps * u_1_max) <= 1)%Z → num_1 = 2%Z)
  ∧ ((int (IZR num_steps * (1 - u_2_min)) <= 1)%Z → num_2 = 2%Z)
  ∧ ∃ u_1 u_2 u_3,
      sample_axes resolution (Some max_angle) = Ok (u_1, u_2, u_3)
      ∧ length u_1 = Z.to_nat num_1 ∧ length u_2 = Z.to_nat num_2
      ∧ (2 <= length u_1)%nat ∧ (2 <= length u_2)%nat.
Proof.
  intros Hres num_steps num_1 num_2 u_1_max u_2_min.
  destruct (restricted_counts_ge_2 num_steps max_angle) as [H1 H2].
  fold num_1 in H1. fold num_2 in H2.
  split; [exact H1|]. split; [exact H2|].
  split; [|split].
  - intros Hle. subst num_1. unfold restricted_counts. simpl.
    fold u_1_max. rewrite decide_False by lia. done.
  - intros Hle. subst num_2. unfold restricted_counts. simpl.
    fold u_2_min. rewrite decide_False by lia. done.
  - assert (1 <= num_steps)%Z as Hsteps.
    { apply ceil_positive. apply Rdiv_lt_0_compat; lra. }
    destruct (linspace_length 0 u_1_max num_1) as (u_1 & E1 & L1); [lia|].
    destruct (linspace_length u_2_min 1 num_2) as (u_2 & E2 & L2); [lia|].
    destruct (linspace_length 0 1 num_steps) as (u_3 & E3 & L3); [lia|].
    exists u_1, u_2, u_3. unfold sample_axes. fold num_steps.
    destruct (restricted_counts num_steps max_angle) as [n1 n2] eqn:En.
    simpl in num_1, num_2. subst num_1 num_2.
    fold u_1_max. fold u_2_min. rewrite E1. simpl. rewrite E2. simpl.
    rewrite E3. simpl. repeat split; [done|done|lia|lia].
Qed.

Lemma restricted_axes_at_least_two_witness :
  0 < 2 ∧ (2 <= (restricted_counts (ceil (360 / 2)) 90).1)%Z
        ∧ (2 <= (restricted_counts (ceil (360 / 2)) 90).2)%Z.
Proof.
  assert (0 < 2) as Hres by lra.
  split; [exact Hres|].
  destruct (restricted_axes_at_least_two 2 90 Hres) as (H1 & H2 & _).
  split; [exact H1|exact H2].
Defined.
End SamplingFacts.

(** ** Local grids *)

Section LocalGridFacts.
Local Open Scope R_scope.
Variable create_equispaced_grid : R → list quat.
Variable Rotation_mul : quat → quat → quat.

Lemma filter_none {X} (P : X → Prop) `{∀ x, Decision (P x)} (l : list X) :
  Forall (λ x, ¬ P x) l → filter P l = [].
Proof.
  induction 1 as [|x r Hx _ IH]; [done|].
  by rewrite filter_cons_False.
Qed.

Lemma five_degrees_bounds : 0 < deg2rad (10 / 2) < 1 / 2.
Proof.
  unfold deg2rad. pose proof PI_RGT_0. pose proof PI_4. lra.
Qed.

(** [arccos] of five degrees taken as a cosine is beyond every scalar part. *)
Lemma arccos_five_degrees : 1 <= acos (deg2rad (10 / 2)).
Proof.
  destruct five_degrees_bounds as [Hlo Hhi].
  destruct (acos_bound (deg2rad (10 / 2))) as [Ha0 HaPI].
  destruct (Rle_or_lt 1 (acos (deg2rad (10 / 2)))) as [|Hlt]; [done|].
  exfalso.
  pose proof PI2_3_2 as HPI. pose proof PI_4 as HPI4.
  assert (cos 1 < cos (acos (deg2rad (10 / 2)))) as Hcos
    by (apply cos_decreasing_1; lra).
  rewrite cos_acos in Hcos by lra.
  assert (cos (PI / 3) <= cos 1) as Hcos1 by (apply cos_decr_1; lra).
  rewrite cos_PI3 in Hcos1. lra.
Qed.

Lemma cos_five_degrees_lt_1 : cos (deg2rad (10 / 2)) < 1.
Proof.
  destruct five_degrees_bounds as [Hlo Hhi].
  pose proof PI2_3_2 as HPI.
  rewrite <- cos_0. apply cos_decreasing_1; lra.
Qed.

(** C1, what the code does at the default width: the threshold is
    [arccos] of the half width in radians, not its cosine; at
    [grid_width = 10] it exceeds 1, so no rotation of a grid of unit
    quaternions is kept, whereas the documented grid keeps every sampled
    rotation whose scalar part exceeds [cos 5°]. *)
Theorem get_grid_local_default_width_empty
    (resolution : R) (center : option quat) :
  Forall (λ q, quat_a q <= 1) (create_equispaced_grid resolution) →
  get_grid_local create_equispaced_grid Rotation_mul resolution center 10 = []
  ∧ (∀ q, q ∈ create_equispaced_grid resolution →
          cos (deg2rad (10 / 2)) < quat_a q →
          local_grid_documented create_equispaced_grid Rotation_mul
            resolution center 10 ≠ []).
Proof.
  intros Hunit. split.
  - unfold get_grid_local, np_arccos.
    destruct five_degrees_bounds as [Hlo Hhi].
    rewrite !decide_True by lra.
    rewrite filter_none.
    + by destruct center.
    + eapply Forall_impl; [exact Hunit|].
      intros q Hq. unfold gt_nan. simpl in Hq.
      pose proof arccos_five_degrees as Hacos.
      apply Rle_not_lt. by apply Rle_trans with 1.
  - intros q Hq Ha E. unfold local_grid_documented in E.
    assert (q ∈ filter (λ x, cos (deg2rad (10 / 2)) < quat_a x)
                  (create_equispaced_grid resolution)) as Hin
      by (apply list_elem_of_filter; done).
    destruct center as [c|].
    + apply fmap_nil_inv in E. rewrite E in Hin. by apply elem_of_nil in Hin.
    + rewrite E in Hin. by apply elem_of_nil in Hin.
Qed.
End LocalGridFacts.

Lemma get_grid_local_default_width_empty_witness :
  let grid := λ _ : R, [(1, 0, 0, 0)%R] in
  let mul := λ _ q : quat, q in
  get_grid_local grid mul 2 None 10 = []
  ∧ local_grid_documented grid mul 2 None 10 ≠ [].
Proof.
  intros grid mul.
  assert (Forall (λ q, (quat_a q <= 1)%R) (grid 2%R)) as Hunit.
  { constructor; [simpl; lra|constructor]. }
  destruct (get_grid_local_default_width_empty grid mul 2 None Hunit)
    as [Hempty Hdoc].
  split; [exact Hempty|].
  apply (Hdoc (1, 0, 0, 0)%R).
  - constructor.
  - simpl. apply cos_five_degrees_lt_1.
Defined.

(** ** Index generators *)

Section ProductFacts.
Implicit Types (rs : list (list Z)) (v : list Z).

Lemma elem_of_product rs v :
  v ∈ product rs ↔ Forall2 (λ x r, x ∈ r) v rs.
Proof.
  revert v. induction rs as [|r rest IH]; intros v; simpl.
  - rewrite list_elem_of_singleton. split; [intros ->; constructor|].
    apply Forall2_nil_inv_r.
  - rewrite list_elem_of_bind. split.
    + intros (x & (t & -> & Ht)%list_elem_of_fmap & Hx).
      constructor; [done|]. by apply IH.
    + intros (x & t & Hx & Ht & ->)%Forall2_cons_inv_r.
      exists x. split; [|done]. apply list_elem_of_fmap.
      exists t. split; [done|]. by apply IH.
Qed.

Lemma NoDup_product rs : Forall NoDup rs → NoDup (product rs).
Proof.
  induction 1 as [|r rest Hr _ IH]; simpl.
  - apply NoDup_singleton.
  - apply NoDup_bind; [| |done].
    + intros x1 x2 y _ _ (t1 & -> & _)%list_elem_of_fmap
        (t2 & E & _)%list_elem_of_fmap. by injection E.
    + intros x _. apply NoDup_fmap_2; [|done]. by intros t1 t2 [= ->].
Qed.

Lemma length_bind_const {X Y} (f : X → list Y) (l : list X) (n : nat) :
  (∀ x, length (f x) = n) → length (l ≫= f) = length l * n.
Proof.
  intros Hf. induction l as [|x l IH]; [done|].
  rewrite bind_cons, length_app, Hf, IH. simpl. lia.
Qed.

Lemma length_product rs :
  length (product rs) = foldr (λ r n, length r * n) 1 rs.
Proof.
  induction rs as [|r rest IH]; [done|]. simpl.
  rewrite (length_bind_const _ _ (length (product rest))).
  - by rewrite IH.
  - intros x. by rewrite length_fmap.
Qed.

Lemma last_product rs v :
  Forall2 (λ r x, last r = Some x) rs v → last (product rs) = Some v.
Proof.
  induction 1 as [|r x rest v Hr _ IH]; [done|]. simpl.
  apply last_Some in Hr as [r' ->].
  rewrite bind_app. csimpl. rewrite app_nil_r, last_app.
  by rewrite fmap_last, IH.
Qed.
End ProductFacts.

Lemma all_zero_true (row : list Z) :
  all_zero row = true ↔ Forall (λ x, x = 0%Z) row.
Proof.
  unfold all_zero. induction row as [|x r IH]; simpl.
  - split; [constructor|done].
  - rewrite andb_true_iff, Forall_cons, IH, Z.eqb_eq. done.
Qed.

Lemma all_zero_false (row : list Z) :
  all_zero row = false ↔ Exists (λ x, x ≠ 0%Z) row.
Proof.
  unfold all_zero. induction row as [|x r IH]; simpl.
  - split; [done|]. by intros ?%Exists_nil.
  - rewrite andb_false_iff, Exists_cons, IH, Z.eqb_neq. done.
Qed.

Lemma last_arange (i : Z) : (0 ≤ i)%Z → last (arange (- i) (i + 1)) = Some i.
Proof.
  intros Hi. unfold arange. rewrite last_lookup, length_seqZ.
  rewrite lookup_seqZ_lt by lia. f_equal. lia.
Qed.

Lemma length_filter_remove_one {X} (P : X → Prop) `{∀ x, Decision (P x)}
    (l : list X) (z : X) :
  NoDup l → z ∈ l → (∀ x, x ∈ l → P x ↔ x ≠ z) →
  S (length (filter P l)) = length l.
Proof.
  induction 1 as [|x l Hx Hnd IH]; intros Hz HP; [by apply elem_of_nil in Hz|].
  apply elem_of_cons in Hz as [->|Hz].
  - rewrite filter_cons_False by (rewrite HP by left; tauto).
    rewrite filter_all; [done|].
    apply Forall_forall. intros y Hy. apply HP; [by right|].
    intros ->. done.
  - rewrite filter_cons_True by (apply HP; [left|intros ->; done]).
    simpl. rewrite IH; [done|done|].
    intros y Hy. apply HP. by right.
Qed.

Lemma last_filter {X} (P : X → Prop) `{∀ x, Decision (P x)} (l : list X) (x : X) :
  last l = Some x → P x → last (filter P l) = Some x.
Proof.
  intros [l' ->]%last_Some HP.
  rewrite filter_app, filter_cons_True by done. simpl. apply last_snoc.
Qed.

(** The rows before the zero row is removed. *)
Lemma box_rows (h : list Z) (v : list Z) :
  v ∈ product ((λ i, arange (- i) (i + 1)) <$> h)
  ↔ Forall2 (λ x i, (- i ≤ x ≤ i)%Z) v h.
Proof.
  rewrite elem_of_product, Forall2_fmap_r.
  split; intros Hv; eapply Forall2_impl; try exact Hv; simpl;
    intros x i; unfold arange; rewrite elem_of_seqZ; lia.
Qed.

Lemma NoDup_box (h : list Z) :
  NoDup (product ((λ i, arange (- i) (i + 1)) <$> h)).
Proof.
  apply NoDup_product, Forall_fmap, Forall_forall.
  intros i _. apply NoDup_seqZ.
Qed.

Lemma length_box (h : list Z) :
  Forall (λ i, (0 ≤ i)%Z) h →
  Z.of_nat (length (product ((λ i, arange (- i) (i + 1)) <$> h))) = box_size h.
Proof.
  intros Hh. rewrite length_product.
  induction Hh as [|i r Hi _ IH]; [done|].
  rewrite fmap_cons. simpl. rewrite Nat2Z.inj_mul, IH.
  unfold arange. rewrite length_seqZ. lia.
Qed.

Lemma forallb_nonneg (h : list Z) :
  forallb (λ i, 0 <=? i)%Z h = true ↔ Forall (λ i, (0 ≤ i)%Z) h.
Proof.
  induction h as [|i r IH]; simpl.
  - split; [constructor|done].
  - rewrite andb_true_iff, Forall_cons, IH, Z.leb_le. done.
Qed.

Lemma indices_valid_ok (h : list Z) :
  Forall (λ i, (0 ≤ i)%Z) h → Exists (λ i, i ≠ 0%Z) h →
  _get_indices_from_highest h =
    Ok (reverse (filter (λ row, all_zero row = false)
                   (product ((λ i, arange (- i) (i + 1)) <$> h)))).
Proof.
  intros Hpos Hnz. unfold _get_indices_from_highest.
  apply forallb_nonneg in Hpos. apply all_zero_false in Hnz.
  by rewrite Hpos, Hnz.
Qed.

(** X1: [_get_indices_from_highest] raises its [ValueError] exactly when
    some highest index is negative or all of them are zero (in particular
    for no index at all); otherwise it returns. *)
Theorem indices_from_highest_error (h : list Z) :
  (_get_indices_from_highest h = Raise (ValueError msg_highest)
   ↔ Exists (λ i, (i < 0)%Z) h ∨ Forall (λ i, i = 0%Z) h)
  ∧ (is_ok (_get_indices_from_highest h) = true
     ↔ Forall (λ i, (0 ≤ i)%Z) h ∧ Exists (λ i, i ≠ 0%Z) h).
Proof.
  pose proof (forallb_nonneg h) as Hpos.
  unfold _get_indices_from_highest.
  destruct (forallb _ h) eqn:Epos; simpl.
  - assert (Forall (λ i, (0 ≤ i)%Z) h) as Hall by (by apply Hpos).
    destruct (all_zero h) eqn:Ez; simpl.
    + apply all_zero_true in Ez. split; [split; [by right|done]|].
      split; [done|]. intros [_ Hnz].
      apply Exists_exists in Hnz as (i & Hi & Hne).
      rewrite Forall_forall in Ez. by specialize (Ez i Hi).
    + apply all_zero_false in Ez.
      split; [split; [done|]|split; [done|done]].
      intros [Hneg|Hz].
      * apply Exists_exists in Hneg as (i & Hi & Hlt).
        rewrite Forall_forall in Hall. specialize (Hall i Hi). lia.
      * apply Exists_exists in Ez as (i & Hi & Hne).
        rewrite Forall_forall in Hz. by specialize (Hz i Hi).
  - split; [split; [intros _|done]|split; [done|]].
    + left. destruct (decide (Exists (λ i, (i < 0)%Z) h)) as [|Hno]; [done|].
      exfalso. apply not_Exists_Forall in Hno; [|intros i; apply _].
      apply Forall_impl with (Q := λ i, (0 ≤ i)%Z) in Hno;
        [|intros i; simpl; lia].
      by apply Hpos in Hno.
    + intros [Hall _]. by apply Hpos in Hall.
Qed.

(** X2: for highest indices that are all non-negative and not all zero,
    the returned rows are, without repetition, exactly the integer rows
    with [-h_i <= v_i <= h_i] for every i, except the zero row. *)
Theorem indices_from_highest_members (h : list Z) :
  Forall (λ i, (0 ≤ i)%Z) h → Exists (λ i, i ≠ 0%Z) h →
  ∃ l, _get_indices_from_highest h = Ok l
       ∧ NoDup l
       ∧ ∀ v, v ∈ l ↔ Forall2 (λ x i, (- i ≤ x ≤ i)%Z) v h
                        ∧ Exists (λ x, x ≠ 0%Z) v.
Proof.
  intros Hpos Hnz. eexists. split; [by apply indices_valid_ok|]. split.
  - rewrite reverse_Permutation. apply NoDup_filter, NoDup_box.
  - intros v. rewrite elem_of_reverse, list_elem_of_filter, box_rows.
    rewrite all_zero_false. tauto.
Qed.

Lemma indices_from_highest_members_witness :
  Forall (λ i, (0 ≤ i)%Z) [1; 0; 2]%Z ∧ Exists (λ i, i ≠ 0%Z) [1; 0; 2]%Z
  ∧ ∃ l, _get_indices_from_highest [1; 0; 2]%Z = Ok l ∧ NoDup l.
Proof.
  assert (Forall (λ i, (0 ≤ i)%Z) [1; 0; 2]%Z) as Hpos
    by (repeat constructor; lia).
  assert (Exists (λ i, i ≠ 0%Z) [1; 0; 2]%Z) as Hnz by (left; lia).
  split; [exact Hpos|]. split; [exact Hnz|].
  destruct (indices_from_highest_members _ Hpos Hnz) as (l & Hl & Hnd & _).
  exists l. split; [exact Hl|exact Hnd].
Defined.

(** X3: for such highest indices, the first returned row is the row of
    the highest indices themselves, and there are
    [(2 h_1 + 1) ... (2 h_n + 1) - 1] rows. *)
Theorem indices_from_highest_head_count (h : list Z) :
  Forall (λ i, (0 ≤ i)%Z) h → Exists (λ i, i ≠ 0%Z) h →
  ∃ l, _get_indices_from_highest h = Ok l
       ∧ head l = Some h
       ∧ Z.of_nat (length l) = (box_size h - 1)%Z.
Proof.
  intros Hpos Hnz. eexists. split; [by apply indices_valid_ok|]. split.
  - rewrite head_reverse. apply last_filter; [|by apply all_zero_false].
    apply last_product, Forall2_fmap_l, Forall_Forall2_diag.
    apply Forall_impl with (1 := Hpos). intros i Hi. by apply last_arange.
  - rewrite length_reverse, <- length_box by done.
    set (rows := product _).
    assert (S (length (filter (λ row, all_zero row = false) rows)) = length rows)
      as <-; [|lia].
    apply (length_filter_remove_one _ _ (replicate (length h) 0%Z)).
    + apply NoDup_box.
    + apply box_rows. clear Hnz.
      induction Hpos as [|i r Hi _ IH]; simpl; constructor; [lia|done].
    + intros v Hv%box_rows. rewrite all_zero_false.
      apply Forall2_length in Hv as Hlen. rewrite <- Hlen. clear.
      induction v as [|x v IH]; simpl.
      * split; [by intros ?%Exists_nil|done].
      * rewrite Exists_cons, IH. split.
        -- intros [Hx|Hv] [= -> E]; tauto.
        -- intros Hne. destruct (decide (x = 0%Z)) as [->|]; [|by left].
           right. intros E. apply Hne. by f_equal.
Qed.

Lemma indices_from_highest_head_count_witness :
  Forall (λ i, (0 ≤ i)%Z) [1; 1; 1]%Z ∧ Exists (λ i, i ≠ 0%Z) [1; 1; 1]%Z
  ∧ ∃ l, _get_indices_from_highest [1; 1; 1]%Z = Ok l
         ∧ head l = Some [1; 1; 1]%Z ∧ length l = 26.
Proof.
  assert (Forall (λ i, (0 ≤ i)%Z) [1; 1; 1]%Z) as Hpos
    by (repeat constructor; lia).
  assert (Exists (λ i, i ≠ 0%Z) [1; 1; 1]%Z) as Hnz by (left; lia).
  split; [exact Hpos|]. split; [exact Hnz|].
  destruct (indices_from_highest_head_count _ Hpos Hnz) as (l & Hl & Hhd & Hlen).
  exists l. split; [exact Hl|]. split; [exact Hhd|].
  apply Nat2Z.inj. rewrite Hlen. reflexivity.
Defined.
(** ** Closure of the four-index forms *)

Lemma Qabs_small (s : Q) : (s == 0)%Q → (Qabs s <= 1 # 10000)%Q.
Proof. intros ->. by vm_compute. Qed.

(** X4: on rationals, the quartets [_hkl2hkil] and [_uvw2UVTW] (under
    either convention) produce always pass [_check_hkil] and
    [_check_UVTW]. *)
Theorem converted_indices_pass_closure :
  (∀ hkl : list (vec3 Q), _check_hkil (_hkl2hkil hkl) = Ok ())
  ∧ (∀ (convention : option string) (uvw : list (vec3 Q)),
        _check_UVTW (_uvw2UVTW uvw convention) = Ok ()).
Proof.
  split.
  - intros hkl. unfold _check_hkil.
    assert (allclose0 (sum_first3 <$> _hkl2hkil hkl) = true) as ->; [|done].
    apply allclose0_true, Forall_fmap, Forall_forall.
    intros [[h k] l] _. apply close_to_zero_Q, Qabs_small.
    unfold sum_first3, hkl2hkil_row. cbn [add opp NumQ]. field.
  - intros convention uvw. unfold _check_UVTW.
    assert (allclose0 (sum_first3 <$> _uvw2UVTW uvw convention) = true) as ->;
      [|done].
    apply allclose0_true, Forall_fmap, Forall_forall.
    intros [[u v] w] _. apply close_to_zero_Q, Qabs_small.
    unfold uvw2UVTW_row. destruct (is_mtex convention); simpl; field.
Qed.

(** X5: on rationals, converting a quartet to three indices and back
    returns the quartet exactly when its first three entries sum to zero:
    the third entry is recomputed from the first two. *)
Theorem four_index_roundtrip_iff_closed :
  (∀ hkil : vec4 Q,
      vec4_Qeq (hkl2hkil_row (hkil2hkl_row hkil)) hkil
      ↔ (sum_first3 hkil == 0)%Q)
  ∧ (∀ UVTW : vec4 Q,
      vec4_Qeq (uvw2UVTW_row None (UVTW2uvw_row None UVTW)) UVTW
      ↔ (sum_first3 UVTW == 0)%Q).
Proof.
  split.
  - intros [[[h k] i] l]. simpl. split.
    + intros (_ & _ & Hi & _). rewrite <- Hi. ring.
    + intros Hsum. repeat split; try reflexivity.
      symmetry. apply (Qplus_inj_l _ _ (h + k)). rewrite Hsum. ring.
  - intros [[[U V] T] W]. simpl. split.
    + intros (_ & _ & HT & _). rewrite <- HT. field.
    + intros Hsum. repeat split; try field.
      symmetry. apply (Qplus_inj_l _ _ (U + V)). rewrite Hsum. field.
Qed.
(** ** Construction *)

Section ConstructionFacts.
Context {A : Type} `{Num A} `{External A}.
Implicit Types (self : Miller) (h : gmap nat (list (vec3 A))).

Lemma Miller_init_uvw (uvw : list (vec3 A)) UVTW hkl hkil (p : Phase) h :
  Miller_init None (Some uvw) UVTW hkl hkil (Some p) None h
  = Ok ({| data := fresh (dom h); phase := Some p;
           coordinate_format := "uvw" |},
        <[fresh (dom h) := _uvw2xyz uvw (structure_lattice p)]> h).
Proof. unfold Miller_init, bind, ret, alloc, get_lattice. simpl. done. Qed.

(** X6: the constructor refuses a call without [xyz] and without a phase
    whatever indices are passed, and a call with a phase and no
    coordinates; with [xyz] it needs no phase, ignores every index argument
    and keeps the very array it is given, leaving the store as it is; and
    [uvw] takes precedence over [UVTW], [hkl] and [hkil], which are not
    even checked. *)
Theorem constructor_arguments :
  (∀ uvw UVTW hkl hkil (cf : option string) h,
      Miller_init None uvw UVTW hkl hkil None cf h
      = Raise (ValueError msg_no_phase))
  ∧ (∀ (p : Phase) (cf : option string) h,
      Miller_init None None None None None (Some p) cf h
      = Raise (ValueError msg_no_coords))
  ∧ (∀ (xyz : nat) uvw UVTW hkl hkil (ph : option Phase) (cf : option string) h,
      Miller_init (Some xyz) uvw UVTW hkl hkil ph cf h
      = if bool_decide (default "xyz" cf ∈ formats)
        then Ok ({| data := xyz; phase := ph;
                    coordinate_format := default "xyz" cf |}, h)
        else Raise (ValueError msg_formats))
  ∧ (∀ (uvw : list (vec3 A)) UVTW hkl hkil (p : Phase) h,
      Miller_init None (Some uvw) UVTW hkl hkil (Some p) None h
      = Ok ({| data := fresh (dom h); phase := Some p;
               coordinate_format := "uvw" |},
            <[fresh (dom h) := _uvw2xyz uvw (structure_lattice p)]> h)).
Proof.
  split; [|split; [|split]].
  - intros. done.
  - intros. done.
  - intros xyz uvw UVTW hkl hkil ph cf h.
    unfold Miller_init, bind, ret, raise. simpl. by case_bool_decide.
  - intros uvw UVTW hkl hkil p h. apply Miller_init_uvw.
Qed.

Lemma mapR_as_vec3 (idx : list (list Z)) :
  Forall (λ row, length row = 3) idx →
  ∃ rows : list (vec3 A), mapR as_vec3 idx = Ok rows ∧ length rows = length idx.
Proof.
  induction 1 as [|row r Hrow _ (rows & IH & Hlen)]; [by exists []|].
  destruct row as [|x [|y [|z [|]]]]; try done.
  eexists (_ :: rows). simpl. rewrite IH. simpl. split; [done|].
  by rewrite Hlen.
Qed.

Lemma indices_rows_length (hi : list Z) (l : list (list Z)) :
  _get_indices_from_highest hi = Ok l →
  Forall (λ row, length row = length hi) l.
Proof.
  unfold _get_indices_from_highest. destruct (_ || _); [done|].
  intros [= <-]. apply Forall_forall.
  intros v [_ Hv%box_rows]%elem_of_reverse%list_elem_of_filter.
  by apply Forall2_length in Hv.
Qed.

(** X7: [from_highest_indices] raises when neither [uvw] nor [hkl] is
    given, and raises the error of the index generator, whatever the
    phase, when the highest indices are invalid; for three valid highest
    [uvw] indices and a phase (a given [hkl] is then ignored) it returns a
    batch in format uvw with that phase, which holds the unique vectors
    of the generated indices, and leaves the arrays of the store as they
    are. *)
Theorem from_highest_indices_behaviour (ph : option Phase) h :
  from_highest_indices ph None None h = Raise (ValueError msg_highest_missing)
  ∧ (∀ (uvw : list Z) hkl,
      is_ok (_get_indices_from_highest uvw) = false →
      from_highest_indices ph (Some uvw) hkl h = Raise (ValueError msg_highest))
  ∧ (∀ (uvw : list Z) hkl (p : Phase) (idx : list (list Z)),
      ph = Some p → length uvw = 3 →
      _get_indices_from_highest uvw = Ok idx →
      ∃ (rows : list (vec3 A)) (m : Miller) h',
        mapR as_vec3 idx = Ok rows
        ∧ from_highest_indices ph (Some uvw) hkl h = Ok (m, h')
        ∧ coordinate_format m = "uvw" ∧ phase m = Some p
        ∧ h' !!! data m
          = (Vector3d_unique (_uvw2xyz rows (structure_lattice p))).1
        ∧ ∀ l, is_Some (h !! l) → h' !! l = h !! l).
Proof.
  split; [done|]. split.
  - intros uvw hkl Hbad. unfold from_highest_indices, bind, ret, lift.
    unfold _get_indices_from_highest in *.
    destruct (_ || _); [done|discriminate Hbad].
  - intros uvw hkl p idx -> Hlen Hidx.
    destruct (mapR_as_vec3 idx) as (rows & Hrows & _).
    { eapply Forall_impl; [by apply indices_rows_length|].
      simpl. intros row ->. done. }
    exists rows. unfold from_highest_indices, bind, ret, lift.
    rewrite Hidx. simpl. unfold init_from_indices. rewrite Hrows.
    rewrite bool_decide_eq_true_2 by done. rewrite Miller_init_uvw.
    unfold Miller_unique, bind, read, alloc, ret. simpl.
    rewrite lookup_total_insert_eq.
    destruct (Vector3d_unique _) as [v i] eqn:Eu. simpl.
    eexists _, _. split; [done|]. split; [done|]. simpl.
    split; [done|]. split; [done|]. split.
    + by rewrite lookup_total_insert_eq.
    + intros l Hl. rewrite lookup_alloc.
      * by apply lookup_alloc.
      * rewrite lookup_alloc; done.
Qed.
End ConstructionFacts.

(** ** More on symmetrically equivalent vectors *)

Lemma fill_slice_padding {X} (xs : list X) (n l : nat) (y v : X) :
  l ≤ n →
  fill_slice (xs ++ replicate n y) (length xs) (length xs + l) v
  = xs ++ replicate l v ++ replicate (n - l) y.
Proof.
  intros Hl. unfold fill_slice. rewrite imap_app. f_equal.
  - apply list_eq. intros j. rewrite list_lookup_imap.
    destruct (xs !! j) as [x|] eqn:E; [|done]. simpl.
    apply lookup_lt_Some in E. rewrite bool_decide_eq_false_2 by lia. done.
  - apply list_eq. intros j. rewrite list_lookup_imap.
    destruct (decide (j < l)) as [Hj|Hj].
    + rewrite lookup_replicate_2 by lia. simpl.
      rewrite bool_decide_eq_true_2 by lia.
      rewrite lookup_app_l by (rewrite length_replicate; lia).
      by rewrite lookup_replicate_2.
    + rewrite lookup_app_r by (rewrite length_replicate; lia).
      rewrite length_replicate.
      destruct (decide (j < n)) as [Hn|Hn].
      * rewrite !lookup_replicate_2 by lia. simpl.
        rewrite bool_decide_eq_false_2 by lia. done.
      * rewrite !lookup_ge_None_2 by (rewrite length_replicate; lia). done.
Qed.

Lemma lookup_concat_rows {X} (ls : list (list X)) (n j i : nat) :
  Forall (λ row, length row = n) ls → i < n →
  concat ls !! (j * n + i) = ls !! j ≫= λ row, row !! i.
Proof.
  intros Hls Hi. revert j. induction Hls as [|row r Hrow _ IH]; intros j.
  - by rewrite !lookup_nil.
  - destruct j as [|j]; simpl.
    + rewrite lookup_app_l by lia. done.
    + rewrite lookup_app_r by lia.
      replace (n + j * n + i - length row) with (j * n + i) by lia. apply IH.
Qed.

Section SymmetriseMoreFacts.
Context {A : Type} `{Num A} `{External A}.
Implicit Types (self : Miller) (h : gmap nat (list (vec3 A))).
Implicit Types (ops : list Op) (a : list (vec3 A)).

(** X8: without [unique], [symmetrise] of N vectors under M operations
    returns the M * N vectors [g v], operation by operation: the vector at
    position [j * N + i] is operation j applied to input vector i. *)
Theorem symmetrise_plain_layout self (p : Phase) h :
  phase self = Some p →
  coordinate_format self ∈ formats →
  ∃ (m : Miller) h',
    Miller_symmetrise self false false false h = Ok (Sym m, h')
    ∧ length (h' !!! data m)
      = length (point_group p) * length (h !!! data self)
    ∧ ∀ (j i : nat) (g : Op) (v : vec3 A),
        point_group p !! j = Some g → (h !!! data self) !! i = Some v →
        (h' !!! data m) !! (j * length (h !!! data self) + i) = Some (act g v).
Proof.
  intros Hp Hfmt. rewrite (Miller_symmetrise_plain self p h Hp Hfmt).
  eexists _, _. split; [done|]. simpl. rewrite lookup_total_alloc.
  set (a := h !!! data self). set (ops := point_group p).
  assert (Forall (λ row : list (vec3 A), length row = length a) (outer ops a))
    as Hrows.
  { unfold outer. apply Forall_fmap, Forall_forall. intros g _. simpl.
    by rewrite length_fmap. }
  split.
  - clear -Hrows. unfold outer in *. induction ops as [|g r IH]; [done|].
    rewrite fmap_cons in *. simpl. apply Forall_cons in Hrows as [Hg Hr].
    rewrite length_app, Hg, IH by done. done.
  - intros j i g v Hg Hv.
    rewrite (lookup_concat_rows _ (length a)); [|done|by eapply lookup_lt_Some].
    unfold outer. rewrite list_lookup_fmap, Hg. simpl.
    by rewrite list_lookup_fmap, Hv.
Qed.

Lemma symmetrise_step_idx (v2 : list (list (vec3 A))) (st st2 : sym_state)
    (i : nat) (col : list (vec3 A)) :
  column v2 i = Ok col →
  symmetrise_step v2 st i = Ok st2 →
  st_idx st2 = fill_slice (st_idx st) (st_l_accum st)
                 (st_l_accum st + length (Vector3d_unique col).1) (Z.of_nat i)
  ∧ st_l_accum st2 = st_l_accum st + length (Vector3d_unique col).1.
Proof.
  intros Hcol. unfold symmetrise_step. rewrite Hcol. simpl.
  destruct (st_v3 st !! i) as [row|]; [|done]. simpl.
  destruct (assign_prefix _ _) as [row'|]; [|done]. simpl.
  destruct (st_multiplicity st !! i); [|done]. simpl.
  by intros [= <-].
Qed.

Lemma origin_index_snoc ops a (x : vec3 A) :
  origin_index ops (a ++ [x])
  = origin_index ops a
    ++ replicate (length (unique_orbit ops x)) (Z.of_nat (length a)).
Proof.
  unfold origin_index. rewrite imap_app, concat_app. simpl.
  by rewrite app_nil_r, Nat.add_0_r.
Qed.

Lemma length_origin_index ops a :
  (∀ v, v ∈ a → length (unique_orbit ops v) ≤ length ops) →
  length (origin_index ops a) ≤ length a * length ops.
Proof.
  induction a as [|x a IH] using rev_ind; intros Hle; [done|].
  rewrite origin_index_snoc, !length_app, length_replicate. simpl.
  assert (length (unique_orbit ops x) ≤ length ops) by (apply Hle; set_solver).
  assert (length (origin_index ops a) ≤ length a * length ops)
    by (apply IH; intros v Hv; apply Hle; set_solver).
  lia.
Qed.

(** The loop of [symmetrise] writes the origin of every unique vector. *)
Lemma symmetrise_loop_idx ops a :
  (∀ v, v ∈ a → length (unique_orbit ops v) ≤ length ops) →
  ∀ (k i : nat) (st st' : sym_state),
    i + k = length a →
    st_l_accum st = length (origin_index ops (take i a)) →
    st_idx st = origin_index ops (take i a)
                ++ replicate (length a * length ops - st_l_accum st) (-1)%Z →
    for_each (symmetrise_step (outer ops a)) (seq i k) st = Ok st' →
    st_l_accum st' = length (origin_index ops a)
    ∧ st_idx st' = origin_index ops a
                   ++ replicate (length a * length ops - st_l_accum st') (-1)%Z.
Proof.
  intros Hle k. induction k as [|k IH]; intros i st st' Hik Hacc Hidx Hfor.
  - simpl in Hfor. injection Hfor as <-.
    rewrite take_ge in Hacc, Hidx by lia. done.
  - destruct (lookup_lt_is_Some_2 a i) as [x Hx]; [lia|].
    simpl in Hfor.
    destruct (symmetrise_step (outer ops a) st i) as [st2|] eqn:Estep; [|done].
    simpl in Hfor.
    destruct (symmetrise_step_idx _ _ _ _ _ (column_outer ops a i x Hx) Estep)
      as [Hidx2 Hacc2].
    fold (unique_orbit ops x) in Hidx2, Hacc2.
    assert (length (take i a) = i) as Hlen by (rewrite length_take; lia).
    pose proof (length_origin_index ops (take (S i) a)) as Hcap.
    rewrite (take_S_r _ _ _ Hx), origin_index_snoc in Hcap.
    rewrite !length_app, length_replicate, Hlen, <- Hacc in Hcap. simpl in Hcap.
    assert (st_l_accum st + length (unique_orbit ops x)
            ≤ (i + 1) * length ops) as Hcap'.
    { apply Hcap. intros v Hv. apply Hle.
      apply elem_of_app in Hv as [Hv|Hv].
      - apply elem_of_take in Hv as (j & Hj & _).
        by eapply list_elem_of_lookup_2.
      - apply list_elem_of_singleton in Hv as ->.
        by eapply list_elem_of_lookup_2. }
    assert ((i + 1) * length ops ≤ length a * length ops) as Hfit
      by (apply Nat.mul_le_mono_r; lia).
    apply (IH (S i) st2 st'); [lia| | |done].
    + rewrite (take_S_r _ _ _ Hx), origin_index_snoc, length_app,
        length_replicate, Hacc2, Hacc. done.
    + rewrite Hacc2, Hidx2, Hidx, !Hacc.
      rewrite (take_S_r _ _ _ Hx), origin_index_snoc, Hlen.
      rewrite fill_slice_padding by (rewrite <- Hacc; lia).
      rewrite <- app_assoc. do 3 f_equal. lia.
Qed.

Lemma length_origin_index_eq ops a :
  length (origin_index ops a) = length (concat (unique_orbit ops <$> a)).
Proof.
  induction a as [|x a IH] using rev_ind; [done|].
  rewrite origin_index_snoc, fmap_app, concat_app, !length_app, IH.
  simpl. by rewrite length_replicate, app_nil_r.
Qed.

Lemma symmetrise_unique_full ops a :
  non_zero (zero3 : vec3 A) = false →
  (∀ v, v ∈ a → length (unique_orbit ops v) ≤ length ops) →
  (∀ v w, v ∈ a → w ∈ unique_orbit ops v → non_zero w = true) →
  symmetrise_unique ops a =
    Ok (concat (unique_orbit ops <$> a),
        (λ v, Z.of_nat (length (unique_orbit ops v))) <$> a,
        origin_index ops a).
Proof.
  intros Hz Hle Hnz. unfold symmetrise_unique. cbv zeta.
  pose (st0 := {| st_v3 := replicate (length a) (replicate (length ops) (zero3 : vec3 A));
                  st_multiplicity := replicate (length a) 0%Z;
                  st_idx := replicate (length a * length ops) (-1)%Z;
                  st_l_accum := 0 |}).
  destruct (symmetrise_loop ops a Hle (length a) 0 st0)
    as (st & Efor & Hv3 & Hm);
    [done|simpl; by rewrite Nat.sub_0_r|simpl; by rewrite Nat.sub_0_r|].
  destruct (symmetrise_loop_idx ops a Hle (length a) 0 st0 st eq_refl)
    as [Hacc Hidx]; [done|simpl; by rewrite Nat.sub_0_r|exact Efor|].
  subst st0.
  - 
    rewrite Efor. simpl. rewrite Hv3, Hm.
    assert (concat (filter (λ v, non_zero v = true) <$> (padded_orbit ops <$> a))
            = concat (unique_orbit ops <$> a)) as ->.
    { rewrite <- list_fmap_compose. f_equal.
      apply list_fmap_ext. intros i v Hv. simpl.
      rewrite filter_non_zero_padded by done.
      apply filter_all, Forall_forall. intros w Hw.
      eapply Hnz; [|exact Hw]. by eapply list_elem_of_lookup_2. }
    rewrite Hidx, <- length_origin_index_eq, take_app_length. done.
Qed.

(** X9: with [unique=True] and under the assumptions of the
    multiplicity-sum law on the base-class [unique], the returned batch is
    the unique orbits of the input vectors one after the other, and the
    returned index lists, for each returned vector, the position of the
    input vector it is equivalent to. *)
Theorem symmetrise_origin_index self (p : Phase) h :
  phase self = Some p →
  coordinate_format self ∈ formats →
  non_zero (zero3 : vec3 A) = false →
  Forall (λ v, length (unique_orbit (point_group p) v) ≤ length (point_group p)
               ∧ Forall (λ w, non_zero w = true) (unique_orbit (point_group p) v))
         (h !!! data self) →
  ∃ (m : Miller) (multiplicity idx : list Z) h',
    Miller_symmetrise self true true true h =
      Ok (SymMultiplicityIndex m multiplicity idx, h')
    ∧ h' !!! data m = concat (unique_orbit (point_group p) <$> h !!! data self)
    ∧ idx = origin_index (point_group p) (h !!! data self)
    ∧ length idx = length (h' !!! data m).
Proof.
  intros Hp Hfmt Hz Hall. rewrite Forall_forall in Hall.
  unfold Miller_symmetrise, bind, read, get_point_group, alloc, ret, lift.
  rewrite Hp. simpl.
  rewrite symmetrise_unique_full; [|done| |].
  - simpl. rewrite rewrap_valid by done.
    eexists _, _, _, _. split; [done|]. simpl.
    rewrite lookup_total_alloc. split; [done|]. split; [done|].
    apply length_origin_index_eq.
  - intros v Hv. by apply Hall.
  - intros v w Hv Hw. destruct (Hall v Hv) as [_ Hnz].
    rewrite Forall_forall in Hnz. by apply Hnz.
Qed.

(** X10: under a point group of order M >= 1, the [multiplicity] property
    returns exactly when every unique orbit has at most M vectors; it then
    returns, for each vector, the number of its unique equivalent vectors,
    a number between 0 and M, and leaves the arrays of the store as they
    are. *)
Theorem multiplicity_property self (p : Phase) h :
  phase self = Some p →
  coordinate_format self ∈ formats →
  point_group p ≠ [] →
  (is_ok (Miller_multiplicity self h) = true
   ↔ Forall (λ v, length (unique_orbit (point_group p) v)
                  ≤ length (point_group p)) (h !!! data self))
  ∧ ∀ (multiplicity : list Z) h',
      Miller_multiplicity self h = Ok (multiplicity, h') →
      multiplicity
      = (λ v, Z.of_nat (length (unique_orbit (point_group p) v)))
          <$> h !!! data self
      ∧ Forall (λ k, (0 ≤ k ≤ Z.of_nat (length (point_group p)))%Z) multiplicity
      ∧ ∀ l, is_Some (h !! l) → h' !! l = h !! l.
Proof.
  intros Hp Hfmt Hops.
  assert (∀ r, Miller_symmetrise self true true false h = Ok r →
               ∀ v, v ∈ h !!! data self →
                    length (unique_orbit (point_group p) v)
                    ≤ length (point_group p)) as Hinv.
  { intros r Hr. by eapply Miller_symmetrise_unique_inv. }
  split.
  - unfold Miller_multiplicity, bind. split.
    + destruct (Miller_symmetrise self true true false h) as [[r h1]|] eqn:Es;
        [|done].
      intros _. apply Forall_forall. by eapply Hinv.
    + intros Hle. rewrite Forall_forall in Hle.
      destruct (Miller_symmetrise_unique self p h true false Hp Hfmt Hle)
        as [idx ->]. done.
  - intros multiplicity h' Hm. unfold Miller_multiplicity, bind in Hm.
    destruct (Miller_symmetrise self true true false h) as [[r h1]|] eqn:Es;
      [|done].
    pose proof (Hinv _ eq_refl) as Hle.
    destruct (Miller_symmetrise_unique self p h true false Hp Hfmt Hle)
      as [idx Hs].
    rewrite Es in Hs. simpl in Hs. injection Hs as -> ->.
    simpl in Hm. injection Hm as <- <-.
    split; [done|]. split.
    + apply Forall_fmap, Forall_forall. intros v Hv. simpl.
      specialize (Hle v Hv). lia.
    + intros l Hl. by apply lookup_alloc.
Qed.
End SymmetriseMoreFacts.

Section SymmetriseWitnesses.
Import Sample.

Lemma symmetrise_plain_layout_witness :
  ∃ (m : Miller) h',
    Miller_symmetrise (batch "hkl") false false false store0 = Ok (Sym m, h')
    ∧ length (h' !!! data m)
      = length (point_group PG4) * length (store0 !!! data (batch "hkl"))
    ∧ ∀ (j i : nat) (g : Op) (v : vec3 float),
        point_group PG4 !! j = Some g →
        (store0 !!! data (batch "hkl")) !! i = Some v →
        (h' !!! data m) !! (j * length (store0 !!! data (batch "hkl")) + i)
        = Some (act g v).
Proof.
  apply (symmetrise_plain_layout (batch "hkl") PG4 store0).
  - reflexivity.
  - apply format_valid. reflexivity.
Defined.

Lemma symmetrise_origin_index_witness :
  ∃ (m : Miller) (multiplicity idx : list Z) h',
    Miller_symmetrise (batch "uvw") true true true store0 =
      Ok (SymMultiplicityIndex m multiplicity idx, h')
    ∧ h' !!! data m
      = concat (unique_orbit (point_group PG4) <$> store0 !!! data (batch "uvw"))
    ∧ idx = origin_index (point_group PG4) (store0 !!! data (batch "uvw"))
    ∧ length idx = length (h' !!! data m).
Proof.
  apply (symmetrise_origin_index (batch "uvw") PG4 store0).
  - reflexivity.
  - apply format_valid. reflexivity.
  - reflexivity.
  - change (store0 !!! data (batch "uvw")) with vectors0.
    repeat (constructor; [split; [vm_compute; lia | repeat constructor]|]).
    constructor.
Defined.

Lemma multiplicity_property_witness :
  ∃ (multiplicity : list Z) h',
    Miller_multiplicity (batch "hkl") store0 = Ok (multiplicity, h')
    ∧ multiplicity
      = (λ v, Z.of_nat (length (unique_orbit (point_group PG4) v)))
          <$> store0 !!! data (batch "hkl")
    ∧ Forall (λ k, (0 ≤ k ≤ Z.of_nat (length (point_group PG4)))%Z) multiplicity
    ∧ ∀ l, is_Some (store0 !! l) → h' !! l = store0 !! l.
Proof.
  destruct (Miller_multiplicity (batch "hkl") store0)
    as [[multiplicity h']|] eqn:Em; [|by vm_compute in Em].
  exists multiplicity, h'. split; [done|].
  destruct (multiplicity_property (batch "hkl") PG4 store0) as [_ Hret].
  - reflexivity.
  - apply format_valid. reflexivity.
  - discriminate.
  - exact (Hret multiplicity h' Em).
Defined.
End SymmetriseWitnesses.

Section ConstructionWitnesses.
Import Sample.

Lemma from_highest_indices_behaviour_witness :
  ∃ (idx : list (list Z)) (rows : list (vec3 float)) (m : Miller) h',
    _get_indices_from_highest [1; 1; 0]%Z = Ok idx
    ∧ mapR as_vec3 idx = Ok rows
    ∧ from_highest_indices (Some PG4) (Some [1; 1; 0]%Z) None store0 = Ok (m, h')
    ∧ coordinate_format m = "uvw" ∧ phase m = Some PG4
    ∧ h' !!! data m
      = (Vector3d_unique (_uvw2xyz rows (structure_lattice PG4))).1
    ∧ ∀ l, is_Some (store0 !! l) → h' !! l = store0 !! l.
Proof.
  destruct (proj2 (proj2 (from_highest_indices_behaviour (Some PG4) store0))
              [1; 1; 0]%Z None PG4
              (default [] (match _get_indices_from_highest [1; 1; 0]%Z with
                           | Ok l => Some l | Raise _ => None end))
              eq_refl eq_refl eq_refl)
    as (rows & m & h' & W).
  eexists _, rows, m, h'. split; [reflexivity|exact W].
Defined.
End ConstructionWitnesses.

(** ** Direct and reciprocal lattice coordinates *)

Section LatticeFacts.
Context `{External Q}.
Local Open Scope Q_scope.

Lemma inverse_mat_vec (d di : mat33 Q) (v : vec3 Q) :
  mat33_Qeq (mat_mul di d) identity33 →
  vec3_Qeq (vec_mat (mat_vec d v) (transpose di)) v.
Proof.
  destruct d as [[[[d11 d12] d13] [[d21 d22] d23]] [[d31 d32] d33]].
  destruct di as [[[[e11 e12] e13] [[e21 e22] e23]] [[e31 e32] e33]].
  destruct v as [[v1 v2] v3].
  cbn -[Qplus Qmult Qeq].
  intros (H11 & H12 & H13 & H21 & H22 & H23 & H31 & H32 & H33).
  repeat split.
  - transitivity ((e11 * d11 + e12 * d21 + e13 * d31) * v1
                  + (e11 * d12 + e12 * d22 + e13 * d32) * v2
                  + (e11 * d13 + e12 * d23 + e13 * d33) * v3); [ring|].
    rewrite H11, H12, H13. ring.
  - transitivity ((e21 * d11 + e22 * d21 + e23 * d31) * v1
                  + (e21 * d12 + e22 * d22 + e23 * d32) * v2
                  + (e21 * d13 + e22 * d23 + e23 * d33) * v3); [ring|].
    rewrite H21, H22, H23. ring.
  - transitivity ((e31 * d11 + e32 * d21 + e33 * d31) * v1
                  + (e31 * d12 + e32 * d22 + e33 * d32) * v2
                  + (e31 * d13 + e32 * d23 + e33 * d33) * v3); [ring|].
    rewrite H31, H32, H33. ring.
Qed.

Lemma inverse_vec_mat (d di : mat33 Q) (v : vec3 Q) :
  mat33_Qeq (mat_mul di d) identity33 →
  vec3_Qeq (vec_mat (mat_vec (transpose di) v) d) v.
Proof.
  destruct d as [[[[d11 d12] d13] [[d21 d22] d23]] [[d31 d32] d33]].
  destruct di as [[[[e11 e12] e13] [[e21 e22] e23]] [[e31 e32] e33]].
  destruct v as [[v1 v2] v3].
  cbn -[Qplus Qmult Qeq].
  intros (H11 & H12 & H13 & H21 & H22 & H23 & H31 & H32 & H33).
  repeat split.
  - transitivity ((e11 * d11 + e12 * d21 + e13 * d31) * v1
                  + (e21 * d11 + e22 * d21 + e23 * d31) * v2
                  + (e31 * d11 + e32 * d21 + e33 * d31) * v3); [ring|].
    rewrite H11, H21, H31. ring.
  - transitivity ((e11 * d12 + e12 * d22 + e13 * d32) * v1
                  + (e21 * d12 + e22 * d22 + e23 * d32) * v2
                  + (e31 * d12 + e32 * d22 + e33 * d32) * v3); [ring|].
    rewrite H12, H22, H32. ring.
  - transitivity ((e11 * d13 + e12 * d23 + e13 * d33) * v1
                  + (e21 * d13 + e22 * d23 + e23 * d33) * v2
                  + (e31 * d13 + e32 * d23 + e33 * d33) * v3); [ring|].
    rewrite H13, H23, H33. ring.
Qed.

Lemma inverse_dot3 (d di : mat33 Q) (u v : vec3 Q) :
  mat33_Qeq (mat_mul di d) identity33 →
  dot3 (mat_vec d u) (mat_vec (transpose di) v) == dot3 u v.
Proof.
  destruct d as [[[[d11 d12] d13] [[d21 d22] d23]] [[d31 d32] d33]].
  destruct di as [[[[e11 e12] e13] [[e21 e22] e23]] [[e31 e32] e33]].
  destruct u as [[u1 u2] u3]. destruct v as [[v1 v2] v3].
  cbn -[Qplus Qmult Qeq].
  intros (H11 & H12 & H13 & H21 & H22 & H23 & H31 & H32 & H33).
  transitivity
    (u1 * ((e11 * d11 + e12 * d21 + e13 * d31) * v1
           + (e21 * d11 + e22 * d21 + e23 * d31) * v2
           + (e31 * d11 + e32 * d21 + e33 * d31) * v3)
     + u2 * ((e11 * d12 + e12 * d22 + e13 * d32) * v1
             + (e21 * d12 + e22 * d22 + e23 * d32) * v2
             + (e31 * d12 + e32 * d22 + e33 * d32) * v3)
     + u3 * ((e11 * d13 + e12 * d23 + e13 * d33) * v1
             + (e21 * d13 + e22 * d23 + e23 * d33) * v2
             + (e31 * d13 + e32 * d23 + e33 * d33) * v3)); [ring|].
  rewrite H11, H12, H13, H21, H22, H23, H31, H32, H33. ring.
Qed.

Definition inverts (lattice : Lattice Q) : Prop :=
  mat33_Qeq (mat_mul (linalg_inv (_direct_structure_matrix lattice))
                     (_direct_structure_matrix lattice)) identity33.

Lemma xyz2uvw_uvw2xyz (lattice : Lattice Q) uvw :
  inverts lattice →
  Forall2 vec3_Qeq (_xyz2uvw (_uvw2xyz uvw lattice) lattice) uvw.
Proof.
  intros Hinv. unfold _xyz2uvw, _uvw2xyz, _reciprocal_structure_matrix.
  rewrite <- list_fmap_compose.
  apply Forall2_fmap_l, Forall_Forall2_diag, Forall_forall.
  intros v _. by apply inverse_mat_vec.
Qed.

Lemma xyz2hkl_hkl2xyz (lattice : Lattice Q) hkl :
  inverts lattice →
  Forall2 vec3_Qeq (_xyz2hkl (_hkl2xyz hkl lattice) lattice) hkl.
Proof.
  intros Hinv. unfold _xyz2hkl, _hkl2xyz, _reciprocal_structure_matrix.
  rewrite <- list_fmap_compose.
  apply Forall2_fmap_l, Forall_Forall2_diag, Forall_forall.
  intros v _. by apply inverse_vec_mat.
Qed.

Lemma hkl2hkil_Qeq (a b : list (vec3 Q)) :
  Forall2 vec3_Qeq a b → Forall2 vec4_Qeq (_hkl2hkil a) (_hkl2hkil b).
Proof.
  intros Hab. unfold _hkl2hkil. apply Forall2_fmap.
  eapply Forall2_impl; [exact Hab|].
  intros [[h k] l] [[h' k'] l'] (Hh & Hk & Hl). simpl.
  repeat split; try done. by rewrite Hh, Hk.
Qed.

Lemma uvw2UVTW_Qeq (convention : option string) (a b : list (vec3 Q)) :
  Forall2 vec3_Qeq a b →
  Forall2 vec4_Qeq (_uvw2UVTW a convention) (_uvw2UVTW b convention).
Proof.
  intros Hab. unfold _uvw2UVTW. apply Forall2_fmap.
  eapply Forall2_impl; [exact Hab|].
  intros [[u v] w] [[u' v'] w'] (Hu & Hv & Hw).
  unfold uvw2UVTW_row. destruct (is_mtex convention); simpl;
    repeat split; try done; by rewrite ?Hu, ?Hv, ?Hw.
Qed.

(** X11: on rationals, for a lattice whose direct structure matrix
    [np.linalg.inv] inverts, converting direct-lattice indices to Cartesian
    coordinates and back returns them, and so for reciprocal-lattice
    indices; and the Cartesian dot product of a direct and a reciprocal
    lattice vector is [u h + v k + w l]. *)
Theorem lattice_coordinates_roundtrip (lattice : Lattice Q) :
  mat33_Qeq (mat_mul (linalg_inv (_direct_structure_matrix lattice))
                     (_direct_structure_matrix lattice)) identity33 →
  (∀ uvw, Forall2 vec3_Qeq (_xyz2uvw (_uvw2xyz uvw lattice) lattice) uvw)
  ∧ (∀ hkl, Forall2 vec3_Qeq (_xyz2hkl (_hkl2xyz hkl lattice) lattice) hkl)
  ∧ (∀ uvw hkl,
        Forall2 Qeq
          (zip_with dot3 (_uvw2xyz uvw lattice) (_hkl2xyz hkl lattice))
          (zip_with dot3 uvw hkl)).
Proof.
  intros Hinv. split; [|split].
  - intros uvw. by apply xyz2uvw_uvw2xyz.
  - intros hkl. by apply xyz2hkl_hkl2xyz.
  - unfold _uvw2xyz, _hkl2xyz, _reciprocal_structure_matrix.
    intros uvw. induction uvw as [|u uvw IH]; intros hkl; [constructor|].
    destruct hkl as [|v hkl]; [constructor|].
    rewrite !fmap_cons. cbn [zip_with].
    constructor; [by apply inverse_dot3|apply IH].
Qed.

Lemma Miller_init_hkl (hkl : list (vec3 Q)) (p : Phase) h :
  Miller_init None None None (Some hkl) None (Some p) None h
  = Ok ({| data := fresh (dom h); phase := Some p;
           coordinate_format := "hkl" |},
        <[fresh (dom h) := _hkl2xyz hkl (structure_lattice p)]> h).
Proof. unfold Miller_init, bind, ret, alloc, get_lattice. simpl. done. Qed.

(** X12: on rationals and for such a lattice, a batch built from [hkl]
    (from [uvw]) indices gives these indices back through its [hkl]
    ([uvw]) getter; a batch built from [hkil] ([UVTW]) quartets that pass
    the closure check gives back, through its [hkil] ([UVTW]) getter, the
    quartets with their third entry recomputed from the first two, not the
    third entry that was passed. *)
Theorem constructor_getter_roundtrip (p : Phase) (h : gmap nat (list (vec3 Q))) :
  mat33_Qeq (mat_mul (linalg_inv (_direct_structure_matrix (structure_lattice p)))
                     (_direct_structure_matrix (structure_lattice p))) identity33 →
  (∀ hkl, ∃ m h' r,
      Miller_init None None None (Some hkl) None (Some p) None h = Ok (m, h')
      ∧ Miller_hkl m h' = Ok (r, h') ∧ Forall2 vec3_Qeq r hkl)
  ∧ (∀ uvw, ∃ m h' r,
      Miller_init None (Some uvw) None None None (Some p) None h = Ok (m, h')
      ∧ Miller_uvw m h' = Ok (r, h') ∧ Forall2 vec3_Qeq r uvw)
  ∧ (∀ hkil, _check_hkil hkil = Ok () → ∃ m h' r,
      Miller_init None None None None (Some hkil) (Some p) None h = Ok (m, h')
      ∧ Miller_hkil m h' = Ok (r, h')
      ∧ Forall2 vec4_Qeq r (_hkl2hkil (_hkil2hkl hkil)))
  ∧ (∀ UVTW, _check_UVTW UVTW = Ok () → ∃ m h' r,
      Miller_init None None (Some UVTW) None None (Some p) None h = Ok (m, h')
      ∧ Miller_UVTW m h' = Ok (r, h')
      ∧ Forall2 vec4_Qeq r (_uvw2UVTW (_UVTW2uvw UVTW None) None)).
Proof.
  intros Hinv. split; [|split; [|split]].
  - intros hkl. rewrite Miller_init_hkl. eexists _, _, _. split; [reflexivity|].
    unfold Miller_hkl, bind, read, get_lattice, ret. simpl.
    rewrite lookup_total_alloc. split; [done|]. by apply xyz2hkl_hkl2xyz.
  - intros uvw. rewrite Miller_init_uvw. eexists _, _, _. split; [reflexivity|].
    unfold Miller_uvw, bind, read, get_lattice, ret. simpl.
    rewrite lookup_total_alloc. split; [done|]. by apply xyz2uvw_uvw2xyz.
  - intros hkil Hc. rewrite Miller_init_hkil. unfold _check_hkil in Hc.
    destruct (allclose0 _); [|done]. simpl.
    eexists _, _, _. split; [reflexivity|].
    unfold Miller_hkil, Miller_hkl, bind, read, get_lattice, ret. simpl.
    rewrite lookup_total_alloc. split; [done|].
    by apply hkl2hkil_Qeq, xyz2hkl_hkl2xyz.
  - intros UVTW Hc. rewrite Miller_init_UVTW. unfold _check_UVTW in Hc.
    destruct (allclose0 _); [|done]. simpl.
    eexists _, _, _. split; [reflexivity|].
    unfold Miller_UVTW, Miller_uvw, bind, read, get_lattice, ret. simpl.
    rewrite lookup_total_alloc. split; [done|].
    by apply uvw2UVTW_Qeq, xyz2uvw_uvw2xyz.
Qed.
End LatticeFacts.

Section LatticeWitnesses.
Import Rational.

Lemma lattice_coordinates_roundtrip_witness :
  (∀ uvw, Forall2 vec3_Qeq (_xyz2uvw (_uvw2xyz uvw monoclinic) monoclinic) uvw)
  ∧ (∀ hkl, Forall2 vec3_Qeq (_xyz2hkl (_hkl2xyz hkl monoclinic) monoclinic) hkl)
  ∧ (∀ uvw hkl,
        Forall2 Qeq
          (zip_with dot3 (_uvw2xyz uvw monoclinic) (_hkl2xyz hkl monoclinic))
          (zip_with dot3 uvw hkl)).
Proof.
  apply (lattice_coordinates_roundtrip monoclinic).
  vm_compute. repeat split.
Defined.

Lemma constructor_getter_roundtrip_witness :
  ∃ m h' r,
    Miller_init None None None None (Some [(1, 0, -1, 2)%Q]) (Some phase2) None ∅
    = Ok (m, h')
    ∧ Miller_hkil m h' = Ok (r, h')
    ∧ Forall2 vec4_Qeq r (_hkl2hkil (_hkil2hkl [(1, 0, -1, 2)%Q])).
Proof.
  apply (constructor_getter_roundtrip phase2 ∅).
  - vm_compute. repeat split.
  - reflexivity.
Defined.
End LatticeWitnesses.

(** ** Rounding of indices on rationals *)

Section RoundFacts.
Local Open Scope Q_scope.

Lemma Qround_half_even_lower (a : Z) (q : Q) :
  inject_Z a <= q → (a ≤ Qround_half_even q)%Z.
Proof.
  intros Ha. assert (a ≤ Qfloor q)%Z as Hf.
  { rewrite <- (Qfloor_Z a). by apply Qfloor_resp_le. }
  unfold Qround_half_even. destruct (Qcompare _ _); [destruct (Z.even _)|..]; lia.
Qed.

Lemma Qround_half_even_upper (b : Z) (q : Q) :
  q <= inject_Z b → (Qround_half_even q ≤ b)%Z.
Proof.
  intros Hb. pose proof (Qfloor_le q) as Hfl.
  assert (Qfloor q ≤ b)%Z as Hf.
  { rewrite Zle_Qle. by eapply Qle_trans. }
  assert (inject_Z (Qfloor q) < q → (Qfloor q + 1 ≤ b)%Z) as Hlt.
  { intros Hq. apply Zlt_le_succ. rewrite Zlt_Qlt.
    eapply Qlt_le_trans; [exact Hq|exact Hb]. }
  unfold Qround_half_even.
  destruct (Qcompare _ _) eqn:E; [destruct (Z.even _)|..]; try lia.
  - apply Hlt. apply Qeq_alt in E.
    apply Qlt_minus_iff. unfold Qminus in E. rewrite E. reflexivity.
  - apply Hlt. apply Qgt_alt in E.
    apply Qlt_minus_iff. unfold Qminus in E.
    eapply Qlt_trans; [|exact E]. reflexivity.
Qed.

Lemma Qtruncate_inject_Z (z : Z) : Qtruncate (inject_Z z) = z.
Proof.
  unfold Qtruncate. destruct (Qle_bool _ _); [apply Qfloor_Z|apply Qceiling_Z].
Qed.

(** The largest entry of a list lies in it and bounds it. *)
Lemma fold_max_spec (r : list Q) (x : Q) :
  fold_left (λ m y : Q, if ltb m y then y else m) r x ∈ x :: r
  ∧ ∀ y, y ∈ x :: r →
         y <= fold_left (λ m y : Q, if ltb m y then y else m) r x.
Proof.
  set (f := λ m y : Q, if ltb m y then y else m).
  revert x. induction r as [|z r IH]; intros x.
  - split; [left|]. intros y ->%list_elem_of_singleton. apply Qle_refl.
  - assert (f x z = if Qle_bool z x then x else z) as Hf
      by (unfold f; simpl; by destruct (Qle_bool z x)).
    cbn [fold_left]. rewrite Hf. destruct (Qle_bool z x) eqn:E.
    + destruct (IH x) as [Hin Hle]. split.
      * apply elem_of_cons in Hin as [->|Hin]; [left|right; by right].
      * intros y [->|[->|Hy]%elem_of_cons]%elem_of_cons.
        -- apply Hle. left.
        -- apply Qle_bool_iff in E. eapply Qle_trans; [exact E|]. apply Hle. left.
        -- apply Hle. by right.
    + destruct (IH z) as [Hin Hle]. split.
      * by right.
      * intros y [->|Hy]%elem_of_cons.
        -- assert (¬ z <= x) as Hn by (rewrite <- Qle_bool_iff; by rewrite E).
           apply Qnot_le_lt in Hn. apply Qlt_le_weak in Hn.
           eapply Qle_trans; [exact Hn|]. apply Hle. left.
        -- by apply Hle.
Qed.

Lemma max_abs_spec (row : list Q) :
  row ≠ [] →
  (∃ x, x ∈ row ∧ Qabs x = max_abs row) ∧ ∀ x, x ∈ row → Qabs x <= max_abs row.
Proof.
  intros Hne. unfold max_abs. destruct row as [|x r]; [done|].
  rewrite fmap_cons.
  destruct (fold_max_spec (Qabs <$> r) (Qabs x)) as [Hin Hle].
  split.
  - change (Qabs x :: (Qabs <$> r)) with (Qabs <$> (x :: r)) in Hin.
    apply list_elem_of_fmap in Hin as (y & Hy & Hin). by exists y.
  - intros y Hy. apply Hle.
    change (Qabs x :: (Qabs <$> r)) with (Qabs <$> (x :: r)).
    by apply list_elem_of_fmap_2.
Qed.

Lemma argmin_from_lt (l : list Q) (best : Q) (best_pos pos : nat) :
  (best_pos < pos)%nat →
  (argmin_from best best_pos pos l < pos + length l)%nat.
Proof.
  revert best best_pos pos. induction l as [|x l IH]; intros best bp pos Hlt; simpl.
  - lia.
  - destruct (negb _).
    + specialize (IH x pos (S pos)). lia.
    + specialize (IH best bp (S pos)). lia.
Qed.

Lemma argmin_lt (l : list Q) : l ≠ [] → (argmin l < length l)%nat.
Proof.
  destruct l as [|x l]; [done|]. intros _. simpl.
  pose proof (argmin_from_lt l x 0 1). lia.
Qed.

(** A scaled entry stays within the multiplier. *)
Lemma scaled_entry_bound (n : Z) (M x : Q) :
  (0 ≤ n)%Z → 0 < M → Qabs x <= M →
  - inject_Z n <= inject_Z n / M * x ∧ inject_Z n / M * x <= inject_Z n.
Proof.
  intros Hn HM Hx. apply Qabs_Qle_condition in Hx as [Hlo Hhi].
  assert (¬ M == 0) as HM0 by (intros E; rewrite E in HM; by apply Qlt_irrefl in HM).
  assert (0 <= inject_Z n) as Hn0
    by (change 0 with (inject_Z 0); by rewrite <- Zle_Qle).
  assert (x / M <= 1) as H1.
  { apply Qle_shift_div_r; [done|]. by rewrite Qmult_1_l. }
  assert (-(1) <= x / M) as H2.
  { apply Qle_shift_div_l; [done|].
    assert (- (1) * M == - M) as -> by ring. done. }
  assert (inject_Z n / M * x == x / M * inject_Z n) as -> by (field; done).
  split.
  - apply Qle_trans with (- (1) * inject_Z n).
    + assert (- (1) * inject_Z n == - inject_Z n) as -> by ring. apply Qle_refl.
    + by apply Qmult_le_compat_r.
  - apply Qle_trans with (1 * inject_Z n).
    + by apply Qmult_le_compat_r.
    + rewrite Qmult_1_l. apply Qle_refl.
Qed.

Lemma scaled_entry_extreme (n : Z) (M x : Q) :
  0 < M → Qabs x == M →
  inject_Z n / M * x == inject_Z n ∨ inject_Z n / M * x == inject_Z (- n).
Proof.
  intros HM Hx.
  assert (¬ M == 0) as HM0 by (intros E; rewrite E in HM; by apply Qlt_irrefl in HM).
  destruct (Qlt_le_dec x 0) as [Hneg|Hpos].
  - right. rewrite Qabs_neg in Hx by (by apply Qlt_le_weak).
    assert (x == - M) as -> by (rewrite <- Hx; ring).
    rewrite inject_Z_opp. field. done.
  - left. rewrite Qabs_pos in Hx by done. rewrite Hx. field. done.
Qed.

(** X13: on rationals, [_round_indices] of index triples that are not all
    zero, with a positive [max_index], returns triples whose entries lie
    between [-max_index] and [max_index] and are not all zero. *)
Theorem round_indices_bounded (indices : list (list Q)) (max_index : nat) :
  (0 < max_index)%nat →
  Forall (λ row, length row = 3%nat ∧ Exists (λ x, ¬ x == 0) row) indices →
  Forall (λ out, length out = 3%nat
                 ∧ Forall (λ z, (- Z.of_nat max_index ≤ z ≤ Z.of_nat max_index)%Z) out
                 ∧ Exists (λ z, z ≠ 0%Z) out)
         (_round_indices indices max_index).
Proof.
  intros Hmax Hrows. unfold _round_indices. apply Forall_fmap.
  eapply Forall_impl; [exact Hrows|]. clear Hrows.
  intros row [Hlen Hnz]. simpl.
  assert (row ≠ []) as Hne by (by destruct row).
  assert (drop_third row = row) as Hdrop
    by (by destruct row as [|? [|? [|? [|? ?]]]]).
  unfold round_row. rewrite Hdrop.
  destruct (max_abs_spec row Hne) as [(xm & Hxm & Hmx) Hle].
  set (M := max_abs row) in *.
  assert (0 < M) as HM.
  { apply Exists_exists in Hnz as (x & Hx & Hx0).
    eapply Qlt_le_trans; [|exact (Hle x Hx)].
    destruct (Qle_lt_or_eq _ _ (Qabs_nonneg x)) as [?|E]; [done|].
    exfalso. apply Hx0.
    assert (Qabs x <= 0) as Hab by (rewrite <- E; apply Qle_refl).
    apply Qabs_Qle_condition in Hab as [H1 H2].
    apply Qle_antisym; [exact H2|exact H1]. }
  set (error := rounding_error _ <$> _).
  assert (argmin error < max_index)%nat as Hk.
  { pose proof (argmin_lt error) as Hlt. subst error.
    rewrite !length_fmap, length_seq in Hlt. apply Hlt.
    destruct max_index; [lia|]. done. }
  set (n := (Z.of_nat (argmin error) + 1)%Z) in *.
  assert (∀ x, to_int (rint (mul (div (of_Z n) M) x))
               = Qround_half_even (inject_Z n / M * x)) as Hent.
  { intros x. cbn [to_int rint mul div of_Z NumQ]. apply Qtruncate_inject_Z. }
  split; [by rewrite length_fmap|]. split.
  - apply Forall_fmap, Forall_forall. intros x Hx. unfold compose. cbn beta. rewrite Hent.
    destruct (scaled_entry_bound n M x) as [Hlo Hhi]; [lia|done|by apply Hle|].
    rewrite <- inject_Z_opp in Hlo.
    apply Qround_half_even_lower in Hlo. apply Qround_half_even_upper in Hhi. lia.
  - apply Exists_fmap, Exists_exists. exists xm. split; [done|].
    unfold compose. cbn beta. rewrite Hent.
    destruct (scaled_entry_extreme n M xm HM) as [E|E]; [by rewrite Hmx|..].
    + assert (inject_Z n <= inject_Z n / M * xm) as Hlo
        by (rewrite E; apply Qle_refl).
      apply Qround_half_even_lower in Hlo. lia.
    + assert (inject_Z n / M * xm <= inject_Z (- n)) as Hhi
        by (rewrite E; apply Qle_refl).
      apply Qround_half_even_upper in Hhi. lia.
Qed.
End RoundFacts.

Lemma round_indices_bounded_witness :
  Forall (λ out, length out = 3%nat
                 ∧ Forall (λ z, (- Z.of_nat 12 ≤ z ≤ Z.of_nat 12)%Z) out
                 ∧ Exists (λ z, z ≠ 0%Z) out)
         (_round_indices [[1 # 3; 2 # 3; 0]; [0; 7 # 10; -(1)]]%Q 12).
Proof.
  apply (round_indices_bounded [[1 # 3; 2 # 3; 0]; [0; 7 # 10; -(1)]]%Q 12).
  - lia.
  - constructor; [split; [reflexivity|apply Exists_cons_hd; discriminate]|].
    constructor; [|constructor].
    split; [reflexivity|apply Exists_cons_tl, Exists_cons_hd; discriminate].
Defined.

(** ** Highest indices from a smallest spacing *)

Section HighestFacts.
Context `{External Q}.
Variable rnorm : Lattice Q → vec3 Q → Q.
Local Open Scope Q_scope.

Lemma ltb_Qlt (x y : Q) : ltb x y = true ↔ x < y.
Proof.
  change (negb (Qle_bool y x) = true ↔ x < y).
  rewrite negb_true_iff, <- not_true_iff_false, Qle_bool_iff.
  split; [apply Qnot_le_lt|apply Qlt_not_le].
Qed.

Lemma ltb_Qle (x y : Q) : ltb x y = false ↔ y <= x.
Proof.
  change (negb (Qle_bool y x) = false ↔ y <= x).
  by rewrite negb_false_iff, Qle_bool_iff.
Qed.

Lemma inject_Z_succ (a : Z) : inject_Z a + inject_Z 1 = inject_Z (a + 1).
Proof. unfold Qplus, inject_Z. simpl. f_equal. lia. Qed.

Lemma inject_Z_pred (a : Z) : inject_Z a - inject_Z 1 = inject_Z (a - 1).
Proof. unfold Qminus, Qplus, inject_Z. simpl. f_equal. lia. Qed.

(** The loop on one axis, entered at index [a]: it stops at the first
    index whose spacing does not exceed [min_dspacing]. *)
Lemma highest_on_axis_first (lattice : Lattice Q) (min_dspacing : Q) (i k : nat) :
  ∀ (fuel : nat) (a : Z),
    (∀ j : nat, (j < k)%nat →
       min_dspacing < spacing rnorm lattice i (inject_Z (a + Z.of_nat j))) →
    spacing rnorm lattice i (inject_Z (a + Z.of_nat k)) <= min_dspacing →
    highest_on_axis rnorm fuel lattice min_dspacing i (inject_Z a)
    = if decide (k ≤ fuel)%nat then Some (a + Z.of_nat k - 1)%Z else None.
Proof.
  induction k as [|k IH]; intros fuel a Hbefore Hat.
  - rewrite Z.add_0_r in Hat. apply ltb_Qle in Hat.
    rewrite decide_True by lia.
    destruct fuel; cbn [highest_on_axis]; rewrite Hat;
      change (Some (Qtruncate (inject_Z a - inject_Z 1)) = Some (a + 0 - 1)%Z);
      rewrite inject_Z_pred, Qtruncate_inject_Z; f_equal; lia.
  - pose proof (Hbefore 0%nat ltac:(lia)) as H0.
    rewrite Z.add_0_r in H0. apply ltb_Qlt in H0.
    destruct fuel as [|fuel]; cbn [highest_on_axis]; rewrite H0.
    + by rewrite decide_False by lia.
    + change (add (inject_Z a) (of_Z 1)) with (inject_Z a + inject_Z 1).
      rewrite inject_Z_succ, IH.
      * destruct (decide (k ≤ fuel)%nat); [rewrite decide_True by lia|
                                            rewrite decide_False by lia]; [|done].
        f_equal. lia.
      * intros j Hj. specialize (Hbefore (S j) ltac:(lia)).
        by replace (a + 1 + Z.of_nat j)%Z with (a + Z.of_nat (S j))%Z by lia.
      * by replace (a + 1 + Z.of_nat k)%Z with (a + Z.of_nat (S k))%Z by lia.
Qed.

Lemma highest_on_axis_from_one (lattice : Lattice Q) (min_dspacing : Q)
    (i k fuel : nat) :
  (∀ j : nat, (j < k)%nat →
     min_dspacing < spacing rnorm lattice i (inject_Z (Z.of_nat j + 1))) →
  spacing rnorm lattice i (inject_Z (Z.of_nat k + 1)) <= min_dspacing →
  highest_on_axis rnorm fuel lattice min_dspacing i (of_Z 1)
  = if decide (k ≤ fuel)%nat then Some (Z.of_nat k) else None.
Proof.
  intros Hbefore Hat. change (of_Z 1) with (inject_Z 1).
  rewrite (highest_on_axis_first lattice min_dspacing i k).
  - destruct (decide _); [|done]. f_equal. lia.
  - intros j Hj. rewrite Z.add_comm. by apply Hbefore.
  - rewrite Z.add_comm. by apply Hat.
Qed.

(** An axis on which every index has a spacing above [min_dspacing]: the
    loop does not end. *)
Lemma highest_on_axis_endless (lattice : Lattice Q) (min_dspacing : Q) (i : nat) :
  ∀ (fuel : nat) (a : Z),
    (∀ j : nat,
       min_dspacing < spacing rnorm lattice i (inject_Z (a + Z.of_nat j))) →
    highest_on_axis rnorm fuel lattice min_dspacing i (inject_Z a) = None.
Proof.
  induction fuel as [|fuel IH]; intros a Hall;
    pose proof (Hall 0%nat) as H0; rewrite Z.add_0_r in H0;
    apply ltb_Qlt in H0; cbn [highest_on_axis]; rewrite H0; [done|].
  change (add (inject_Z a) (of_Z 1)) with (inject_Z a + inject_Z 1).
  rewrite inject_Z_succ. apply IH. intros j.
  replace (a + 1 + Z.of_nat j)%Z with (a + Z.of_nat (S j))%Z by lia.
  apply Hall.
Qed.

(** X14: on rationals, [_get_highest_hkl] returns on each axis the number of
    leading indices 1, 2, ... of that axis whose spacing exceeds
    [min_dspacing]: with [k_i] such indices before the first index whose
    spacing does not exceed it, the result is [k_0, k_1, k_2] as soon as every
    loop is given that many iterations, and no result with fewer; and when
    on some axis every index has a spacing above [min_dspacing], there is
    no result, however many iterations are given. *)
Theorem highest_hkl_counts_spacings (lattice : Lattice Q) (min_dspacing : Q) :
  (∀ (k : nat → nat) (fuel : nat),
     (∀ i j : nat, (i < 3)%nat → (j < k i)%nat →
        min_dspacing < spacing rnorm lattice i (inject_Z (Z.of_nat j + 1))) →
     (∀ i : nat, (i < 3)%nat →
        spacing rnorm lattice i (inject_Z (Z.of_nat (k i) + 1)) <= min_dspacing) →
     _get_highest_hkl rnorm fuel lattice min_dspacing
     = if decide (k 0%nat ≤ fuel ∧ k 1%nat ≤ fuel ∧ k 2%nat ≤ fuel)%nat
       then Some [Z.of_nat (k 0%nat); Z.of_nat (k 1%nat); Z.of_nat (k 2%nat)]
       else None)
  ∧ (∀ i : nat, (i < 3)%nat →
       (∀ j : nat,
          min_dspacing < spacing rnorm lattice i (inject_Z (Z.of_nat j + 1))) →
       ∀ fuel : nat, _get_highest_hkl rnorm fuel lattice min_dspacing = None).
Proof.
  split.
  - intros k fuel Hbefore Hat. unfold _get_highest_hkl.
    rewrite (highest_on_axis_from_one lattice min_dspacing 0 (k 0%nat)),
      (highest_on_axis_from_one lattice min_dspacing 1 (k 1%nat)),
      (highest_on_axis_from_one lattice min_dspacing 2 (k 2%nat))
      by (first [intros j Hj; apply Hbefore | apply Hat]; lia).
    destruct (decide (k 0%nat ≤ fuel)%nat), (decide (k 1%nat ≤ fuel)%nat),
      (decide (k 2%nat ≤ fuel)%nat); simpl;
      first [by rewrite decide_True by lia | by rewrite decide_False by lia].
  - intros i Hi Hall fuel. unfold _get_highest_hkl.
    assert (highest_on_axis rnorm fuel lattice min_dspacing i (of_Z 1) = None)
      as Hnone.
    { change (of_Z 1) with (inject_Z 1). apply highest_on_axis_endless.
      intros j. rewrite Z.add_comm. apply Hall. }
    destruct i as [|[|[|i]]]; [| | |lia].
    + by rewrite Hnone.
    + rewrite Hnone. by destruct (highest_on_axis rnorm fuel lattice _ 0 _).
    + rewrite Hnone.
      by destruct (highest_on_axis rnorm fuel lattice _ 0 _),
        (highest_on_axis rnorm fuel lattice _ 1 _).
Qed.

(** X15: on rationals, [from_min_dspacing] fails on the missing structure
    when no phase is given; it raises the [ValueError] of the index
    generator when [min_dspacing] is not below the spacing of any of the
    planes (100), (010) and (001), the highest indices then being all zero;
    and otherwise, once the loops end, it returns a batch in format hkl
    with the phase, which holds the unique vectors of the indices generated
    from the highest indices, and leaves the arrays of the store as they
    are. *)
Theorem from_min_dspacing_behaviour (fuel : nat) (min_dspacing : Q)
    (h : gmap nat (list (vec3 Q))) :
  from_min_dspacing rnorm fuel None min_dspacing h
  = Some (Raise (AttributeError "structure"))
  ∧ (∀ p : Phase,
      (∀ i : nat, (i < 3)%nat →
         spacing rnorm (structure_lattice p) i (inject_Z 1) <= min_dspacing) →
      from_min_dspacing rnorm fuel (Some p) min_dspacing h
      = Some (Raise (ValueError msg_highest)))
  ∧ (∀ (p : Phase) (k : nat → nat),
      (∀ i j : nat, (i < 3)%nat → (j < k i)%nat →
         min_dspacing
         < spacing rnorm (structure_lattice p) i (inject_Z (Z.of_nat j + 1))) →
      (∀ i : nat, (i < 3)%nat →
         spacing rnorm (structure_lattice p) i (inject_Z (Z.of_nat (k i) + 1))
         <= min_dspacing) →
      (k 0%nat ≤ fuel ∧ k 1%nat ≤ fuel ∧ k 2%nat ≤ fuel)%nat →
      (0 < k 0%nat + k 1%nat + k 2%nat)%nat →
      ∃ (idx : list (list Z)) (rows : list (vec3 Q)) (m : Miller) h',
        _get_indices_from_highest
          [Z.of_nat (k 0%nat); Z.of_nat (k 1%nat); Z.of_nat (k 2%nat)] = Ok idx
        ∧ mapR as_vec3 idx = Ok rows
        ∧ from_min_dspacing rnorm fuel (Some p) min_dspacing h = Some (Ok (m, h'))
        ∧ coordinate_format m = "hkl" ∧ phase m = Some p
        ∧ h' !!! data m
          = (Vector3d_unique (_hkl2xyz rows (structure_lattice p))).1
        ∧ ∀ l, is_Some (h !! l) → h' !! l = h !! l).
Proof.
  split; [done|]. split.
  - intros p Hat. unfold from_min_dspacing, _get_highest_hkl.
    rewrite !(highest_on_axis_from_one _ min_dspacing _ 0)
      by (first [intros j Hj; lia | apply Hat; lia]).
    rewrite decide_True by lia. done.
  - intros p k Hbefore Hat Hfuel Hk. unfold from_min_dspacing, _get_highest_hkl.
    rewrite (highest_on_axis_from_one _ min_dspacing 0 (k 0%nat)),
      (highest_on_axis_from_one _ min_dspacing 1 (k 1%nat)),
      (highest_on_axis_from_one _ min_dspacing 2 (k 2%nat))
      by (first [intros j Hj; apply Hbefore | apply Hat]; lia).
    rewrite !decide_True by lia. simpl.
    set (hi := [Z.of_nat (k 0%nat); Z.of_nat (k 1%nat); Z.of_nat (k 2%nat)]).
    assert (∃ idx, _get_indices_from_highest hi = Ok idx) as [idx Hidx].
    { eexists. apply indices_valid_ok.
      - repeat constructor; lia.
      - destruct (k 0%nat) eqn:E0; [destruct (k 1%nat) eqn:E1|].
        + apply Exists_cons_tl, Exists_cons_tl, Exists_cons_hd. lia.
        + apply Exists_cons_tl, Exists_cons_hd. lia.
        + apply Exists_cons_hd. lia. }
    destruct (mapR_as_vec3 (A := Q) idx) as (rows & Hrows & _).
    { eapply Forall_impl; [by apply indices_rows_length|].
      simpl. intros row ->. done. }
    exists idx, rows. unfold bind, ret, lift. rewrite Hidx. simpl.
    unfold init_from_indices. rewrite Hrows.
    rewrite bool_decide_eq_false_2 by done. rewrite Miller_init_hkl.
    unfold Miller_unique, bind, read, alloc, ret. simpl.
    rewrite lookup_total_insert_eq.
    destruct (Vector3d_unique _) as [v i] eqn:Eu. simpl.
    eexists _, _. split; [done|]. split; [done|]. split; [done|]. simpl.
    split; [done|]. split; [done|]. split.
    + by rewrite lookup_total_insert_eq.
    + intros l Hl. rewrite lookup_alloc.
      * by apply lookup_alloc.
      * rewrite lookup_alloc; done.
Qed.
End HighestFacts.

Section HighestWitnesses.
Import Rational.

Lemma monoclinic_spacings_before (i j : nat) :
  (i < 3)%nat → (j < axis_counts i)%nat →
  (1 # 2 < spacing axial_rnorm monoclinic i (inject_Z (Z.of_nat j + 1)))%Q.
Proof.
  intros Hi Hj. destruct i as [|[|[|i]]]; [| | |lia];
    repeat (destruct j as [|j]; [reflexivity|]); simpl in Hj; lia.
Qed.

Lemma monoclinic_spacings_at (i : nat) :
  (i < 3)%nat →
  (spacing axial_rnorm monoclinic i (inject_Z (Z.of_nat (axis_counts i) + 1))
   <= 1 # 2)%Q.
Proof.
  intros Hi. destruct i as [|[|[|i]]]; [| | |lia]; by vm_compute.
Qed.

Lemma highest_hkl_counts_spacings_witness :
  _get_highest_hkl axial_rnorm 5 monoclinic (1 # 2) = Some [1; 3; 5]%Z.
Proof.
  rewrite (proj1 (highest_hkl_counts_spacings axial_rnorm monoclinic (1 # 2))
             axis_counts 5).
  - reflexivity.
  - apply monoclinic_spacings_before.
  - apply monoclinic_spacings_at.
Defined.

Lemma from_min_dspacing_behaviour_witness :
  ∃ (idx : list (list Z)) (rows : list (vec3 Q)) (m : Miller) h',
    _get_indices_from_highest [1; 3; 5]%Z = Ok idx
    ∧ mapR as_vec3 idx = Ok rows
    ∧ from_min_dspacing axial_rnorm 5 (Some phase2) (1 # 2) ∅ = Some (Ok (m, h'))
    ∧ coordinate_format m = "hkl" ∧ phase m = Some phase2
    ∧ h' !!! data m
      = (Vector3d_unique (_hkl2xyz rows (structure_lattice phase2))).1
    ∧ ∀ l, is_Some ((∅ : gmap nat (list (vec3 Q))) !! l) → h' !! l = (∅ : gmap nat (list (vec3 Q))) !! l.
Proof.
  apply (proj2 (proj2 (from_min_dspacing_behaviour axial_rnorm 5 (1 # 2) ∅))
           phase2 axis_counts).
  - apply monoclinic_spacings_before.
  - apply monoclinic_spacings_at.
  - simpl. lia.
  - simpl. lia.
Defined.
End HighestWitnesses.

(** ** The Euler angle sampler *)

Section EulerFacts.
Local Open Scope R_scope.

Lemma elem_of_euler_grid {X} (alpha : list R) (beta : list X) (gamma : list R)
    (a : R) (b : X) (g : R) :
  (a, b, g) ∈ euler_grid alpha beta gamma ↔ a ∈ alpha ∧ b ∈ beta ∧ g ∈ gamma.
Proof.
  unfold euler_grid. rewrite list_elem_of_bind. split.
  - intros (g' & (a' & (b' & Hr & Hb)%list_elem_of_bind & Ha)%list_elem_of_bind & Hg).
    apply list_elem_of_singleton in Hr. by injection Hr as -> -> ->.
  - intros (Ha & Hb & Hg). exists g. split; [|done].
    apply list_elem_of_bind. exists a. split; [|done].
    apply list_elem_of_bind. exists b. split; [|done].
    by apply list_elem_of_singleton.
Qed.

Lemma NoDup_euler_grid {X} (alpha : list R) (beta : list X) (gamma : list R) :
  NoDup alpha → NoDup beta → NoDup gamma → NoDup (euler_grid alpha beta gamma).
Proof.
  intros Ha Hb Hg. unfold euler_grid. apply NoDup_bind; [| |done].
  - intros g1 g2 [[a b] g] _ _ H1 H2.
    apply list_elem_of_bind in H1 as (a1 & (b1 & E1%list_elem_of_singleton & _)%list_elem_of_bind & _).
    apply list_elem_of_bind in H2 as (a2 & (b2 & E2%list_elem_of_singleton & _)%list_elem_of_bind & _).
    congruence.
  - intros g _. apply NoDup_bind; [| |done].
    + intros a1 a2 [[a b] g'] _ _
        (b1 & E1%list_elem_of_singleton & _)%list_elem_of_bind
        (b2 & E2%list_elem_of_singleton & _)%list_elem_of_bind.
      congruence.
    + intros a _. apply NoDup_bind; [| |done].
      * intros b1 b2 y _ _ E1%list_elem_of_singleton E2%list_elem_of_singleton.
        congruence.
      * intros b _. apply NoDup_singleton.
Qed.

Lemma length_euler_grid {X} (alpha : list R) (beta : list X) (gamma : list R) :
  length (euler_grid alpha beta gamma)
  = (length gamma * (length alpha * length beta))%nat.
Proof.
  unfold euler_grid. apply length_bind_const. intros g.
  apply length_bind_const. intros a.
  rewrite (length_bind_const _ _ 1%nat); [lia|done].
Qed.

(** The points of [np.linspace(start, stop, num, endpoint=False)]: there
    are [num] of them, all different, each of the form
    [start + t (stop - start)] with [0 <= t < 1]. *)
Lemma linspace_open_points (start stop : R) (num : Z) :
  (0 <= num)%Z → start ≠ stop →
  ∃ u, linspace_open start stop num = Ok u
       ∧ length u = Z.to_nat num
       ∧ NoDup u
       ∧ Forall (λ x, ∃ t, 0 <= t < 1 ∧ x = start + t * (stop - start)) u.
Proof.
  intros Hnum Hne. unfold linspace_open. rewrite decide_False by lia.
  eexists. split; [done|]. split; [by rewrite length_fmap, length_seq|].
  destruct (decide (num = 0%Z)) as [->|Hpos]; [split; constructor|].
  assert (0 < IZR num) as Hd by (apply IZR_lt; lia).
  split.
  - apply NoDup_fmap_2_strong; [|apply NoDup_seq].
    intros i j _ _ E. apply INR_eq.
    apply Rplus_eq_reg_l in E. apply Rmult_eq_reg_r in E; [done|].
    intros E0. apply Hne.
    apply Rmult_integral in E0 as [E0|E0]; [lra|].
    pose proof (Rinv_0_lt_compat _ Hd). lra.
  - apply Forall_fmap, Forall_forall. intros i [_ Hi]%elem_of_seq. simpl in *.
    exists (INR i / IZR num). split; [|field; lra].
    assert (0 <= INR i) by apply pos_INR.
    assert (INR i < IZR num) as Hlt.
    { rewrite INR_IZR_INZ. apply IZR_lt. lia. }
    split.
    + apply Rmult_le_pos; [done|]. left. by apply Rinv_0_lt_compat.
    + apply Rmult_lt_reg_r with (IZR num); [done|].
      replace (INR i / IZR num * IZR num) with (INR i) by (field; lra). lra.
Qed.

Lemma np_arccos_interior (x : R) :
  -1 < x <= 1 → ∃ b, np_arccos x = Some b ∧ 0 <= b < PI ∧ cos b = x.
Proof.
  intros [Hlo Hhi]. unfold np_arccos.
  rewrite !decide_True by lra. exists (acos x).
  destruct (acos_bound x) as [H0 HPI].
  pose proof (cos_acos x ltac:(lra)) as Hcos.
  split; [done|]. split; [|done]. split; [done|].
  destruct HPI as [Hlt|E]; [done|]. rewrite E, cos_PI in Hcos. lra.
Qed.

Lemma even_steps_spec (n : Z) :
  (1 <= n)%Z →
  ∃ half : Z, (1 <= half)%Z ∧ even_steps n = (2 * half)%Z
              ∧ (even_steps n ÷ 2 = half)%Z
              ∧ (n <= even_steps n <= n + 1)%Z.
Proof.
  intros Hn. unfold even_steps.
  pose proof (Z.div_mod n 2 ltac:(lia)) as Hdm.
  pose proof (Z.mod_pos_bound n 2 ltac:(lia)) as Hb.
  case_decide as Hodd.
  - exists (n `div` 2 + 1)%Z. split; [|split; [|split]]; try lia.
    replace (n + 1)%Z with ((n `div` 2 + 1) * 2)%Z by lia.
    rewrite Z.quot_mul by lia. done.
  - exists (n `div` 2)%Z. split; [|split; [|split]]; try lia.
    replace n with ((n `div` 2) * 2)%Z at 1 by lia.
    rewrite Z.quot_mul by lia. done.
Qed.

(** X16: for a resolution whose step count [n], as binary64 computes
    [int(np.ceil(360 / resolution))], is at least 1, the old method uses
    the even number [2 half] among [n] and [n + 1] and hands
    [2 half * 2 half * half] rows of Euler angles to the conversion, all
    different: over the reals, the first and third angle lie in [0, 2 pi)
    and the second, an arccosine that is always a number, in [0, pi). *)
Theorem euler_angles_in_bunge_domain (resolution : float) (n : Z) :
  num_steps resolution = Some n → (1 <= n)%Z →
  ∃ (half : Z) (rows : list (R * option R * R)),
    (1 <= half)%Z
    ∧ (n <= 2 * half <= n + 1)%Z
    ∧ euler_angles n = Ok rows
    ∧ (∀ Rotation_unique Rotation_from_euler,
         uniform_SO3_sample Rotation_unique Rotation_from_euler
           resolution None true
         = Some (Ok (Rotation_unique (Rotation_from_euler rows))))
    ∧ Z.of_nat (length rows) = (2 * half * (2 * half) * half)%Z
    ∧ NoDup rows
    ∧ Forall (λ '(a, b, g), 0 <= a < 2 * PI
                            ∧ (∃ b', b = Some b' ∧ 0 <= b' < PI)
                            ∧ 0 <= g < 2 * PI) rows.
Proof.
  intros Hsteps Hpos.
  destruct (even_steps_spec n Hpos) as (half & Hhalf & Hn & Hq & Hceil).
  pose proof PI_RGT_0 as HPI.
  destruct (linspace_open_points 0 (2 * PI) (2 * half)) as (ang & Ea & La & Na & Ra);
    [lia|lra|].
  destruct (linspace_open_points 1 (-1) half) as (cs & Ec & Lc & Nc & Rc);
    [lia|lra|].
  exists half, (euler_grid ang (np_arccos <$> cs) ang).
  split; [done|]. split; [lia|].
  assert (Forall (λ x, -1 < x <= 1) cs) as Hcs.
  { eapply Forall_impl; [exact Rc|]. simpl. intros x (t & [Ht0 Ht1] & ->). lra. }
  rewrite Forall_forall in Hcs.
  assert (euler_angles n = Ok (euler_grid ang (np_arccos <$> cs) ang))
    as Hrows.
  { unfold euler_angles. rewrite Hq, Hn, Ea. simpl. rewrite Ec. done. }
  split; [done|]. split; [|split; [|split]].
  - intros Ru Rf. unfold uniform_SO3_sample. simpl. rewrite Hsteps. simpl.
    unfold _euler_angles_steps. by rewrite Hrows.
  - rewrite length_euler_grid, length_fmap, La, Lc. lia.
  - apply NoDup_euler_grid; [done| |done].
    apply NoDup_fmap_2_strong; [|done].
    intros x y Hx Hy E.
    destruct (np_arccos_interior x (Hcs x Hx)) as (b & Eb & _ & Hcb).
    destruct (np_arccos_interior y (Hcs y Hy)) as (c & Ecy & _ & Hcc).
    rewrite Eb, Ecy in E. injection E as ->. by rewrite <- Hcb, <- Hcc.
  - apply Forall_forall. intros [[a b] g] (Ha & Hb & Hg)%elem_of_euler_grid.
    rewrite Forall_forall in Ra.
    split; [|split].
    + destruct (Ra a Ha) as (t & [Ht0 Ht1] & ->). nra.
    + apply list_elem_of_fmap in Hb as (x & -> & Hx).
      destruct (np_arccos_interior x (Hcs x Hx)) as (b & Eb & Hb & _).
      by exists b.
    + destruct (Ra g Hg) as (t & [Ht0 Ht1] & ->). nra.
Qed.

(** At the resolution 0.3, the float [0x1.3333333333333p-2], the quotient
    [360 / 0.3] is the float 1200, and the step count 1200. *)
Lemma euler_angles_in_bunge_domain_witness :
  num_steps 0x1.3333333333333p-2%float = Some 1200%Z
  ∧ ∃ (half : Z) (rows : list (R * option R * R)),
      (1 <= half)%Z
      ∧ (1200 <= 2 * half <= 1200 + 1)%Z
      ∧ euler_angles 1200 = Ok rows
      ∧ (∀ Rotation_unique Rotation_from_euler,
           uniform_SO3_sample Rotation_unique Rotation_from_euler
             0x1.3333333333333p-2%float None true
           = Some (Ok (Rotation_unique (Rotation_from_euler rows))))
      ∧ Z.of_nat (length rows) = (2 * half * (2 * half) * half)%Z
      ∧ NoDup rows
      ∧ Forall (λ '(a, b, g), 0 <= a < 2 * PI
                              ∧ (∃ b', b = Some b' ∧ 0 <= b' < PI)
                              ∧ 0 <= g < 2 * PI) rows.
Proof.
  assert (num_steps 0x1.3333333333333p-2%float = Some 1200%Z) as Hsteps by (by vm_compute).
  split; [exact Hsteps|].
  apply (euler_angles_in_bunge_domain 0x1.3333333333333p-2%float 1200 Hsteps). lia.
Defined.
End EulerFacts.

(** ** The dispatch of [uniform_SO3_sample] and the sampled half turns *)

Section DispatchFacts.
Local Open Scope R_scope.
Variable Rotation_unique : list quat → list quat.
Variable Rotation_from_euler : list (R * option R * R) → list quat.

Lemma linspace_raises (start stop : R) (num : Z) :
  linspace start stop num
  = if decide (num < 0)%Z
    then Raise (ValueError "Number of samples must be non-negative")
    else Ok ((λ i : nat, start + INR i * ((stop - start) / (IZR num - 1)))
               <$> seq 0 (Z.to_nat num)).
Proof. unfold linspace. by case_decide. Qed.

(** [sample_axes] is [sample_axes_steps] at the ceiling taken over the
    reals. *)
Lemma sample_axes_ceil (resolution : R) (max_angle : option R) :
  sample_axes resolution max_angle
  = sample_axes_steps (ceil (360 / resolution)) max_angle.
Proof. reflexivity. Qed.

Lemma sample_axes_outcome (n : Z) (max_angle : option R) :
  if decide (n < 0)%Z
  then sample_axes_steps n max_angle
       = Raise (ValueError "Number of samples must be non-negative")
  else is_ok (sample_axes_steps n max_angle) = true.
Proof.
  unfold sample_axes_steps.
  destruct max_angle as [max_angle|].
  - destruct (restricted_counts_ge_2 n max_angle) as [H1 H2].
    destruct (restricted_counts n max_angle) as [n1 n2]. simpl in H1, H2.
    rewrite !linspace_raises.
    destruct (decide (n1 < 0)%Z); [lia|]. destruct (decide (n2 < 0)%Z); [lia|].
    simpl. by case_decide.
  - rewrite !linspace_raises. by case_decide.
Qed.

Lemma euler_angles_outcome (n : Z) :
  if decide (n < -1)%Z
  then euler_angles n
       = Raise (ValueError "Number of samples must be non-negative")
  else is_ok (euler_angles n) = true.
Proof.
  unfold euler_angles, linspace_open.
  assert ((even_steps n < 0)%Z ↔ (n < -1)%Z) as Hneg.
  { unfold even_steps.
    pose proof (Z.div_mod n 2 ltac:(lia)) as Hdm.
    pose proof (Z.mod_pos_bound n 2 ltac:(lia)) as Hb.
    case_decide; lia. }
  set (e := even_steps n) in *.
  destruct (decide (n < -1)%Z) as [Hlt|Hge].
  - by rewrite decide_True by (by apply Hneg).
  - assert (0 <= e)%Z as He by lia.
    rewrite decide_False by lia. simpl.
    assert (0 <= e ÷ 2)%Z by (apply Z.quot_pos; lia).
    rewrite decide_False by lia. done.
Qed.

(** X17: with a [max_angle] that is a number and conversions of the
    quaternion module that do not fail, [uniform_SO3_sample] raises its own
    [ValueError] when [max_angle] is given together with [old_method],
    before the step count is computed; otherwise it raises what the step
    count raises, if it does; and with the step count [n] computed it
    fails exactly when [n < 0] in the new method or [n < -1] in the old
    one, then with the [ValueError] of [np.linspace]. *)
Theorem uniform_SO3_sample_errors (resolution : float) (max_angle : option R)
    (old_method : bool) :
  (is_Some max_angle ∧ old_method = true →
   uniform_SO3_sample Rotation_unique Rotation_from_euler
     resolution max_angle old_method
   = Some (Raise (ValueError msg_old_method)))
  ∧ (¬ (is_Some max_angle ∧ old_method = true) →
     num_steps resolution = None →
     uniform_SO3_sample Rotation_unique Rotation_from_euler
       resolution max_angle old_method = None)
  ∧ (¬ (is_Some max_angle ∧ old_method = true) →
     ∀ n : Z, num_steps resolution = Some n →
       ∃ r, uniform_SO3_sample Rotation_unique Rotation_from_euler
              resolution max_angle old_method = Some r
            ∧ (is_ok r = false
               ↔ (old_method = false ∧ (n < 0)%Z)
                 ∨ (old_method = true ∧ (n < -1)%Z))
            ∧ ∀ e, r = Raise e → ∃ msg, e = ValueError msg).
Proof.
  unfold uniform_SO3_sample. split; [|split].
  - intros [Hma ->]. by rewrite bool_decide_eq_true_2.
  - intros Hnot Hnone.
    assert (bool_decide (is_Some max_angle) && old_method = false) as ->.
    { destruct old_method; [|by rewrite andb_false_r].
      rewrite andb_true_r. apply bool_decide_eq_false_2. tauto. }
    by rewrite Hnone.
  - intros Hnot n Hn.
    assert (bool_decide (is_Some max_angle) && old_method = false) as ->.
    { destruct old_method; [|by rewrite andb_false_r].
      rewrite andb_true_r. apply bool_decide_eq_false_2. tauto. }
    rewrite Hn. simpl. eexists. split; [done|].
    pose proof (sample_axes_outcome n max_angle) as Hnew.
    pose proof (euler_angles_outcome n) as Hold.
    destruct old_method.
    + unfold _euler_angles_steps.
      destruct (decide (n < -1)%Z) as [Hlt|Hge].
      * rewrite Hold. simpl. split; [|intros e [= <-]; eauto].
        split; [|done]. intros _. by right.
      * destruct (euler_angles n); [|done]. simpl.
        split; [|done]. split; [done|].
        intros [[[=] _]|[_ ?]]. lia.
    + unfold _three_uniform_samples_steps.
      destruct (decide (n < 0)%Z) as [Hlt|Hge].
      * rewrite Hnew. simpl. split; [|intros e [= <-]; eauto].
        split; [|done]. intros _. by left.
      * destruct (sample_axes_steps n max_angle) as [[[u1 u2] u3]|]; [|done].
        simpl. split; [|done]. split; [done|].
        intros [[_ ?]|[[=] _]]. lia.
Qed.
End DispatchFacts.

(** At the resolution -2 the step count is -180. *)
Lemma uniform_SO3_sample_errors_witness :
  num_steps (-2)%float = Some (-180)%Z
  ∧ ∃ r, uniform_SO3_sample (λ l, l) (λ _, []) (-2)%float None false = Some r
         ∧ (is_ok r = false
            ↔ (false = false ∧ (-180 < 0)%Z) ∨ (false = true ∧ (-180 < -1)%Z))
         ∧ ∀ e, r = Raise e → ∃ msg, e = ValueError msg.
Proof.
  assert (num_steps (-2)%float = Some (-180)%Z) as Hsteps by (by vm_compute).
  split; [exact Hsteps|].
  apply (uniform_SO3_sample_errors (λ l, l) (λ _, []) (-2)%float None false).
  - intros [_ [=]].
  - exact Hsteps.
Defined.

Section HalfTurnFacts.
Local Open Scope R_scope.

Lemma elem_of_meshgrid_2 (u_1 u_2 u_3 : list R) (x y z : R) :
  x ∈ u_1 → y ∈ u_2 → z ∈ u_3 → (x, y, z) ∈ meshgrid u_1 u_2 u_3.
Proof.
  intros Hx Hy Hz. unfold meshgrid.
  apply list_elem_of_bind. exists y. split; [|done].
  apply list_elem_of_bind. exists x. split; [|done].
  apply list_elem_of_bind. exists z. split; [|done].
  by apply list_elem_of_singleton.
Qed.

Lemma length_meshgrid (u_1 u_2 u_3 : list R) :
  length (meshgrid u_1 u_2 u_3) = (length u_2 * (length u_1 * length u_3))%nat.
Proof.
  unfold meshgrid. apply length_bind_const. intros y.
  apply length_bind_const. intros x.
  rewrite (length_bind_const _ _ 1%nat); [lia|done].
Qed.

(** The first point of [np.linspace] is [start], and with at least two
    points the last one is [stop]. *)
Lemma linspace_first (start stop : R) (num : Z) :
  (1 <= num)%Z →
  ∃ u, linspace start stop num = Ok u ∧ length u = Z.to_nat num ∧ start ∈ u.
Proof.
  intros Hnum. rewrite linspace_raises, decide_False by lia.
  eexists. split; [done|]. split; [by rewrite length_fmap, length_seq|].
  apply list_elem_of_fmap. exists 0%nat. split; [simpl; lra|].
  apply elem_of_seq. lia.
Qed.

Lemma linspace_last (start stop : R) (num : Z) :
  (2 <= num)%Z →
  ∃ u, linspace start stop num = Ok u ∧ length u = Z.to_nat num ∧ stop ∈ u.
Proof.
  intros Hnum. rewrite linspace_raises, decide_False by lia.
  eexists. split; [done|]. split; [by rewrite length_fmap, length_seq|].
  apply list_elem_of_fmap. exists (Z.to_nat (num - 1)). split.
  - rewrite INR_IZR_INZ, Z2Nat.id by lia. rewrite minus_IZR.
    assert (1 < IZR num) by (apply IZR_lt; lia). field. lra.
  - apply elem_of_seq. lia.
Qed.

(** X18: for a resolution whose step count [n], as binary64 computes
    it, is at least 1, and whatever [max_angle] is, the axis [u_2] of the
    new method holds its end point 1 when [max_angle] is given (0 when it
    is not), so the sample, before duplicates are removed, holds the
    quaternions built from it; their scalar part is
    [sqrt(1 - u_1) sin(2 pi u_2)], which is 0 in exact arithmetic, a
    rotation by a half turn: [max_angle] does not bound the angles of the
    sampled rotations.  Without [max_angle] the method builds [n] cubed
    quaternions. *)
Theorem three_uniform_samples_half_turn
    (Rotation_unique : list quat → list quat)
    (Rotation_from_euler : list (R * option R * R) → list quat)
    (resolution : float) (n : Z) (max_angle : option R) :
  num_steps resolution = Some n → (1 <= n)%Z →
  ∃ (u_1 u_2 u_3 : list R) (x z : R),
    sample_axes_steps n max_angle = Ok (u_1, u_2, u_3)
    ∧ uniform_SO3_sample Rotation_unique Rotation_from_euler
        resolution max_angle false
      = Some (Ok (Rotation_unique (shoemake <$> meshgrid u_1 u_2 u_3)))
    ∧ x ∈ u_1 ∧ (if max_angle is Some _ then 1 else 0) ∈ u_2 ∧ z ∈ u_3
    ∧ shoemake (x, if max_angle is Some _ then 1 else 0, z)
      ∈ shoemake <$> meshgrid u_1 u_2 u_3
    ∧ quat_a (shoemake (x, if max_angle is Some _ then 1 else 0, z))
      = sqrt (1 - x) * sin (2 * PI * (if max_angle is Some _ then 1 else 0))
    ∧ quat_a (shoemake (x, if max_angle is Some _ then 1 else 0, z)) = 0
    ∧ (max_angle = None →
       Z.of_nat (length (shoemake <$> meshgrid u_1 u_2 u_3)) = (n ^ 3)%Z).
Proof.
  intros Hsteps Hn.
  destruct (linspace_first 0 1 n Hn) as (u3 & E3 & L3 & H3).
  assert (∃ u1 u2 x,
             sample_axes_steps n max_angle = Ok (u1, u2, u3)
             ∧ x ∈ u1 ∧ (if max_angle is Some _ then 1 else 0) ∈ u2
             ∧ sin (2 * PI * (if max_angle is Some _ then 1 else 0)) = 0
             ∧ (max_angle = None
                → length u1 = Z.to_nat n ∧ length u2 = Z.to_nat n))
    as (u1 & u2 & x & Haxes & Hx & Hy & Hsin & Hlen).
  { unfold sample_axes_steps. destruct max_angle as [max_angle|].
    - destruct (restricted_counts_ge_2 n max_angle) as [H1 H2].
      destruct (restricted_counts n max_angle) as [n1 n2]. simpl in H1, H2.
      destruct (linspace_first 0 (1 - Rsqr (cos (deg2rad (max_angle / 2)))) n1)
        as (u1 & E1 & _ & Hx); [lia|].
      destruct (linspace_last (asin (cos (deg2rad (max_angle / 2))) / 2 / PI) 1 n2)
        as (u2 & E2 & _ & Hy); [lia|].
      exists u1, u2, 0. rewrite E1. simpl. rewrite E2. simpl. rewrite E3.
      split; [done|]. split; [done|]. split; [done|].
      split; [|done]. rewrite Rmult_1_r. apply sin_2PI.
    - exists u3, u3, 0. rewrite E3. simpl.
      split; [done|]. split; [done|]. split; [done|].
      split; [|done]. rewrite Rmult_0_r. apply sin_0. }
  exists u1, u2, u3, x, 0.
  split; [done|]. split.
  { unfold uniform_SO3_sample. rewrite andb_false_r, Hsteps. simpl.
    unfold _three_uniform_samples_steps. by rewrite Haxes. }
  split; [done|]. split; [done|]. split; [done|]. split.
  { apply list_elem_of_fmap_2. by apply elem_of_meshgrid_2. }
  split; [done|]. split.
  { simpl. rewrite Hsin. ring. }
  intros Hnone. destruct (Hlen Hnone) as [L1 L2].
  rewrite length_fmap, length_meshgrid, L1, L2, L3. lia.
Qed.

(** At the resolution 0.3, the float [0x1.3333333333333p-2], the step count
    is 1200, not the 1201 of the ceiling of the quotient over the reals. *)
Lemma three_uniform_samples_half_turn_witness :
  num_steps 0x1.3333333333333p-2%float = Some 1200%Z
  ∧ ∃ (u_1 u_2 u_3 : list R) (x z : R),
      sample_axes_steps 1200 None = Ok (u_1, u_2, u_3)
      ∧ uniform_SO3_sample (λ l, l) (λ _, []) 0x1.3333333333333p-2%float None false
        = Some (Ok (shoemake <$> meshgrid u_1 u_2 u_3))
      ∧ x ∈ u_1 ∧ 0%R ∈ u_2 ∧ z ∈ u_3
      ∧ shoemake (x, 0%R, z) ∈ shoemake <$> meshgrid u_1 u_2 u_3
      ∧ quat_a (shoemake (x, 0%R, z)) = (sqrt (1 - x) * sin (2 * PI * 0))%R
      ∧ quat_a (shoemake (x, 0%R, z)) = 0%R
      ∧ (None = None :> option R →
         Z.of_nat (length (shoemake <$> meshgrid u_1 u_2 u_3)) = (1200 ^ 3)%Z).
Proof.
  assert (num_steps 0x1.3333333333333p-2%float = Some 1200%Z) as Hsteps by (by vm_compute).
  split; [exact Hsteps|].
  apply (three_uniform_samples_half_turn (λ l, l) (λ _, []) 0x1.3333333333333p-2%float 1200 None
           Hsteps).
  lia.
Defined.
End HalfTurnFacts.

(** ** Local grids of other widths *)

Section LocalGridWidths.
Local Open Scope R_scope.
Variable create_equispaced_grid : R → list quat.
Variable Rotation_mul : quat → quat → quat.

Lemma cos_1_lower : 1 / 2 <= cos 1.
Proof.
  pose proof PI2_3_2 as HPI. pose proof PI_4 as HPI4.
  rewrite <- cos_PI3. apply cos_decr_1; lra.
Qed.

Lemma arccos_beyond_scalar_parts (x : R) : -1 <= x <= cos 1 → 1 <= acos x.
Proof.
  intros [Hlo Hhi]. pose proof cos_1_lower as H1.
  pose proof (COS_bound 1) as [_ Hc1].
  destruct (acos_bound x) as [Ha0 HaPI].
  destruct (Rle_or_lt 1 (acos x)) as [|Hlt]; [done|]. exfalso.
  pose proof PI2_3_2 as HPI.
  assert (cos 1 < cos (acos x)) as Hcos by (apply cos_decreasing_1; lra).
  rewrite cos_acos in Hcos by lra. lra.
Qed.

Lemma arccos_below_one (x : R) : cos 1 < x <= 1 → acos x < 1.
Proof.
  intros [Hlo Hhi]. pose proof cos_1_lower as H1.
  destruct (acos_bound x) as [Ha0 HaPI].
  destruct (Rle_or_lt 1 (acos x)) as [Hge|]; [|done]. exfalso.
  pose proof PI2_3_2 as HPI.
  assert (cos (acos x) <= cos 1) as Hcos by (apply cos_decr_1; lra).
  rewrite cos_acos in Hcos by lra. lra.
Qed.

Lemma local_grid_empty (resolution : R) (center : option quat) (grid_width : R) :
  Forall (λ q, quat_a q <= 1) (create_equispaced_grid resolution) →
  deg2rad (grid_width / 2) <= cos 1 ∨ 1 < deg2rad (grid_width / 2) →
  get_grid_local create_equispaced_grid Rotation_mul resolution center grid_width
  = [].
Proof.
  intros Hunit Hx. unfold get_grid_local.
  rewrite filter_none; [by destruct center|].
  eapply Forall_impl; [exact Hunit|]. intros q Hq. simpl in Hq.
  unfold np_arccos, gt_nan. set (x := deg2rad (grid_width / 2)) in *.
  destruct (decide (-1 <= x)); [|tauto].
  destruct (decide (x <= 1)); [|tauto].
  destruct Hx as [Hx|Hx]; [|lra].
  pose proof (arccos_beyond_scalar_parts x ltac:(lra)). lra.
Qed.

(** X19: on a grid of quaternions with scalar part at most 1,
    [get_grid_local] returns no rotation unless the half width in radians
    lies between [cos 1] and 1, so for no width up to 45 degrees and none
    from 120 degrees on; for a half width in that range it keeps every
    rotation of the grid with scalar part 1: the rotation itself, or its
    product with the centre, is in the returned grid. *)
Theorem get_grid_local_width_range
    (resolution : R) (center : option quat) (grid_width : R) :
  Forall (λ q, quat_a q <= 1) (create_equispaced_grid resolution) →
  (deg2rad (grid_width / 2) <= cos 1 ∨ 1 < deg2rad (grid_width / 2) →
   get_grid_local create_equispaced_grid Rotation_mul resolution center grid_width
   = [])
  ∧ (grid_width <= 45 ∨ 120 <= grid_width →
     get_grid_local create_equispaced_grid Rotation_mul resolution center grid_width
     = [])
  ∧ (cos 1 < deg2rad (grid_width / 2) <= 1 →
     ∀ q, q ∈ create_equispaced_grid resolution → quat_a q = 1 →
          match center with
          | Some c => Rotation_mul c q
          | None => q
          end ∈ get_grid_local create_equispaced_grid Rotation_mul resolution
                  center grid_width).
Proof.
  intros Hunit. split; [|split].
  - by apply local_grid_empty.
  - intros Hw. apply local_grid_empty; [done|].
    pose proof cos_1_lower as H1. pose proof PI2_3_2 as HPI.
    pose proof PI_4 as HPI4. unfold deg2rad.
    destruct Hw as [Hw|Hw]; [left|right]; nra.
  - intros Hx q Hq Ha. unfold get_grid_local.
    match goal with
    | |- context [filter ?P ?l] => set (kept := filter P l)
    end.
    assert (q ∈ kept) as Hin.
    { apply list_elem_of_filter. split; [|done].
      unfold np_arccos. rewrite !decide_True by (pose proof (COS_bound 1); lra).
      simpl. rewrite Ha. by apply arccos_below_one. }
    destruct center as [c|]; [|done]. by apply list_elem_of_fmap_2.
Qed.
End LocalGridWidths.

Lemma get_grid_local_width_range_witness :
  let grid := λ _ : R, [(1, 0, 0, 0)%R] in
  let mul := λ _ q : quat, q in
  get_grid_local grid mul 2 None 30 = []
  ∧ get_grid_local grid mul 2 None 150 = []
  ∧ (1, 0, 0, 0)%R ∈ get_grid_local grid mul 2 None (360 / PI).
Proof.
  intros grid mul.
  assert (Forall (λ q, (quat_a q <= 1)%R) (grid 2%R)) as Hunit.
  { constructor; [simpl; lra|constructor]. }
  split; [|split].
  - apply (get_grid_local_width_range grid mul 2 None 30 Hunit). left. lra.
  - apply (get_grid_local_width_range grid mul 2 None 150 Hunit). right. lra.
  - apply (get_grid_local_width_range grid mul 2 None (360 / PI) Hunit).
    + assert (deg2rad (360 / PI / 2) = 1%R) as ->.
      { unfold deg2rad. pose proof PI_RGT_0. field. lra. }
      split; [|lra]. pose proof PI2_3_2.
      apply Rlt_le_trans with (cos 0); [apply cos_decreasing_1; lra|].
      rewrite cos_0. lra.
    + constructor.
    + reflexivity.
Defined.

(** ** The rows [Miller.unique] compares under symmetry *)

Section UniqueFacts.
Context {A : Type} `{Num A} `{External A}.
Implicit Types (ops : list Op) (v : list (vec3 A)).

Lemma reshape_lookup (n m r : nat) (x : list (vec3 A)) :
  r < n → reshape n m x !! r = Some (take m (drop (r * m) x)).
Proof.
  revert r x. induction n as [|n IH]; intros r x Hr; [lia|].
  destruct r as [|r]; simpl; [done|].
  rewrite IH by lia. by rewrite drop_drop.
Qed.

Lemma outer_flat_lookup ops v (j i : nat) :
  i < length v →
  concat (outer ops v) !! (j * length v + i)
  = g ← ops !! j; x ← v !! i; Some (act g x).
Proof.
  intros Hi. rewrite lookup_concat_rows; [|by apply Forall_fmap, Forall_forall;
    intros g _; simpl; rewrite length_fmap|done].
  unfold outer. rewrite list_lookup_fmap.
  destruct (ops !! j) as [g|]; simpl; [|done].
  rewrite list_lookup_fmap. by destruct (v !! i).
Qed.

(** X20: with [use_symmetry], [Miller.unique] sorts and compares the rows
    of the operation-major array of equivalent vectors reshaped to one row
    per vector: entry [t] of row [r] is the entry at position
    [r * size + t] of that array, operation [(r * size + t) div n_v]
    applied to vector [(r * size + t) mod n_v], and not operation [t]
    applied to vector [r]; so row 0 starts with the first operation
    applied to the vectors one after the other. *)
Theorem unique_rows_are_slices ops v (r t : nat) :
  r < length v → t < length ops →
  ∃ (row : list (vec3 A)) (g : Op) (x : vec3 A),
    reshape (length v) (length ops) (concat (outer ops v)) !! r = Some row
    ∧ ops !! ((r * length ops + t) `div` length v) = Some g
    ∧ v !! ((r * length ops + t) `mod` length v) = Some x
    ∧ row !! t = Some (act g x)
    ∧ (r = 0 → t < length v → ops !! 0 = Some g ∧ v !! t = Some x).
Proof.
  intros Hr Ht.
  set (n := length v) in *. set (m := length ops) in *.
  set (k := r * m + t).
  assert (n ≠ 0) as Hn by lia.
  pose proof (Nat.div_mod k n Hn) as Hk.
  pose proof (Nat.mod_upper_bound k n Hn) as Hi.
  assert (k `div` n < m) as Hj.
  { apply Nat.Div0.div_lt_upper_bound. subst k. nia. }
  destruct (lookup_lt_is_Some_2 ops (k `div` n) Hj) as [g Hg].
  destruct (lookup_lt_is_Some_2 v (k `mod` n) Hi) as [x Hx].
  eexists _, g, x. split; [by apply reshape_lookup|].
  split; [done|]. split; [done|]. split.
  - rewrite lookup_take_lt by done. rewrite lookup_drop. fold k.
    rewrite Hk at 1. rewrite (Nat.mul_comm n). subst n.
    rewrite outer_flat_lookup by done. by rewrite Hg, Hx.
  - intros -> Htn. subst k. simpl in *.
    rewrite Nat.div_small in Hg by done. rewrite Nat.mod_small in Hx by done.
    done.
Qed.
End UniqueFacts.

Section UniqueWitnesses.
Import Sample.

Lemma unique_rows_are_slices_witness :
  ∃ (row : list (vec3 float)) (g : Op) (x : vec3 float),
    reshape (length vectors0) (length (point_group PG4))
      (concat (outer (point_group PG4) vectors0)) !! 0 = Some row
    ∧ point_group PG4 !! ((0 * length (point_group PG4) + 1) `div` length vectors0)
      = Some g
    ∧ vectors0 !! ((0 * length (point_group PG4) + 1) `mod` length vectors0)
      = Some x
    ∧ row !! 1 = Some (act g x)
    ∧ (0 = 0 → 1 < length vectors0 →
       point_group PG4 !! 0 = Some g ∧ vectors0 !! 1 = Some x).
Proof.
  apply (unique_rows_are_slices (point_group PG4) vectors0 0 1); simpl; lia.
Defined.
End UniqueWitnesses.

(** ** Column names of an .ang file *)

Section VendorColumnFacts.

Definition columns_unknown : list string :=
  ["euler1"; "euler2"; "euler3"; "x"; "y"; "unknown1"; "unknown2"; "phase_id"].

Lemma NoDup_by_compute (l : list string) :
  bool_decide (NoDup l) = true → NoDup l.
Proof. apply bool_decide_eq_true_1. Qed.

Lemma column_names_lookup :
  column_names !!! "unknown" = columns_unknown
  ∧ length (column_names !!! "tsl") = 14
  ∧ length (column_names !!! "emsoft") = 8
  ∧ length (column_names !!! "astar") = 9
  ∧ Forall (λ vendor,
             take 5 (column_names !!! vendor)
             = ["euler1"; "euler2"; "euler3"; "x"; "y"]
             ∧ (column_names !!! vendor) !! 7 = Some "phase_id"
             ∧ NoDup (column_names !!! vendor))
      ["tsl"; "emsoft"; "astar"].
Proof.
  split; [by vm_compute|]. split; [by vm_compute|].
  split; [by vm_compute|]. split; [by vm_compute|].
  repeat (apply Forall_cons; split;
          [split; [by vm_compute|split;
             [by vm_compute|apply NoDup_by_compute; by vm_compute]]|]).
  constructor.
Qed.

Lemma detect_vendor_precedence (header : list string) :
  detect_vendor header
  = if existsb (contains "ACOM") header then "astar"
    else if existsb (contains "EMsoft") header then "emsoft" else "tsl".
Proof.
  unfold detect_vendor. simpl.
  by destruct (existsb (contains "EMsoft") header),
    (existsb (contains "ACOM") header).
Qed.

Lemma extra_columns_fresh (k : nat) :
  NoDup (columns_unknown ++ ((λ i : nat, "unknown" +:+ pretty (i + 3)) <$> seq 0 k)).
Proof.
  apply NoDup_app. split; [apply NoDup_by_compute; by vm_compute|]. split.
  - intros x Hx (i & -> & _)%list_elem_of_fmap.
    unfold columns_unknown in Hx.
    repeat (apply elem_of_cons in Hx as [Hx|Hx]; [simpl in Hx; try discriminate Hx|]).
    + injection Hx as Hx. change (pretty (i + 3) = pretty 1) in Hx.
      apply (inj pretty) in Hx. lia.
    + injection Hx as Hx. change (pretty (i + 3) = pretty 2) in Hx.
      apply (inj pretty) in Hx. lia.
    + by apply elem_of_nil in Hx.
  - apply NoDup_fmap_2_strong; [|apply NoDup_seq].
    intros i j _ _ E. injection E as E.
    change (pretty (i + 3) = pretty (j + 3)) in E.
    apply (inj pretty) in E. lia.
Qed.

(** X21: whatever the header and the number of file columns,
    [_get_vendor_columns] returns pairwise different column names that
    start with euler1, euler2, euler3, x, y and have phase_id in eighth
    place; there are as many names as file columns, but never fewer than
    eight; it warns exactly when it returns the vendor "unknown", which is
    when the number of columns is not the one of the vendor detected; and
    the vendor detected is astar when a line holds "ACOM", even if another
    holds "EMsoft", else emsoft when one holds "EMsoft", else tsl. *)
Theorem vendor_columns_invariants (header : list string) (n_cols_file : nat) :
  ∃ (vendor : string) (names : list string) (warned : bool),
    _get_vendor_columns header n_cols_file = (vendor, names, warned)
    ∧ length names = n_cols_file `max` 8
    ∧ take 5 names = ["euler1"; "euler2"; "euler3"; "x"; "y"]
    ∧ names !! 7 = Some "phase_id"
    ∧ NoDup names
    ∧ (warned = true ↔ vendor = "unknown")
    ∧ (warned = true
       ↔ n_cols_file ≠ length (column_names !!! detect_vendor header))
    ∧ (warned = false →
       vendor = if existsb (contains "ACOM") header then "astar"
                else if existsb (contains "EMsoft") header then "emsoft"
                else "tsl").
Proof.
  destruct column_names_lookup as (Hu & Ht & He & Ha & Hall).
  apply Forall_cons in Hall as [(T5 & T7 & Tn) Hall].
  apply Forall_cons in Hall as [(E5 & E7 & En) Hall].
  apply Forall_cons in Hall as [(A5 & A7 & An) _].
  unfold _get_vendor_columns. rewrite Hu.
  change (length columns_unknown) with 8.
  case_bool_decide as Hn.
  - eexists _, _, _. split; [done|].
    case_bool_decide as H8.
    + split; [by rewrite length_app, length_fmap, length_seq; simpl; lia|].
      split; [done|]. split; [done|]. split; [apply extra_columns_fresh|].
      done.
    + split.
      { simpl. lia. }
      split; [done|]. split; [done|].
      split; [apply NoDup_by_compute; by vm_compute|]. done.
  - eexists _, _, _. split; [done|].
    rewrite detect_vendor_precedence in *.
    destruct (existsb (contains "ACOM") header);
      [|destruct (existsb (contains "EMsoft") header)];
      (split; [lia|]); (split; [done|]); (split; [done|]); (split; [done|]);
      (split; [done|]); (split; [|done]); split; done.
Qed.
End VendorColumnFacts.
